(** * The Lisp interpreter of React Emacs (src/services/lisp.ts)

    A shallow embedding of the reader ([parse]), the evaluator ([evalLisp]),
    the primitive library ([createGlobalEnv]), the printer ([printLisp]) and
    the expression-boundary scanner ([findLastSexp]), together with the host
    callbacks the editor passes to the interpreter (the [api] object of the
    App component), and the properties of them that the specification states.

    Conventions of the embedding.
    - A JavaScript string is a [string]: every [ascii] is one UTF-16 code
      unit below 256.
    - A JavaScript number is a binary64 [float]; arithmetic is the primitive
      IEEE arithmetic of [PrimFloat].
    - The object [LispVal] with its optional fields is the sum type
      [LispVal], one constructor per [type] tag, plus [undefined], the value
      JavaScript yields when an array is indexed out of range and which the
      source lets flow where a [LispVal] is expected.
    - Code that throws returns [Throw]; mutable state (the environment chain
      and the editor state behind the API) is passed explicitly and is
      returned on every exit, an exception included. *)

From Stdlib Require Import ZArith Floats String Ascii DecimalString List Bool Lia.
From stdpp Require Import gmap strings list.
Import ListNotations.
Local Open Scope string_scope.
Local Open Scope nat_scope.
Set Warnings "-register-all".

(** ** The JavaScript runtime functions the source relies on *)

Module Js.

Local Open Scope Z_scope.

(** The character class [\s] of a regular expression, on code units below 256:
    TAB, LF, VT, FF, CR, space and the no-break space. *)
Definition isSpace (c : ascii) : bool :=
  let n := N_of_ascii c in
  ((9 <=? n) && (n <=? 13) || (n =? 32) || (n =? 160))%N.

(** The character class [\d]. *)
Definition isDigit (c : ascii) : bool :=
  let n := N_of_ascii c in ((48 <=? n) && (n <=? 57))%N.

(** [s.length] and [s[i]] ([None] for JavaScript's [undefined]). *)
Definition length (s : string) : nat := String.length s.
Definition charAt (s : string) (i : nat) : option ascii := String.get i s.

(** [s.slice(a, b)] for offsets [0 <= a], as natural numbers. *)
Definition sliceNat (s : string) (a b : nat) : string := substring a (b - a) s.

(** *** Numbers and their decimal text *)

Definition digitsOf (z : Z) : string := NilZero.string_of_uint (N.to_uint (Z.to_N z)).

Fixpoint valueOfDigits (acc : Z) (s : string) : Z :=
  match s with
  | EmptyString => acc
  | String c r => valueOfDigits (10 * acc + (Z.of_N (N_of_ascii c) - 48)) r
  end.

(** Exact for [0 <= q <= 2^53]. *)
Definition floatOfZ (q : Z) : float := of_uint63 (Uint63.of_Z q).

(** The double nearest to the rational [num / den] (ties to even), for
    [0 <= num] and [0 < den]: the value a decimal literal denotes. *)
Definition roundRatio (num den : Z) : float :=
  if num =? 0 then 0%float else
  let l := Z.log2 num - Z.log2 den in
  let fl := if (if 0 <=? l then den * 2 ^ l <=? num else den <=? num * 2 ^ (- l))
            then l else l - 1 in
  let e := Z.max (fl - 52) (-1074) in
  let n' := num * 2 ^ Z.max 0 (- e) in
  let d' := den * 2 ^ Z.max 0 e in
  let q := n' / d' in
  let r := n' mod d' in
  let q' := if (d' <? 2 * r) || ((d' =? 2 * r) && Z.odd q) then q + 1 else q in
  Z.ldexp (floatOfZ q') e.

(** Splits [-?\d+(\.\d+)?]-shaped text at its first dot. *)
Fixpoint splitDot (s : string) : string * option string :=
  match s with
  | EmptyString => (EmptyString, None)
  | String c r =>
      if Ascii.eqb c "." then (EmptyString, Some r)
      else let '(a, b) := splitDot r in (String c a, b)
  end.

Fixpoint allDigits (s : string) : bool :=
  match s with
  | EmptyString => true
  | String c r => isDigit c && allDigits r
  end.

Definition nonEmptyDigits (s : string) : bool :=
  match s with EmptyString => false | _ => allDigits s end.

(** [/^-?\d+(\.\d+)?$/.test(token)] *)
Definition isNumericToken (token : string) : bool :=
  let body := match token with
              | String c r => if Ascii.eqb c "-" then r else token
              | EmptyString => token
              end in
  match splitDot body with
  | (ip, None) => nonEmptyDigits ip
  | (ip, Some fp) => nonEmptyDigits ip && nonEmptyDigits fp
  end.

(** [parseFloat(token)] on a token accepted by [isNumericToken]. *)
Definition parseFloat (token : string) : float :=
  let '(neg, body) := match token with
                      | String c r => if Ascii.eqb c "-" then (true, r) else (false, token)
                      | EmptyString => (false, token)
                      end in
  let '(ip, fp) := splitDot body in
  let fp := match fp with Some f => f | None => EmptyString end in
  let x := roundRatio (valueOfDigits 0 (ip +:+ fp)) (10 ^ Z.of_nat (String.length fp)) in
  if neg then (- x)%float else x.

Definition ratioOf (m e : Z) : Z * Z :=
  if 0 <=? e then (m * 2 ^ e, 1) else (m, 2 ^ (- e)).

Definition decimalRatio (s p : Z) : Z * Z :=
  if 0 <=? p then (s * 10 ^ p, 1) else (s, 10 ^ (- p)).

Fixpoint decimalExponentBelow (fuel : nat) (num den j : Z) : Z :=
  match fuel with
  | O => 1 - j
  | S f => if den <=? num * 10 ^ j then 1 - j else decimalExponentBelow f num den (j + 1)
  end.

(** The [n] with [10^(n-1) <= num/den < 10^n]. *)
Definition decimalExponent (num den : Z) : Z :=
  if den <=? num then Z.of_nat (String.length (digitsOf (num / den)))
  else decimalExponentBelow 400 num den 1.

Definition readsBack (x : float) (s n k : Z) : bool :=
  let '(a, b) := decimalRatio s (n - k) in PrimFloat.eqb (roundRatio a b) x.

(** Number::toString, step 5: the least [k] and the digits [s] with
    [10^(k-1) <= s < 10^k] such that [s * 10^(n-k)] denotes [x], the [s]
    nearest to [x] when two qualify. *)
Fixpoint shortestDigits (fuel : nat) (x : float) (xn xd n0 k : Z) : Z * Z * Z :=
  match fuel with
  | O => (0, n0, k)
  | S f =>
      let '(tn, td) := if 0 <=? k - n0 then (xn * 10 ^ (k - n0), xd)
                       else (xn, xd * 10 ^ (n0 - k)) in
      let lo := tn / td in
      let '(hi, nhi) := if lo + 1 =? 10 ^ k then (10 ^ (k - 1), n0 + 1) else (lo + 1, n0) in
      let okLo := readsBack x lo n0 k in
      let okHi := readsBack x hi nhi k in
      let dLo := 2 * (tn - lo * td) in
      if okLo && okHi then
        if (dLo <? td) || ((dLo =? td) && Z.even lo) then (lo, n0, k) else (hi, nhi, k)
      else if okLo then (lo, n0, k)
      else if okHi then (hi, nhi, k)
      else shortestDigits f x xn xd n0 (k + 1)
  end.

Fixpoint zeros (n : nat) : string :=
  match n with O => EmptyString | S m => String "0" (zeros m) end.

(** Number::toString, steps 6 to 10: plain, fractional or exponent layout. *)
Definition formatDecimal (s n k : Z) : string :=
  let ds := digitsOf s in
  if (k <=? n) && (n <=? 21) then ds +:+ zeros (Z.to_nat (n - k))
  else if (0 <? n) && (n <=? 21) then
    substring 0 (Z.to_nat n) ds +:+ "." +:+ substring (Z.to_nat n) (Z.to_nat (k - n)) ds
  else if (-6 <? n) && (n <=? 0) then "0." +:+ zeros (Z.to_nat (- n)) +:+ ds
  else
    let e := n - 1 in
    let es := (if 0 <=? e then "+" else "-") +:+ digitsOf (Z.abs e) in
    if k =? 1 then ds +:+ "e" +:+ es
    else substring 0 1 ds +:+ "." +:+ substring 1 (Z.to_nat (k - 1)) ds +:+ "e" +:+ es.

(** [x.toString()] and the string conversion of a number. *)
Definition numberToString (x : float) : string :=
  match Prim2SF x with
  | S754_nan => "NaN"
  | S754_zero _ => "0"
  | S754_infinity s => if s then "-Infinity" else "Infinity"
  | S754_finite sg m e =>
      let '(xn, xd) := ratioOf (Zpos m) e in
      let '(s, n, k) := shortestDigits 17 (PrimFloat.abs x) xn xd (decimalExponent xn xd) 1 in
      (if sg then "-" else EmptyString) +:+ formatDecimal s n k
  end.

(** *** Primitive values, strict equality, string conversion *)

(** What the field [value] of a [LispVal] can hold. *)
Inductive Value : Type :=
  | Undefined
  | Num (n : float)
  | Str (s : string)
  | Boolean (b : bool).

(** [a === b] *)
Definition strictEquals (a b : Value) : bool :=
  match a, b with
  | Undefined, Undefined => true
  | Num x, Num y => PrimFloat.eqb x y
  | Str s, Str t => String.eqb s t
  | Boolean p, Boolean q => Bool.eqb p q
  | _, _ => false
  end.

(** ToNumber of [undefined], a number or a boolean; [None] on a string,
    whose numeric reading is not part of the embedding. *)
Definition toNumber (v : Value) : option float :=
  match v with
  | Undefined => Some nan
  | Num n => Some n
  | Boolean b => Some (if b then 1%float else 0%float)
  | Str _ => None
  end.

(** The conversion [Array.prototype.join] applies to an element:
    [undefined] gives the empty string. *)
Definition joinText (v : Value) : string :=
  match v with
  | Undefined => EmptyString
  | Num n => numberToString n
  | Str s => s
  | Boolean b => if b then "true" else "false"
  end.

(** [parts.join(sep)] on strings. *)
Fixpoint join (sep : string) (parts : list string) : string :=
  match parts with
  | [] => EmptyString
  | [p] => p
  | p :: rest => p +:+ sep +:+ join sep rest
  end.

(** *** Offsets of [slice], [Math.min], [Math.max] *)

(** The offset [String.prototype.slice] makes of a number argument, in a
    string of length [len]: truncated, counted from the end when negative,
    clamped into [0, len]. *)
Definition sliceIndex (len : Z) (x : float) : Z :=
  match Prim2SF x with
  | S754_nan | S754_zero _ => 0
  | S754_infinity s => if s then 0 else len
  | S754_finite sg m e =>
      let t := if 0 <=? e then Zpos m * 2 ^ e else Zpos m / 2 ^ (- e) in
      if sg then (if t =? 0 then 0 else Z.max (len - t) 0) else Z.min t len
  end.

(** [s.slice(a, b)] and [s.slice(a)] with number arguments. *)
Definition slice (s : string) (a b : float) : string :=
  let len := Z.of_nat (String.length s) in
  let i := sliceIndex len a in
  let j := sliceIndex len b in
  substring (Z.to_nat i) (Z.to_nat (j - i)) s.

Definition sliceFrom (s : string) (a : float) : string :=
  let len := Z.of_nat (String.length s) in
  let i := sliceIndex len a in
  substring (Z.to_nat i) (Z.to_nat (len - i)) s.

(** [s[i]] and [s.slice(a, b)] with integer arguments: an index outside
    the string reads [undefined]; a negative offset of [slice] counts from
    the end, and both offsets are clamped into the string. *)
Definition charAtZ (s : string) (i : Z) : option ascii :=
  if i <? 0 then None else String.get (Z.to_nat i) s.

Definition sliceOffset (len i : Z) : Z :=
  if i <? 0 then Z.max (len + i) 0 else Z.min i len.

Definition sliceZ (s : string) (a b : Z) : string :=
  let len := Z.of_nat (String.length s) in
  let i := sliceOffset len a in
  let j := sliceOffset len b in
  substring (Z.to_nat i) (Z.to_nat (j - i)) s.

Definition isNegZero (x : float) : bool :=
  match Prim2SF x with S754_zero true => true | _ => false end.

(** [Math.min(a, b)] and [Math.max(a, b)]. *)
Definition min (a b : float) : float :=
  if PrimFloat.is_nan a || PrimFloat.is_nan b then nan
  else if PrimFloat.ltb a b then a
  else if PrimFloat.ltb b a then b
  else if isNegZero a then a else b.

Definition max (a b : float) : float :=
  if PrimFloat.is_nan a || PrimFloat.is_nan b then nan
  else if PrimFloat.ltb a b then b
  else if PrimFloat.ltb b a then a
  else if isNegZero a then b else a.

(** *** JSON text of a string *)

(** The double-quote character, code unit 34. *)
Definition dquote : ascii := ascii_of_N 34.

Definition hexDigit (n : N) : ascii :=
  ascii_of_N (if (n <? 10)%N then 48 + n else 87 + n)%N.

Definition jsonEscape (c : ascii) : string :=
  let n := N_of_ascii c in
  if Ascii.eqb c dquote then String "\" (String dquote EmptyString)
  else if Ascii.eqb c "\" then "\\"
  else if (n =? 8)%N then "\b"
  else if (n =? 9)%N then "\t"
  else if (n =? 10)%N then "\n"
  else if (n =? 12)%N then "\f"
  else if (n =? 13)%N then "\r"
  else if (n <? 32)%N then
    "\u00" +:+ String (hexDigit (n / 16)) (String (hexDigit (n mod 16)) EmptyString)
  else String c EmptyString.

Fixpoint jsonEscapes (s : string) : string :=
  match s with
  | EmptyString => EmptyString
  | String c r => jsonEscape c +:+ jsonEscapes r
  end.

Definition quoteChar : string := String dquote EmptyString.

(** A string literal of the source, its double quotes written here as
    backquotes. *)
Fixpoint lit (s : string) : string :=
  match s with
  | EmptyString => EmptyString
  | String c r => String (if Ascii.eqb c "`" then dquote else c) (lit r)
  end.

(** [JSON.stringify(s)] of a string and of a number. *)
Definition jsonString (s : string) : string := quoteChar +:+ jsonEscapes s +:+ quoteChar.

Definition jsonNumber (x : float) : string :=
  match Prim2SF x with
  | S754_nan | S754_infinity _ => "null"
  | _ => numberToString x
  end.

End Js.

(** ** Types *)

(** The builtins that [createGlobalEnv] registers; the field [fn] of a
    PRIMITIVE value is one of these closures. *)
Inductive Primitive : Type :=
  | prim_add | prim_sub | prim_mul | prim_div | prim_eq | prim_lt | prim_gt
  | prim_list | prim_cons | prim_car | prim_cdr
  | prim_message | prim_insert | prim_buffer_name | prim_current_buffer
  | prim_switch_to_buffer | prim_kill_buffer
  | prim_point | prim_point_min | prim_point_max | prim_goto_char.

(** [LispVal]: one constructor per [type] tag, named after the helper that
    builds it ([FUNC] and [PRIMITIVE] are built by object literals). *)
Inductive LispVal : Type :=
  | mkSym (name : string)
  | mkNum (value : float)
  | mkStr (value : string)
  | mkList (elements : list LispVal)
  | FUNC (params : list string) (body : LispVal)
  | PRIMITIVE (fn : Primitive)
  | mkBool (value : bool)
  | mkNull
  | undefined.

(** What a call can throw: [new Error(message)], or the [TypeError] of a
    property read on [undefined]. *)
Inductive Exn : Type :=
  | Error (message : string)
  | TypeError.

(** How a call ends. [Unmodelled] marks the places where the source hands a
    value of the wrong dynamic type to a JavaScript operator that would
    coerce it, or files a binding under a name that is not a string; the
    embedding stops there. [OutOfFuel] is the recursion bound of the
    embedding being reached. *)
Inductive Outcome (A : Type) : Type :=
  | Return (a : A)
  | Throw (e : Exn)
  | Unmodelled
  | OutOfFuel.

Arguments Return {A} a.
Arguments Throw {A} e.
Arguments Unmodelled {A}.
Arguments OutOfFuel {A}.

Definition bindO {A B} (o : Outcome A) (k : A -> Outcome B) : Outcome B :=
  match o with
  | Return a => k a
  | Throw e => Throw e
  | Unmodelled => Unmodelled
  | OutOfFuel => OutOfFuel
  end.

(** [elements[i]] *)
Definition index (elements : list LispVal) (i : nat) : LispVal :=
  nth i elements undefined.

(** [isTrue]; reading [v.type] of [undefined] throws. *)
Definition isTrue (v : LispVal) : Outcome bool :=
  match v with
  | undefined => Throw TypeError
  | mkNull => Return false
  | mkBool false => Return false
  | _ => Return true
  end.

(** ** Parser *)

Section Parser.

Variable input : string.

(** Advances [pos] while it is inside the input and the character there
    satisfies [p]; [k] bounds the number of steps by the characters left. *)
Fixpoint scanWhile (p : ascii -> bool) (k pos : nat) : nat :=
  match k with
  | O => pos
  | S k' =>
      match Js.charAt input pos with
      | Some c => if p c then scanWhile p k' (S pos) else pos
      | None => pos
      end
  end.

Definition skipWhitespace (pos : nat) : nat :=
  scanWhile Js.isSpace (Js.length input - pos) pos.

(** The loop of [parseString]: stops at a double quote or at the end of the
    input, a backslash skipping the character after it. *)
Fixpoint stringEnd (k pos : nat) : nat :=
  match k with
  | O => pos
  | S k' =>
      match Js.charAt input pos with
      | Some c =>
          if Ascii.eqb c Js.dquote then pos
          else stringEnd k' (if Ascii.eqb c "\" then S (S pos) else S pos)
      | None => pos
      end
  end.

(** [s.replace(/\\c/g, r)]: every backslash followed by [c] becomes [r]. *)
Fixpoint replaceEscape (c r : ascii) (s : string) : string :=
  match s with
  | EmptyString => EmptyString
  | String a rest =>
      match rest with
      | String b rest' =>
          if Ascii.eqb a "\" && Ascii.eqb b c then String r (replaceEscape c r rest')
          else String a (replaceEscape c r rest)
      | EmptyString => String a EmptyString
      end
  end.

Definition newline : ascii := ascii_of_N 10.

Definition parseString (pos : nat) : LispVal * nat :=
  let pos := S pos in
  let start := pos in
  let pos := stringEnd (Js.length input - pos) pos in
  let s := Js.sliceNat input start pos in
  (mkStr (replaceEscape "n" newline (replaceEscape Js.dquote Js.dquote s)), S pos).

Definition isAtomChar (c : ascii) : bool :=
  negb (Js.isSpace c || Ascii.eqb c ")" || Ascii.eqb c "(").

Definition parseAtom (pos : nat) : LispVal * nat :=
  let start := pos in
  let pos := scanWhile isAtomChar (Js.length input - pos) pos in
  let token := Js.sliceNat input start pos in
  (if String.eqb token "t" then mkBool true
   else if String.eqb token "nil" then mkNull
   else if Js.isNumericToken token then mkNum (Js.parseFloat token)
   else mkSym token,
   pos).

(** The loop of [parseList], entered after the opening parenthesis; every
    round but the last consumes a character, so [k] counts the characters
    left. *)
Fixpoint parseList (parseExpr : nat -> Outcome (LispVal * nat))
    (k pos : nat) (elements : list LispVal) : Outcome (LispVal * nat) :=
  if Js.length input <=? pos then Throw (Error "Unclosed list")
  else
    match k with
    | O => OutOfFuel
    | S k' =>
        let pos := skipWhitespace pos in
        if match Js.charAt input pos with Some c => Ascii.eqb c ")" | None => false end
        then Return (mkList elements, S pos)
        else
          match parseExpr pos with
          | Return (e, pos') => parseList parseExpr k' pos' (elements ++ [e])
          | Throw e => Throw e
          | Unmodelled => Unmodelled
          | OutOfFuel => OutOfFuel
          end
    end.

Definition parseQuote (parseExpr : nat -> Outcome (LispVal * nat)) (pos : nat)
    : Outcome (LispVal * nat) :=
  match parseExpr (S pos) with
  | Return (expr, pos') => Return (mkList [mkSym "quote"; expr], pos')
  | o => o
  end.

(** The body of [parseExpr], its recursive calls going through [self]. *)
Definition parseExprBody (self : nat -> Outcome (LispVal * nat)) (pos : nat)
    : Outcome (LispVal * nat) :=
  let pos := skipWhitespace pos in
  match Js.charAt input pos with
  | None => Return (mkNull, pos)
  | Some c =>
      if Ascii.eqb c Js.dquote then Return (parseString pos)
      else if Ascii.eqb c "(" then parseList self (Js.length input - S pos) (S pos) []
      else if Ascii.eqb c "'" then parseQuote self pos
      else Return (parseAtom pos)
  end.

(** [fuel] bounds the nesting depth; a nested call is made only after a
    character was consumed, so the length of the input plus one is enough. *)
Fixpoint parseExpr (fuel : nat) (pos : nat) : Outcome (LispVal * nat) :=
  match fuel with
  | O => OutOfFuel
  | S f => parseExprBody (parseExpr f) pos
  end.

End Parser.

Definition parse (input : string) : Outcome LispVal :=
  bindO (parseExpr input (S (Js.length input)) 0) (fun r => Return (fst r)).

(** ** Printer *)

Fixpoint printLisp (val : LispVal) : Outcome string :=
  match val with
  | undefined => Throw TypeError
  | mkNull => Return "nil"
  | mkBool value => Return (if value then "t" else "nil")
  | mkNum value => Return (Js.numberToString value)
  | mkStr value => Return (Js.quoteChar +:+ value +:+ Js.quoteChar)
  | mkSym name => Return name
  | mkList elements =>
      bindO
        ((fix each (l : list LispVal) : Outcome (list string) :=
            match l with
            | [] => Return []
            | e :: r =>
                bindO (printLisp e) (fun s => bindO (each r) (fun ss => Return (s :: ss)))
            end) elements)
        (fun parts => Return ("(" +:+ Js.join " " parts +:+ ")"))
  | FUNC _ _ => Return "<function>"
  | PRIMITIVE _ => Return "<subr>"
  end.

(** [JSON.stringify] of a [LispVal] object: the fields in the order the
    object literal lists them, a function-valued field left out, an
    [undefined] array element written [null]. *)
Fixpoint jsonStringify (val : LispVal) : string :=
  match val with
  | mkSym name => Js.lit "{`type`:`SYMBOL`,`name`:" +:+ Js.jsonString name +:+ "}"
  | mkNum value => Js.lit "{`type`:`NUMBER`,`value`:" +:+ Js.jsonNumber value +:+ "}"
  | mkStr value => Js.lit "{`type`:`STRING`,`value`:" +:+ Js.jsonString value +:+ "}"
  | mkBool value =>
      Js.lit "{`type`:`BOOL`,`value`:" +:+ (if value then "true" else "false") +:+ "}"
  | mkList elements =>
      Js.lit "{`type`:`LIST`,`elements`:[" +:+ Js.join "," (map jsonStringify elements) +:+ "]}"
  | mkNull => Js.lit "{`type`:`NULL`}"
  | FUNC params body =>
      Js.lit "{`type`:`FUNC`,`params`:[" +:+ Js.join "," (map Js.jsonString params)
      +:+ Js.lit "],`body`:" +:+ jsonStringify body +:+ "}"
  | PRIMITIVE _ => Js.lit "{`type`:`PRIMITIVE`}"
  | undefined => "null"
  end.

(** ** The editor state and the host API *)

(** The records of the editor state (types.ts). *)
Module Types.

Record Buffer : Type := {
  id : string;
  name : string;
  content : string;
  cursorPosition : float;
  mode : string;
  isModified : bool;
  readOnly : option bool
}.

Inductive EditorMode : Type := NORMAL | MINIBUFFER | WAITING_FOR_CHORD.

Inductive MinibufferType : Type :=
  | NONE | COMMAND | FIND_FILE | SWITCH_BUFFER | GEMINI_PROMPT | YES_NO | EVAL.

Record Minibuffer : Type := {
  type : MinibufferType;
  prompt : string;
  input : string
}.

Record EmacsState : Type := {
  buffers : list Buffer;
  activeBufferId : string;
  editorMode : EditorMode;
  chordStack : string;
  minibuffer : Minibuffer;
  message : string
}.

End Types.

(** The interface [EmacsAPI]: what the primitives ask of the editor. Every
    method acts on the editor state [H]; [killBuffer] can throw. *)
Module EmacsAPI.

Class t (H : Type) : Type := {
  message : string -> H -> H;
  insert : string -> H -> H;
  getBufferContent : H -> string;
  getCursor : H -> float;
  setCursor : float -> H -> H;
  switchBuffer : string -> H -> H;
  currentBufferName : H -> string;
  killBuffer : string -> H -> Outcome unit * H
}.

End EmacsAPI.

(** The object [api] of the App component, on the state behind [stateRef]
    (the re-render that [refresh] asks for is outside the state). *)
Module App.

Import Types.

Definition withBuffers (s : EmacsState) (bs : list Buffer) : EmacsState :=
  {| buffers := bs; activeBufferId := activeBufferId s; editorMode := editorMode s;
     chordStack := chordStack s; minibuffer := minibuffer s; message := message s |}.

Definition withActive (s : EmacsState) (a : string) : EmacsState :=
  {| buffers := buffers s; activeBufferId := a; editorMode := editorMode s;
     chordStack := chordStack s; minibuffer := minibuffer s; message := message s |}.

(** [bs.findIndex(p)] together with the element found. *)
Fixpoint findIndex (p : Buffer -> bool) (bs : list Buffer) (i : nat) : option (nat * Buffer) :=
  match bs with
  | [] => None
  | b :: r => if p b then Some (i, b) else findIndex p r (S i)
  end.

Definition activeBuffer (s : EmacsState) : option (nat * Buffer) :=
  findIndex (fun b => String.eqb (id b) (activeBufferId s)) (buffers s) 0.

Definition message (msg : string) (s : EmacsState) : EmacsState :=
  {| buffers := buffers s; activeBufferId := activeBufferId s; editorMode := editorMode s;
     chordStack := chordStack s; minibuffer := minibuffer s; Types.message := msg |}.

Definition insert (text : string) (s : EmacsState) : EmacsState :=
  match activeBuffer s with
  | None => s
  | Some (bufIdx, buf) =>
      let before := Js.slice (content buf) 0 (cursorPosition buf) in
      let after := Js.sliceFrom (content buf) (cursorPosition buf) in
      withBuffers s
        (<[bufIdx := {| id := id buf; name := name buf;
                        content := before +:+ text +:+ after;
                        cursorPosition :=
                          (cursorPosition buf + Js.floatOfZ (Z.of_nat (Js.length text)))%float;
                        mode := mode buf; isModified := true; readOnly := readOnly buf |}]>
           (buffers s))
  end.

Definition getBufferContent (s : EmacsState) : string :=
  match activeBuffer s with
  | Some (_, buf) => content buf
  | None => EmptyString
  end.

Definition getCursor (s : EmacsState) : float :=
  match activeBuffer s with
  | Some (_, buf) => cursorPosition buf
  | None => 0%float
  end.

Definition setCursor (pos : float) (s : EmacsState) : EmacsState :=
  match activeBuffer s with
  | None => s
  | Some (idx, buf) =>
      withBuffers s
        (<[idx := {| id := id buf; name := name buf; content := content buf;
                     cursorPosition :=
                       Js.max 0 (Js.min pos (Js.floatOfZ (Z.of_nat (Js.length (content buf)))));
                     mode := mode buf; isModified := isModified buf;
                     readOnly := readOnly buf |}]>
           (buffers s))
  end.

Definition switchBuffer (name' : string) (s : EmacsState) : EmacsState :=
  match findIndex (fun b => String.eqb (name b) name') (buffers s) 0 with
  | Some (_, existing) => withActive s (id existing)
  | None =>
      let newBuf := {| id := name'; name := name'; content := EmptyString;
                       cursorPosition := 0%float; mode := "Fundamental";
                       isModified := false; readOnly := None |} in
      withActive (withBuffers s (buffers s ++ [newBuf])) (id newBuf)
  end.

Definition currentBufferName (s : EmacsState) : string :=
  match activeBuffer s with
  | Some (_, buf) => name buf
  | None => EmptyString
  end.

(** The early exits: one buffer left, no buffer of that name, or an id that
    is the empty string (falsy). After the removal the first buffer left is
    activated; reading its id throws when none is left. *)
Definition killBuffer (name' : string) (s : EmacsState) : Outcome unit * EmacsState :=
  if Nat.leb (List.length (buffers s)) 1 then (Return tt, s)
  else
    match findIndex (fun b => String.eqb (name b) name') (buffers s) 0 with
    | None => (Return tt, s)
    | Some (_, found) =>
        let killId := id found in
        if String.eqb killId EmptyString then (Return tt, s)
        else
          let s1 := withBuffers s (List.filter (fun b => negb (String.eqb (id b) killId)) (buffers s)) in
          if String.eqb (activeBufferId s1) killId then
            match buffers s1 with
            | first :: _ => (Return tt, withActive s1 (id first))
            | [] => (Throw TypeError, s1)
            end
          else (Return tt, s1)
    end.

#[global] Instance api : EmacsAPI.t EmacsState := {|
  EmacsAPI.message := message;
  EmacsAPI.insert := insert;
  EmacsAPI.getBufferContent := getBufferContent;
  EmacsAPI.getCursor := getCursor;
  EmacsAPI.setCursor := setCursor;
  EmacsAPI.switchBuffer := switchBuffer;
  EmacsAPI.currentBufferName := currentBufferName;
  EmacsAPI.killBuffer := killBuffer
|}.

End App.

(** ** Environment *)

(** The class [LispEnv]: the bindings [vars] of one scope and the enclosing
    scope [outer]. The field [api] is the same object in every environment
    of a session; it is the instance of [EmacsAPI.t] the evaluator runs
    against. *)
Inductive LispEnv : Type :=
  | newLispEnv (vars : gmap string LispVal) (outer : option LispEnv).

Definition vars (env : LispEnv) : gmap string LispVal :=
  match env with newLispEnv vars _ => vars end.

Definition outer (env : LispEnv) : option LispEnv :=
  match env with newLispEnv _ outer => outer end.

Module Env.

Fixpoint get (env : LispEnv) (name : string) : Outcome LispVal :=
  match env with
  | newLispEnv vars outer =>
      match vars !! name with
      | Some val => Return val
      | None =>
          match outer with
          | Some o => get o name
          | None => Throw (Error ("Void variable: " +:+ name))
          end
      end
  end.

Definition set (env : LispEnv) (name : string) (val : LispVal) : LispEnv :=
  newLispEnv (<[name := val]> (vars env)) (outer env).

Definition define (env : LispEnv) (name : string) (val : LispVal) : LispEnv :=
  newLispEnv (<[name := val]> (vars env)) (outer env).

End Env.

(** ** Evaluator *)

Section Interpreter.

Context {Host : Type} {api : EmacsAPI.t Host}.

(** A computation of the interpreter: it runs on the current environment and
    the editor state and returns both, however it ends. *)
Definition M (A : Type) : Type := LispEnv * Host -> Outcome A * (LispEnv * Host).

Definition ret {A} (a : A) : M A := fun s => (Return a, s).
Definition throw {A} (e : Exn) : M A := fun s => (Throw e, s).
Definition unmodelled {A} : M A := fun s => (Unmodelled, s).
Definition outOfFuel {A} : M A := fun s => (OutOfFuel, s).

Definition bind {A B} (m : M A) (k : A -> M B) : M B :=
  fun s =>
    match m s with
    | (Return a, s') => k a s'
    | (Throw e, s') => (Throw e, s')
    | (Unmodelled, s') => (Unmodelled, s')
    | (OutOfFuel, s') => (OutOfFuel, s')
    end.

Notation "x <- m ;; k" := (bind m (fun x => k))
  (at level 100, m at next level, right associativity).
Notation "m ;;; k" := (bind m (fun _ => k))
  (at level 100, right associativity).

Definition lift {A} (o : Outcome A) : M A := fun s => (o, s).

(** [env.get(name)], [env.set(name, val)], [env.define(name, val)]. *)
Definition envGet (name : string) : M LispVal :=
  fun s => (Env.get (fst s) name, s).

Definition envSet (name : string) (val : LispVal) : M unit :=
  fun s => (Return tt, (Env.set (fst s) name val, snd s)).

Definition envDefine (name : string) (val : LispVal) : M unit :=
  fun s => (Return tt, (Env.define (fst s) name val, snd s)).

(** A call of a method of the API that changes the editor state, and one
    that reads it. *)
Definition hostDo (f : Host -> Host) : M unit :=
  fun s => (Return tt, (fst s, f (snd s))).

Definition hostRead {A} (f : Host -> A) : M A :=
  fun s => (Return (f (snd s)), s).

(** Runs [m] in [new LispEnv(env.api, env)] filled with [newVars], and comes
    back to the enclosing environment, the [outer] of the child. *)
Definition inChild {A} (newVars : gmap string LispVal) (m : M A) : M A :=
  fun s =>
    let '(r, (child, h)) := m (newLispEnv newVars (Some (fst s)), snd s) in
    (r, (match outer child with Some env => env | None => child end, h)).

(** *** Primitives *)

(** [a.value]; [a] itself can be [undefined]. *)
Definition valueOf (a : LispVal) : Outcome Js.Value :=
  match a with
  | undefined => Throw TypeError
  | mkNum value => Return (Js.Num value)
  | mkStr value => Return (Js.Str value)
  | mkBool value => Return (Js.Boolean value)
  | _ => Return Js.Undefined
  end.

(** [a + (b.value as number)] with [a] a number: a string operand would be
    concatenated and stored under the NUMBER tag. *)
Definition plusValue (a : float) (b : LispVal) : Outcome float :=
  bindO (valueOf b) (fun v =>
    match Js.toNumber v with
    | Some n => Return (a + n)%float
    | None => Unmodelled
    end).

(** [args.reduce(f, init)] *)
Fixpoint reduce (f : float -> LispVal -> Outcome float) (args : list LispVal) (a : float)
    : Outcome float :=
  match args with
  | [] => Return a
  | b :: r => bindO (f a b) (reduce f r)
  end.

Definition timesValue (a : float) (b : LispVal) : Outcome float :=
  bindO (valueOf b) (fun v =>
    match Js.toNumber v with
    | Some n => Return (a * n)%float
    | None => Unmodelled
    end).

Definition numberOf (a : LispVal) : Outcome float :=
  bindO (valueOf a) (fun v =>
    match Js.toNumber v with
    | Some n => Return n
    | None => Unmodelled
    end).

(** [x < y] on two values: strings compare by code units, anything else
    as numbers. *)
Definition lessThan (x y : Js.Value) : Outcome bool :=
  match x, y with
  | Js.Str s, Js.Str t => Return (String.ltb s t)
  | _, _ =>
      match Js.toNumber x, Js.toNumber y with
      | Some a, Some b => Return (PrimFloat.ltb a b)
      | _, _ => Unmodelled
      end
  end.

Definition elementsOf (a : LispVal) : option (list LispVal) :=
  match a with
  | mkList elements => Some elements
  | _ => None
  end.

Fixpoint mapO {A B} (f : A -> Outcome B) (l : list A) : Outcome (list B) :=
  match l with
  | [] => Return []
  | a :: r => bindO (f a) (fun b => bindO (mapO f r) (fun bs => Return (b :: bs)))
  end.

(** The closure registered under each name by [createGlobalEnv]. *)
Definition applyPrimitive (fn : Primitive) (args : list LispVal) : M LispVal :=
  match fn with
  | prim_add =>
      n <- lift (reduce plusValue args 0%float) ;; ret (mkNum n)
  | prim_sub =>
      a <- lift (numberOf (index args 0)) ;;
      b <- lift (reduce plusValue (tl args) 0%float) ;;
      ret (mkNum (a - b)%float)
  | prim_mul =>
      n <- lift (reduce timesValue args 1%float) ;; ret (mkNum n)
  | prim_div =>
      a <- lift (valueOf (index args 0)) ;;
      b <- lift (valueOf (index args 1)) ;;
      match Js.toNumber a, Js.toNumber b with
      | Some x, Some y => ret (mkNum (x / y)%float)
      | _, _ => unmodelled
      end
  | prim_eq =>
      a <- lift (valueOf (index args 0)) ;;
      b <- lift (valueOf (index args 1)) ;;
      ret (mkBool (Js.strictEquals a b))
  | prim_lt =>
      a <- lift (valueOf (index args 0)) ;;
      b <- lift (valueOf (index args 1)) ;;
      r <- lift (lessThan a b) ;; ret (mkBool r)
  | prim_gt =>
      a <- lift (valueOf (index args 0)) ;;
      b <- lift (valueOf (index args 1)) ;;
      r <- lift (lessThan b a) ;; ret (mkBool r)
  | prim_list => ret (mkList args)
  | prim_cons =>
      match index args 1 with
      | undefined => throw TypeError
      | a1 =>
          ret (mkList (index args 0 ::
                       match elementsOf a1 with Some elements => elements | None => [] end))
      end
  | prim_car =>
      match index args 0 with
      | undefined => throw TypeError
      | a0 =>
          match elementsOf a0 with
          | Some elements => ret (index elements 0)
          | None => ret mkNull
          end
      end
  | prim_cdr =>
      match index args 0 with
      | undefined => throw TypeError
      | a0 =>
          match elementsOf a0 with
          | Some elements => ret (mkList (tl elements))
          | None => ret mkNull
          end
      end
  | prim_message =>
      parts <- lift (mapO (fun a => match a with
                                    | undefined => Throw TypeError
                                    | mkStr value => Return value
                                    | _ => Return (jsonStringify a)
                                    end) args) ;;
      let msg := Js.join " " parts in
      hostDo (EmacsAPI.message msg) ;;;
      ret (mkStr msg)
  | prim_insert =>
      values <- lift (mapO valueOf args) ;;
      let text := Js.join EmptyString (map Js.joinText values) in
      hostDo (EmacsAPI.insert text) ;;;
      ret mkNull
  | prim_buffer_name | prim_current_buffer =>
      name <- hostRead EmacsAPI.currentBufferName ;; ret (mkStr name)
  | prim_switch_to_buffer =>
      v <- lift (valueOf (index args 0)) ;;
      match v with
      | Js.Str name => hostDo (EmacsAPI.switchBuffer name) ;;; ret (mkStr name)
      | _ => unmodelled
      end
  | prim_kill_buffer =>
      v <- lift (valueOf (index args 0)) ;;
      match v with
      | Js.Str name =>
          (fun s => let '(r, h) := EmacsAPI.killBuffer name (snd s) in (r, (fst s, h))) ;;;
          ret mkNull
      | _ => unmodelled
      end
  | prim_point => pos <- hostRead EmacsAPI.getCursor ;; ret (mkNum pos)
  | prim_point_min => ret (mkNum 0%float)
  | prim_point_max =>
      text <- hostRead EmacsAPI.getBufferContent ;;
      ret (mkNum (Js.floatOfZ (Z.of_nat (Js.length text))))
  | prim_goto_char =>
      pos <- lift (numberOf (index args 0)) ;;
      hostDo (EmacsAPI.setCursor pos) ;;;
      ret (index args 0)
  end.

(** *** Special forms and application *)

(** [args[i] || mkNull()]: every object is truthy, [undefined] is not. *)
Definition orNull (v : LispVal) : LispVal :=
  match v with
  | undefined => mkNull
  | _ => v
  end.

(** [fn.params.forEach((p, i) => activationRecord.define(p, args[i] || mkNull()))] *)
Fixpoint bindParams (params : list string) (i : nat) (args : list LispVal)
    (newVars : gmap string LispVal) : gmap string LispVal :=
  match params with
  | [] => newVars
  | p :: rest => bindParams rest (S i) args (<[p := orNull (index args i)]> newVars)
  end.

(** [elements[2].elements.map(e => e.name)]: the names, when every element
    is a symbol. *)
Fixpoint paramNames (ps : list LispVal) : Outcome (list string) :=
  match ps with
  | [] => Return []
  | p :: rest =>
      match p with
      | undefined => Throw TypeError
      | mkSym name => bindO (paramNames rest) (fun names => Return (name :: names))
      | _ =>
          match paramNames rest with
          | Throw e => Throw e
          | _ => Unmodelled
          end
      end
  end.

Section Forms.

(** The recursive calls of [evalLisp]. *)
Variable evalLisp : LispVal -> M LispVal.

(** The loop of [setq] over [elements[i]], [elements[i+1]], from [i = 1]. *)
Fixpoint evalSetq (rest : list LispVal) (result : LispVal) : M LispVal :=
  match rest with
  | [] => ret result
  | sym :: rest1 =>
      match sym with
      | undefined => throw TypeError
      | mkSym name =>
          match rest1 with
          | e :: rest2 =>
              val <- evalLisp e ;;
              envSet name val ;;;
              evalSetq rest2 val
          | [] =>
              val <- evalLisp undefined ;;
              envSet name val ;;;
              ret val
          end
      | _ => throw (Error "setq expects symbols")
      end
  end.

(** The loops of [progn] and of the body of [let]. *)
Fixpoint evalSequence (es : list LispVal) (result : LispVal) : M LispVal :=
  match es with
  | [] => ret result
  | e :: rest => val <- evalLisp e ;; evalSequence rest val
  end.

(** [elements.slice(1).map(e => evalLisp(e, env))] *)
Fixpoint evalArgs (es : list LispVal) : M (list LispVal) :=
  match es with
  | [] => ret []
  | e :: rest => val <- evalLisp e ;; vals <- evalArgs rest ;; ret (val :: vals)
  end.

(** [bindings.forEach(...)] of [let]: the initial values are evaluated in the
    environment of the [let] form and collected in the bindings [newVars] of
    the child. *)
Fixpoint evalBindings (bindings : list LispVal) (newVars : gmap string LispVal)
    : M (gmap string LispVal) :=
  match bindings with
  | [] => ret newVars
  | b :: rest =>
      match b with
      | undefined => throw TypeError
      | mkList bes =>
          match index bes 0 with
          | undefined => throw TypeError
          | first =>
              val <- evalLisp (index bes 1) ;;
              match first with
              | mkSym name => evalBindings rest (<[name := val]> newVars)
              | _ => unmodelled
              end
          end
      | mkSym name => evalBindings rest (<[name := mkNull]> newVars)
      | _ => evalBindings rest newVars
      end
  end.

Definition evalIf (elements : list LispVal) : M LispVal :=
  cond <- evalLisp (index elements 1) ;;
  truth <- lift (isTrue cond) ;;
  if truth : bool then evalLisp (index elements 2)
  else if 3 <? List.length elements then evalLisp (index elements 3)
  else ret mkNull.

Definition evalDefun (elements : list LispVal) : M LispVal :=
  match index elements 1 with
  | undefined => throw TypeError
  | e1 =>
      match index elements 2 with
      | mkList ps =>
          params <- lift (paramNames ps) ;;
          let body := mkList (mkSym "progn" :: skipn 3 elements) in
          match e1 with
          | mkSym name => envDefine name (FUNC params body) ;;; ret (mkSym name)
          | _ => unmodelled
          end
      | _ => throw TypeError
      end
  end.

Definition evalLet (elements : list LispVal) : M LispVal :=
  match index elements 1 with
  | mkList bindings =>
      newVars <- evalBindings bindings ∅ ;;
      inChild newVars (evalSequence (skipn 2 elements) mkNull)
  | _ => throw TypeError
  end.

(** The [switch (head.name)] of the special forms; [None] when no case
    applies and control falls through to the function application. *)
Definition specialForm (name : string) (elements : list LispVal) : option (M LispVal) :=
  if String.eqb name "quote" then Some (ret (index elements 1))
  else if String.eqb name "setq" then Some (evalSetq (tl elements) mkNull)
  else if String.eqb name "if" then Some (evalIf elements)
  else if String.eqb name "defun" then Some (evalDefun elements)
  else if String.eqb name "progn" then Some (evalSequence (tl elements) mkNull)
  else if String.eqb name "let" then Some (evalLet elements)
  else if String.eqb name "interactive" then Some (ret mkNull)
  else None.

Definition applyFunction (head : LispVal) (elements : list LispVal) : M LispVal :=
  fn <- evalLisp head ;;
  args <- evalArgs (tl elements) ;;
  match fn with
  | undefined => throw TypeError
  | PRIMITIVE f => applyPrimitive f args
  | FUNC params body => inChild (bindParams params 0 args ∅) (evalLisp body)
  | _ => throw (Error ("Invalid function call: " +:+ jsonStringify head))
  end.

(** The body of [evalLisp]. *)
Definition evalLispBody (expr : LispVal) : M LispVal :=
  match expr with
  | undefined => throw TypeError
  | mkNum _ | mkStr _ | mkBool _ | mkNull => ret expr
  | mkSym name => envGet name
  | mkList elements =>
      match elements with
      | [] => ret mkNull
      | head :: _ =>
          match head with
          | undefined => throw TypeError
          | mkSym name =>
              match specialForm name elements with
              | Some form => form
              | None => applyFunction head elements
              end
          | _ => applyFunction head elements
          end
      end
  | FUNC _ _ | PRIMITIVE _ => ret expr
  end.

End Forms.

(** [evalLisp(expr, env)]; [fuel] bounds the depth of the nested calls. *)
Fixpoint evalLisp (fuel : nat) (expr : LispVal) : M LispVal :=
  match fuel with
  | O => outOfFuel
  | S n => evalLispBody (evalLisp n) expr
  end.

End Interpreter.

Arguments M : clear implicits.

(** ** Standard library *)

(** [createGlobalEnv(api)]: the environment without [outer] in which every
    builtin is registered under its name, in the order of the source. *)
Definition register (name : string) (fn : Primitive) (env : LispEnv) : LispEnv :=
  Env.define env name (PRIMITIVE fn).

Definition createGlobalEnv : LispEnv :=
  fold_left (fun env '(name, fn) => register name fn env)
    [ ("+", prim_add); ("-", prim_sub); ("*", prim_mul); ("/", prim_div);
      ("=", prim_eq); ("<", prim_lt); (">", prim_gt);
      ("list", prim_list); ("cons", prim_cons); ("car", prim_car); ("cdr", prim_cdr);
      ("message", prim_message); ("insert", prim_insert);
      ("buffer-name", prim_buffer_name); ("current-buffer", prim_current_buffer);
      ("switch-to-buffer", prim_switch_to_buffer); ("kill-buffer", prim_kill_buffer);
      ("point", prim_point); ("point-min", prim_point_min); ("point-max", prim_point_max);
      ("goto-char", prim_goto_char) ]
    (newLispEnv ∅ None).

(** ** S-expression finder *)

Section Finder.

Local Open Scope Z_scope.

Variable text : string.

(** [/\s/.test(text[pos])] and [/\s|\(|\)/.test(text[pos])]; a position
    outside the text reads [undefined], which matches neither. *)
Definition spaceAt (pos : Z) : bool :=
  match Js.charAtZ text pos with
  | Some c => Js.isSpace c
  | None => false
  end.

Definition delimiterAt (pos : Z) : bool :=
  match Js.charAtZ text pos with
  | Some c => Js.isSpace c || Ascii.eqb c "(" || Ascii.eqb c ")"
  | None => false
  end.

Definition charIs (pos : Z) (c : ascii) : bool :=
  match Js.charAtZ text pos with
  | Some d => Ascii.eqb d c
  | None => false
  end.

(** [while (pos >= 0 && p(pos)) pos--]; [k] counts the positions from [pos]
    down to 0. *)
Fixpoint scanBack (p : Z -> bool) (k : nat) (pos : Z) : Z :=
  match k with
  | O => pos
  | S k' => if (0 <=? pos) && p pos then scanBack p k' (pos - 1) else pos
  end.

(** The loop that looks for the matching opening parenthesis. *)
Fixpoint matchBack (k : nat) (pos : Z) (depth : Z) : Z * Z :=
  match k with
  | O => (pos, depth)
  | S k' =>
      if (0 <=? pos) && (0 <? depth) then
        let depth := if charIs pos ")" then depth + 1 else depth in
        let depth := if charIs pos "(" then depth - 1 else depth in
        if 0 <? depth then matchBack k' (pos - 1) depth else (pos, depth)
      else (pos, depth)
  end.

(** The loop that looks for the opening double quote. *)
Fixpoint quoteBack (k : nat) (pos : Z) : Z :=
  match k with
  | O => pos
  | S k' =>
      if 0 <=? pos then
        if charIs pos Js.dquote && negb (charIs (pos - 1) "\") then pos
        else quoteBack k' (pos - 1)
      else pos
  end.

Definition findLastSexp (cursor : Z) : option string :=
  let pos := cursor - 1 in
  let pos := scanBack spaceAt (Z.to_nat (pos + 1)) pos in
  if pos <? 0 then None
  else if charIs pos ")" then
    let depth := 1 in
    let end_ := pos + 1 in
    let pos := pos - 1 in
    let '(pos, depth) := matchBack (Z.to_nat (pos + 1)) pos depth in
    if depth =? 0 then Some (Js.sliceZ text pos end_) else None
  else if charIs pos Js.dquote then
    let end_ := pos + 1 in
    let pos := pos - 1 in
    let pos := quoteBack (Z.to_nat (pos + 1)) pos in
    Some (Js.sliceZ text pos end_)
  else
    let end_ := pos + 1 in
    let pos := scanBack (fun p => negb (delimiterAt p)) (Z.to_nat (pos + 1)) pos in
    Some (Js.sliceZ text (pos + 1) end_).

End Finder.

(** ** Tokenizer *)

(** [s.replace(/c/g, r)] for one character [c]: every occurrence of [c]
    becomes [r]. *)
Fixpoint replaceAll (c : ascii) (r : string) (s : string) : string :=
  match s with
  | EmptyString => EmptyString
  | String a rest =>
      (if Ascii.eqb a c then r else String a EmptyString) +:+ replaceAll c r rest
  end.

(** [s.split(/\s+/)]: the pieces between the maximal runs of white space. A
    run at the start or at the end of [s] leaves an empty piece there, and
    the empty string splits into one empty piece. [piece] holds the
    characters read since the last run; [inRun] tells that the character
    before was white space. *)
Fixpoint splitSpaces (s piece : string) (inRun : bool) : list string :=
  match s with
  | EmptyString => [piece]
  | String c rest =>
      if Js.isSpace c then
        if inRun then splitSpaces rest EmptyString true
        else piece :: splitSpaces rest EmptyString true
      else splitSpaces rest (piece +:+ String c EmptyString) false
  end.

Definition tokenize (input : string) : list string :=
  List.filter (fun t => 0 <? Js.length t)
    (splitSpaces
       (replaceAll "'" " ' " (replaceAll ")" " ) " (replaceAll "(" " ( " input)))
       EmptyString false).

(** ** Searching a string for a character *)

(** The first index at which [c] stands in [cs], counted from [i]; -1 when
    it stands nowhere. *)
Fixpoint firstIndex (c : ascii) (cs : list ascii) (i : Z) : Z :=
  match cs with
  | [] => (-1)%Z
  | x :: rest => if Ascii.eqb x c then i else firstIndex c rest (i + 1)%Z
  end.

(** The last index at which [c] stands in [cs], counted from [i]; [found]
    when it stands nowhere. *)
Fixpoint lastIndex (c : ascii) (cs : list ascii) (i found : Z) : Z :=
  match cs with
  | [] => found
  | x :: rest => lastIndex c rest (i + 1)%Z (if Ascii.eqb x c then i else found)
  end.

(** [s.indexOf(c, from)] for a character [c] and an integer [from]: the
    search starts at [from], clamped into [0, s.length]. *)
Definition indexOf (s : string) (c : ascii) (from : Z) : Z :=
  let len := Z.of_nat (String.length s) in
  let start := Z.min (Z.max from 0) len in
  firstIndex c (drop (Z.to_nat start) (list_ascii_of_string s)) start.

(** [s.lastIndexOf(c, from)] for a character [c] and an integer [from]:
    the last index at or before [from], clamped into [0, s.length - 1]. *)
Definition lastIndexOf (s : string) (c : ascii) (from : Z) : Z :=
  let len := Z.of_nat (String.length s) in
  let start := Z.min (Z.max from 0) (len - 1) in
  lastIndex c (take (Z.to_nat (start + 1)) (list_ascii_of_string s)) 0 (-1).

(** ** The commands of the editor *)

(** The core actions of the App component and [evalSexp], on the state
    behind [stateRef] and the environment behind [lispEnvRef]. *)
Module Commands.

Import Types.

Definition echo (msg : string) (s : EmacsState) : EmacsState :=
  {| buffers := buffers s; activeBufferId := activeBufferId s; editorMode := editorMode s;
     chordStack := chordStack s; minibuffer := minibuffer s; message := msg |}.

Definition noMinibuffer : Minibuffer :=
  {| type := NONE; prompt := EmptyString; input := EmptyString |}.

Definition switchBuffer (bufferId : string) (s : EmacsState) : EmacsState :=
  {| buffers := buffers s; activeBufferId := bufferId; editorMode := NORMAL;
     chordStack := chordStack s; minibuffer := noMinibuffer;
     message := "Switched to buffer " +:+ bufferId |}.

Definition createBuffer (name' : string) (s : EmacsState) : EmacsState :=
  match App.findIndex (fun b => String.eqb (name b) name') (buffers s) 0 with
  | Some (_, existing) => switchBuffer (id existing) s
  | None =>
      let newBuffer := {| id := name'; name := name'; content := EmptyString;
                          cursorPosition := 0%float; mode := "Fundamental";
                          isModified := false; readOnly := None |} in
      {| buffers := buffers s ++ [newBuffer]; activeBufferId := id newBuffer;
         editorMode := NORMAL; chordStack := chordStack s; minibuffer := noMinibuffer;
         message := "(New file)" |}
  end.

(** [killBuffer()]: the buffer before the active one (the second when the
    active one is the first) is chosen before the removal; with no active
    buffer the index is -1, the choice is [undefined], and reading its id
    throws after the list was filtered. *)
Definition killBuffer (s : EmacsState) : Outcome unit * EmacsState :=
  if Nat.leb (List.length (buffers s)) 1 then (Return tt, echo "Cannot kill the last buffer" s)
  else
    let nextBuffer :=
      match App.activeBuffer s with
      | Some (idx, _) => buffers s !! (match idx with O => 1 | S i => i end)
      | None => None
      end in
    let s1 :=
      App.withBuffers s
        (List.filter (fun b => negb (String.eqb (id b) (activeBufferId s))) (buffers s)) in
    match nextBuffer with
    | None => (Throw TypeError, s1)
    | Some next =>
        (Return tt,
         {| buffers := buffers s1; activeBufferId := id next; editorMode := NORMAL;
            chordStack := EmptyString; minibuffer := minibuffer s1;
            message := "Killed buffer" |})
    end.

(** [moveCursorLine(dir)] on a buffer with the content [content] whose
    cursor is the integer [currentPos]: the position [newPos] that the
    function assigns to the cursor, [None] where it returns without an
    assignment (no line above, no line below). *)
Definition moveCursorLine (content : string) (currentPos : Z) (dir : Z) : option Z :=
  let lineStart := (lastIndexOf content newline (currentPos - 1) + 1)%Z in
  let offset := (currentPos - lineStart)%Z in
  if (dir =? -1)%Z then
    if (lineStart =? 0)%Z then None
    else
      let prevLineEnd := (lineStart - 1)%Z in
      let prevLineStart := (lastIndexOf content newline (prevLineEnd - 1) + 1)%Z in
      let prevLineLength := (prevLineEnd - prevLineStart)%Z in
      Some (prevLineStart + Z.min offset prevLineLength)%Z
  else
    let lineEnd := indexOf content newline currentPos in
    if (lineEnd =? -1)%Z then None
    else
      let nextLineStart := (lineEnd + 1)%Z in
      let nextLineEnd := indexOf content newline nextLineStart in
      let actualNextEnd :=
        if (nextLineEnd =? -1)%Z then Z.of_nat (Js.length content) else nextLineEnd in
      let nextLineLength := (actualNextEnd - nextLineStart)%Z in
      Some (nextLineStart + Z.min offset nextLineLength)%Z.

Section Evaluation.

(** The [message] of the [TypeError] the engine throws: its text is the
    engine's, not the program's. *)
Variable typeErrorMessage : string.

Definition messageOf (e : Exn) : string :=
  match e with
  | Error message => message
  | TypeError => typeErrorMessage
  end.

(** [evalSexp(code)]: whatever [parse], [evalLisp] or [printLisp] throws is
    caught and echoed; the environment and the editor state keep what the
    evaluation did before it failed. [None] where the embedding of the
    evaluator stops. *)
Definition evalSexp (fuel : nat) (code : string) (s : LispEnv * EmacsState)
    : option (LispEnv * EmacsState) :=
  let failed (e : Exn) (s' : LispEnv * EmacsState) :=
    Some (fst s', echo ("Lisp Error: " +:+ messageOf e) (snd s')) in
  match parse code with
  | Return ast =>
      match evalLisp fuel ast s with
      | (Return result, s') =>
          match printLisp result with
          | Return text => Some (fst s', echo text (snd s'))
          | Throw e => failed e s'
          | _ => None
          end
      | (Throw e, s') => failed e s'
      | _ => None
      end
  | Throw e => failed e s
  | _ => None
  end.

End Evaluation.

End Commands.

(** ** Definitions used in the statements *)

(** The values without a field [value]. *)
Definition payloadFree (v : LispVal) : bool :=
  match v with
  | mkSym _ | mkList _ | mkNull | FUNC _ _ | PRIMITIVE _ => true
  | _ => false
  end.


(** An editor state with one empty buffer, for the instances below. *)
Module Session.

Import Types.

Definition scratch : Buffer :=
  {| id := "scratch"; name := "*scratch*"; content := EmptyString;
     cursorPosition := 0%float; mode := "Lisp Interaction"; isModified := false;
     readOnly := None |}.

Definition start : EmacsState :=
  {| buffers := [scratch]; activeBufferId := "scratch"; editorMode := NORMAL;
     chordStack := EmptyString;
     minibuffer := {| type := NONE; prompt := EmptyString; input := EmptyString |};
     message := EmptyString |}.

End Session.


(** A computation keeps the chain of enclosing environments when the
    environment it ends in has the [outer] it started with. *)
Definition KeepsOuter {Host A} (m : M Host A) : Prop :=
  forall s, outer (fst (snd (m s))) = outer (fst s).


(** The names the evaluator dispatches as special forms. *)
Definition specialNames : list string :=
  ["quote"; "setq"; "if"; "defun"; "progn"; "let"; "interactive"].

(** A head that leads to the function application: anything but
    [undefined] and the symbols of the special forms. *)
Definition appliedHead (head : LispVal) : Prop :=
  match head with
  | undefined => False
  | mkSym name => name ∉ specialNames
  | _ => True
  end.

(** [Evaluates ev es s vals s']: evaluated one after the other by [ev],
    starting in state [s], the expressions [es] return the values [vals] and
    leave the state [s']. *)
Inductive Evaluates {Host : Type} (ev : LispVal -> M Host LispVal)
    : list LispVal -> LispEnv * Host -> list LispVal -> LispEnv * Host -> Prop :=
  | Evaluates_nil s : Evaluates ev [] s [] s
  | Evaluates_cons e es s val s1 vals s' :
      ev e s = (Return val, s1) ->
      Evaluates ev es s1 vals s' ->
      Evaluates ev (e :: es) s (val :: vals) s'.

(** The elements [s1 e1 s2 e2 ...] of a well-formed [setq] form. *)
Fixpoint setqElements (pairs : list (string * LispVal)) : list LispVal :=
  match pairs with
  | [] => []
  | (name, e) :: rest => mkSym name :: e :: setqElements rest
  end.

(** [Assigns ev pairs r s r' s']: every value expression is evaluated in the
    state the previous pairs left and its value is written, by [Env.set],
    into the bindings of the current environment; [r'] is the last value
    assigned ([r] when there is no pair). *)
Inductive Assigns {Host : Type} (ev : LispVal -> M Host LispVal)
    : list (string * LispVal) -> LispVal -> LispEnv * Host -> LispVal -> LispEnv * Host -> Prop :=
  | Assigns_nil r s : Assigns ev [] r s r s
  | Assigns_cons name e pairs r s val env1 h1 r' s' :
      ev e s = (Return val, (env1, h1)) ->
      Assigns ev pairs val (Env.set env1 name val, h1) r' s' ->
      Assigns ev ((name, e) :: pairs) r s r' s'.

(** A binding of [let]: [(v e)] or the bare symbol [v]. *)
Inductive Binding : Type :=
  | Bind (v : string) (e : LispVal)
  | Bare (v : string).

Definition bindingForm (b : Binding) : LispVal :=
  match b with
  | Bind v e => mkList [mkSym v; e]
  | Bare v => mkSym v
  end.

Definition bindingName (b : Binding) : string :=
  match b with
  | Bind v _ => v
  | Bare v => v
  end.

(** [Initialises ev bs s vals s']: the initial values [vals] of the bindings
    [bs], every expression evaluated by [ev] in the state the previous ones
    left, a bare symbol standing for Nil. *)
Inductive Initialises {Host : Type} (ev : LispVal -> M Host LispVal)
    : list Binding -> LispEnv * Host -> list LispVal -> LispEnv * Host -> Prop :=
  | Initialises_nil s : Initialises ev [] s [] s
  | Initialises_bind v e bs s val s1 vals s' :
      ev e s = (Return val, s1) ->
      Initialises ev bs s1 vals s' ->
      Initialises ev (Bind v e :: bs) s (val :: vals) s'
  | Initialises_bare v bs s vals s' :
      Initialises ev bs s vals s' ->
      Initialises ev (Bare v :: bs) s (mkNull :: vals) s'.

(** The bindings that pair the names with the values, a later pair
    replacing an earlier one of the same name. *)
Fixpoint bindAll (names : list string) (vals : list LispVal)
    (newVars : gmap string LispVal) : gmap string LispVal :=
  match names, vals with
  | name :: names', val :: vals' => bindAll names' vals' (<[name := val]> newVars)
  | _, _ => newVars
  end.

(** The argument a parameter at position [i] receives: the value at that
    position, Nil when there is none (or when it is [undefined]). *)
Definition argumentAt (args : list LispVal) (i : nat) : LispVal :=
  match args !! i with
  | Some undefined => mkNull
  | Some val => val
  | None => mkNull
  end.

(** The characters of [text] before position [p], the nearest first. *)
Definition before (text : string) (p : nat) : list ascii :=
  rev (take p (list_ascii_of_string text)).

(** The backward scan for the matching parenthesis as the specification
    words it: the depth starts at 1 on the closing parenthesis, a [)] raises
    it, a [(] lowers it, and the scan stops when it reaches 0. The result is
    the number of characters scanned, the matching [(] included; [None] when
    the depth never reaches 0. *)
Fixpoint matchingOpen (back : list ascii) (depth : nat) : option nat :=
  match back with
  | [] => None
  | c :: rest =>
      let depth' := if Ascii.eqb c ")" then S depth
                    else if Ascii.eqb c "(" then Nat.pred depth
                    else depth in
      if Nat.eqb depth' 0 then Some 1
      else option_map S (matchingOpen rest depth')
  end.

(** Where the reader stands in the text: between expressions, inside an
    atom, inside a string, or behind a backslash inside a string. *)
Inductive ReaderMode : Type := Between | InAtom | InString | Escaped.

(** [openAtEnd mode depth cs]: the end of the input is reached before
    the [depth] lists that are open are closed, the first expression not
    being complete. The text is followed character by character as the
    specification describes its lexical structure: white space separates,
    [(] opens a list and [)] closes one, a double quote starts a string that
    runs to the next double quote not behind a backslash, a quote mark
    precedes an expression, any other run of characters is an atom. With
    [depth] 0 the reader is before or inside the first expression; once that
    expression is complete the rest of the text does not matter. *)
Fixpoint openAtEnd (mode : ReaderMode) (depth : nat) (cs : list ascii) : bool :=
  match cs with
  | [] => negb (Nat.eqb depth 0)
  | c :: rest =>
      match mode with
      | Between =>
          if Js.isSpace c then openAtEnd Between depth rest
          else if Ascii.eqb c "(" then openAtEnd Between (S depth) rest
          else if Ascii.eqb c ")" then
            match depth with
            | S (S d) => openAtEnd Between (S d) rest
            | _ => false
            end
          else if Ascii.eqb c Js.dquote then openAtEnd InString depth rest
          else if Ascii.eqb c "'" then openAtEnd Between depth rest
          else openAtEnd InAtom depth rest
      | InAtom =>
          if Js.isSpace c then
            match depth with
            | O => false
            | S _ => openAtEnd Between depth rest
            end
          else if Ascii.eqb c "(" then
            match depth with
            | O => false
            | S _ => openAtEnd Between (S depth) rest
            end
          else if Ascii.eqb c ")" then
            match depth with
            | S (S d) => openAtEnd Between (S d) rest
            | _ => false
            end
          else openAtEnd InAtom depth rest
      | InString =>
          if Ascii.eqb c Js.dquote then
            match depth with
            | O => false
            | S _ => openAtEnd Between depth rest
            end
          else if Ascii.eqb c "\" then openAtEnd Escaped depth rest
          else openAtEnd InString depth rest
      | Escaped => openAtEnd InString depth rest
      end
  end.

(** The state of the scan once an expression is complete at depth [d]. *)
Definition afterExpr (d : nat) (cs : list ascii) : bool :=
  match d with
  | O => false
  | S _ => openAtEnd Between d cs
  end.

(** A list that the reader opens is still open at the end of the input. *)
Definition unclosedList (input : string) : bool :=
  openAtEnd Between 0 (list_ascii_of_string input).

(** What a call of the reader at position [pos], inside [d] open lists, can
    do: return at a later position [pos'] from which the scan goes on as
    after a complete expression, or throw the error of the unclosed list,
    in which case the scan finds a list open at the end of the input. A
    call returns at [pos] itself only at the end of the input or on a [)]. *)
Definition ReadsFrom (chars : list ascii) (d pos : nat) (o : Outcome (LispVal * nat)) : Prop :=
  match o with
  | Return (_, pos') =>
      pos <= pos' /\
      openAtEnd Between d (drop pos chars) = afterExpr d (drop pos' chars) /\
      (pos' = pos -> match chars !! pos with
                     | Some c => c = ")"%char
                     | None => True
                     end)
  | Throw e => e = Error "Unclosed list" /\ openAtEnd Between d (drop pos chars) = true
  | _ => False
  end.

(** The same for the loop of [parseList], entered behind the [(]. *)
Definition ReadsList (chars : list ascii) (d pos : nat) (o : Outcome (LispVal * nat)) : Prop :=
  match o with
  | Return (_, pos') =>
      pos < pos' /\
      openAtEnd Between (S d) (drop pos chars) = afterExpr d (drop pos' chars)
  | Throw e => e = Error "Unclosed list" /\ openAtEnd Between (S d) (drop pos chars) = true
  | _ => False
  end.

(** The values of the round trip: built from Number, String, Bool, Nil and
    List. *)
Inductive Literal : LispVal -> Prop :=
  | Literal_num n : Literal (mkNum n)
  | Literal_str s : Literal (mkStr s)
  | Literal_bool b : Literal (mkBool b)
  | Literal_null : Literal mkNull
  | Literal_list vs : Forall Literal vs -> Literal (mkList vs).

(** [evalLisp(parse(printLisp(v)), env)], the value only. *)
Definition readBack {Host : Type} {api : EmacsAPI.t Host} (fuel : nat) (v : LispVal)
    (s : LispEnv * Host) : Outcome LispVal :=
  bindO (printLisp v) (fun text =>
    bindO (parse text) (fun expr => fst (evalLisp fuel expr s))).

(** A number whose printed text is a decimal numeral of the reader that
    denotes the number again. *)
Definition plainNumber (n : float) : Prop :=
  Js.isNumericToken (Js.numberToString n) = true /\
  Js.parseFloat (Js.numberToString n) = n.

(** A string without double quote and without backslash. *)
Definition plainString (s : string) : Prop :=
  Forall (fun c => Ascii.eqb c Js.dquote = false /\ Ascii.eqb c "\" = false)
         (list_ascii_of_string s).

(** The values the reader gives back from their printed text: Nil,
    Bool(true), plain numbers, plain strings, and the lists of such. *)
Inductive Readable : LispVal -> Prop :=
  | Readable_null : Readable mkNull
  | Readable_true : Readable (mkBool true)
  | Readable_num n : plainNumber n -> Readable (mkNum n)
  | Readable_str s : plainString s -> Readable (mkStr s)
  | Readable_list vs : Forall Readable vs -> Readable (mkList vs).

(** The value of an atom with the text [token], as [parseAtom] decides it. *)
Definition atomValue (token : string) : LispVal :=
  if String.eqb token "t" then mkBool true
  else if String.eqb token "nil" then mkNull
  else if Js.isNumericToken token then mkNum (Js.parseFloat token)
  else mkSym token.

(** The characters of a decimal numeral. *)
Definition numeralChar (c : ascii) : bool :=
  Js.isDigit c || Ascii.eqb c "-" || Ascii.eqb c ".".

(** A text ends where the input ends or a delimiter follows. *)
Definition delimited (post : list ascii) : Prop :=
  match post with
  | [] => True
  | c :: _ => isAtomChar c = false
  end.

(** A text that starts an expression: its first character is neither white
    space nor a closing parenthesis. *)
Definition startsExpr (t : string) : Prop :=
  exists c rest, list_ascii_of_string t = c :: rest /\
                 Js.isSpace c = false /\ Ascii.eqb c ")" = false.

(** [ReadsBack v]: wherever the printed text of [v] stands in an input,
    followed by a delimiter, [parseExpr] returns [v] and stops behind it. *)
Definition ReadsBack (v : LispVal) : Prop :=
  forall t, printLisp v = Return t ->
    startsExpr t /\
    forall input pos post fuel,
      drop pos (list_ascii_of_string input) = (list_ascii_of_string t ++ post)%list ->
      delimited post ->
      length (list_ascii_of_string input) + 1 - pos <= fuel ->
      parseExpr input fuel pos = Return (v, pos + length (list_ascii_of_string t)).

(** [MoreFuel m m']: wherever [m] ends other than by running out of fuel,
    [m'] ends the same way in the same state. *)
Definition MoreFuel {Host A} (m m' : M Host A) : Prop :=
  forall s, fst (m s) <> OutOfFuel -> m' s = m s.

(** The values the reader builds: symbols, numbers, strings, Bool(true),
    Nil and lists of such. *)
Inductive Syntax : LispVal -> Prop :=
  | Syntax_sym name : Syntax (mkSym name)
  | Syntax_num n : Syntax (mkNum n)
  | Syntax_str s : Syntax (mkStr s)
  | Syntax_true : Syntax (mkBool true)
  | Syntax_null : Syntax mkNull
  | Syntax_list vs : Forall Syntax vs -> Syntax (mkList vs).

(** A value that is [undefined] or a list that holds, at any depth, an
    [undefined] element. *)
Fixpoint hasUndefined (v : LispVal) : bool :=
  match v with
  | undefined => true
  | mkList elements => existsb hasUndefined elements
  | _ => false
  end.

(** White space only. *)
Definition blank (s : string) : Prop :=
  Forall (fun c => Js.isSpace c = true) (list_ascii_of_string s).

(** The characters [tokenize] sets apart: the parentheses and the quote
    mark. *)
Definition isPunctuation (c : ascii) : bool :=
  Ascii.eqb c "(" || Ascii.eqb c ")" || Ascii.eqb c "'".

(** A text without white space and without punctuation. *)
Definition plainWord (t : string) : Prop :=
  Forall (fun c => Js.isSpace c = false /\ isPunctuation c = false)
         (list_ascii_of_string t).

(** A token: one punctuation character, or a non-empty text without white
    space and without punctuation. *)
Definition Token (t : string) : Prop :=
  (exists c, isPunctuation c = true /\ t = String c EmptyString) \/
  (t <> EmptyString /\ plainWord t).

(** The input as [tokenize] pads it before it splits it. *)
Definition padded (input : string) : string :=
  replaceAll "'" " ' " (replaceAll ")" " ) " (replaceAll "(" " ( " input)).

(** The names [createGlobalEnv] registers. *)
Definition builtinNames : list string :=
  ["+"; "-"; "*"; "/"; "="; "<"; ">"; "list"; "cons"; "car"; "cdr"; "message"; "insert";
   "buffer-name"; "current-buffer"; "switch-to-buffer"; "kill-buffer";
   "point"; "point-min"; "point-max"; "goto-char"].

(** A value that is defined and is neither a function nor a builtin. *)
Definition notCallable (fn : LispVal) : Prop :=
  match fn with
  | FUNC _ _ | PRIMITIVE _ | undefined => False
  | _ => True
  end.

(** The builtins that read a field of [args[0]], and those that read a
    field of [args[1]], without checking that the argument is there. *)
Definition readsFirst (fn : Primitive) : bool :=
  match fn with
  | prim_sub | prim_div | prim_eq | prim_lt | prim_gt | prim_car | prim_cdr
  | prim_switch_to_buffer | prim_kill_buffer | prim_goto_char => true
  | _ => false
  end.

Definition readsSecond (fn : Primitive) : bool :=
  match fn with
  | prim_div | prim_eq | prim_lt | prim_gt | prim_cons => true
  | _ => false
  end.

(** An outcome other than a return. *)
Definition failed {A} (o : Outcome A) : Prop :=
  match o with
  | Return _ => False
  | _ => True
  end.

(** [Maintains I B m]: run in an editor state that satisfies [I], the
    computation [m] ends in an editor state that satisfies [I], or it does
    not return and ends in one that satisfies [B]. *)
Definition Maintains {Host A} (I B : Host -> Prop) (m : M Host A) : Prop :=
  forall s, I (snd s) ->
    I (snd (snd (m s))) \/ (failed (fst (m s)) /\ B (snd (snd (m s)))).

(** Every method of the API keeps [I]; [killBuffer], which can throw, may
    instead not return and leave [B]. *)
Record Respects {Host : Type} (api : EmacsAPI.t Host) (I B : Host -> Prop) : Prop := {
  respects_message : forall msg h, I h -> I (EmacsAPI.message msg h);
  respects_insert : forall text h, I h -> I (EmacsAPI.insert text h);
  respects_setCursor : forall pos h, I h -> I (EmacsAPI.setCursor pos h);
  respects_switchBuffer : forall name h, I h -> I (EmacsAPI.switchBuffer name h);
  respects_killBuffer : forall name h, I h ->
    I (snd (EmacsAPI.killBuffer name h)) \/
    (failed (fst (EmacsAPI.killBuffer name h)) /\ B (snd (EmacsAPI.killBuffer name h)))
}.

(** The active buffer is one of the buffers. *)
Definition hasActive (s : Types.EmacsState) : Prop :=
  exists b, b ∈ Types.buffers s /\ Types.id b = Types.activeBufferId s.

(** No two buffers have the same name; no two buffers have the same id. *)
Definition distinctNames (s : Types.EmacsState) : Prop :=
  NoDup (Types.name <$> Types.buffers s).

Definition distinctIds (s : Types.EmacsState) : Prop :=
  NoDup (Types.id <$> Types.buffers s).


(** * Properties *)

(** ** Strings as lists of characters *)

Local Open Scope list_scope.

Lemma string_get_lookup (s : string) (n : nat) :
  String.get n s = list_ascii_of_string s !! n.
Proof.
  revert n. induction s as [|c s IH]; intros n; [destruct n; reflexivity|].
  destruct n as [|n]; simpl; [reflexivity|apply IH].
Qed.

Lemma string_length_chars (s : string) : String.length s = length (list_ascii_of_string s).
Proof. induction s as [|c s IH]; simpl; congruence. Qed.

Lemma chars_append (a b : string) :
  list_ascii_of_string (a +:+ b) = list_ascii_of_string a ++ list_ascii_of_string b.
Proof. induction a as [|c a IH]; simpl; [reflexivity|]. rewrite IH. reflexivity. Qed.

Lemma chars_substring (n m : nat) (s : string) :
  list_ascii_of_string (substring n m s) = take m (drop n (list_ascii_of_string s)).
Proof.
  revert n m. induction s as [|c s IH]; intros n m.
  - destruct n, m; reflexivity.
  - destruct n as [|n]; simpl.
    + destruct m as [|m]; simpl; [reflexivity|]. rewrite (IH 0 m). reflexivity.
    + apply IH.
Qed.

Lemma chars_inj (a b : string) : list_ascii_of_string a = list_ascii_of_string b -> a = b.
Proof.
  intros E. rewrite <- (string_of_list_ascii_of_string a), <- (string_of_list_ascii_of_string b).
  rewrite E. reflexivity.
Qed.


(** ** Truthiness and [if] *)

Section Truthiness.

Context {Host : Type} {api : EmacsAPI.t Host}.

Lemma isTrue_false_iff (v : LispVal) :
  isTrue v = Return false <-> v = mkNull \/ v = mkBool false.
Proof.
  split.
  - destruct v as [| | | | | | [|] | |]; simpl; intros E; try discriminate E; auto.
  - intros [-> | ->]; reflexivity.
Qed.

Lemma isTrue_other (v : LispVal) :
  v <> undefined -> v <> mkNull -> v <> mkBool false -> isTrue v = Return true.
Proof.
  destruct v as [| | | | | | [|] | |]; simpl; intros U N B; congruence.
Qed.

(** What [if] does once its condition has a value [v]: the then-branch when
    [v] is true, otherwise the else-branch when the form has one. *)
Lemma evalIf_cond (n : nat) (c : LispVal) (rest : list LispVal) (v : LispVal)
    (s s' : LispEnv * Host) (truth : bool) :
  evalLisp n c s = (Return v, s') ->
  isTrue v = Return truth ->
  evalLisp (S n) (mkList (mkSym "if" :: c :: rest)) s =
    if truth then evalLisp n (index rest 0) s'
    else match rest with
         | _ :: e :: _ => evalLisp n e s'
         | _ => (Return mkNull, s')
         end.
Proof.
  intros Hc Ht. simpl. unfold evalIf, bind, lift, index. simpl. rewrite Hc, Ht.
  destruct truth.
  - destruct rest; reflexivity.
  - destruct rest as [|t [|e rest]]; reflexivity.
Qed.

(** C7: [if] treats a value as false exactly when it is Nil or Bool(false);
    every other value, Number(0) and the empty List included, is true; so
    [(if nil 1 2)] evaluates to 2 and [(if 0 1 2)] to 1, and an [if] whose
    condition is false and which has no else-branch returns Nil. *)
Theorem C7_truthiness_of_if :
  (forall v, isTrue v = Return false <-> v = mkNull \/ v = mkBool false) /\
  (forall v, v <> undefined -> v <> mkNull -> v <> mkBool false -> isTrue v = Return true) /\
  isTrue (mkNum 0) = Return true /\
  isTrue (mkList []) = Return true /\
  (forall n c t e rest v (s s' : LispEnv * Host),
     evalLisp n c s = (Return v, s') ->
     (isTrue v = Return true ->
      evalLisp (S n) (mkList (mkSym "if" :: c :: t :: rest)) s = evalLisp n t s') /\
     (isTrue v = Return false ->
      evalLisp (S n) (mkList (mkSym "if" :: c :: t :: e :: rest)) s = evalLisp n e s' /\
      evalLisp (S n) (mkList [mkSym "if"; c; t]) s = (Return mkNull, s'))) /\
  parse "(if nil 1 2)" = Return (mkList [mkSym "if"; mkNull; mkNum 1; mkNum 2]) /\
  parse "(if 0 1 2)" = Return (mkList [mkSym "if"; mkNum 0; mkNum 1; mkNum 2]) /\
  (forall fuel (s : LispEnv * Host),
     evalLisp (S (S fuel)) (mkList [mkSym "if"; mkNull; mkNum 1; mkNum 2]) s
       = (Return (mkNum 2), s) /\
     evalLisp (S (S fuel)) (mkList [mkSym "if"; mkNum 0; mkNum 1; mkNum 2]) s
       = (Return (mkNum 1), s)).
Proof.
  split; [exact isTrue_false_iff|].
  split; [exact isTrue_other|].
  split; [reflexivity|]. split; [reflexivity|].
  split.
  { intros n c t e rest v s s' Hc. split.
    - intros Ht. rewrite (evalIf_cond n c (t :: rest) v s s' true Hc Ht). reflexivity.
    - intros Hf. split.
      + rewrite (evalIf_cond n c (t :: e :: rest) v s s' false Hc Hf). reflexivity.
      + rewrite (evalIf_cond n c [t] v s s' false Hc Hf). reflexivity. }
  split; [vm_compute; reflexivity|]. split; [vm_compute; reflexivity|].
  intros fuel s. split; reflexivity.
Qed.

End Truthiness.

(** ** The primitives [=], [car] and [cdr] *)

Section ListPrimitives.

Context {Host : Type} {api : EmacsAPI.t Host}.

Lemma valueOf_payloadFree (v : LispVal) :
  payloadFree v = true -> valueOf v = Return Js.Undefined.
Proof. destruct v; simpl; intros E; try discriminate E; reflexivity. Qed.

(** [=] compares the payloads of its first two arguments and nothing else. *)
Lemma prim_eq_payloads (a b : LispVal) (rest : list LispVal) (va vb : Js.Value)
    (s : LispEnv * Host) :
  valueOf a = Return va -> valueOf b = Return vb ->
  applyPrimitive prim_eq (a :: b :: rest) s = (Return (mkBool (Js.strictEquals va vb)), s).
Proof.
  intros Ha Hb. unfold applyPrimitive, bind, lift, index. simpl. rewrite Ha, Hb. reflexivity.
Qed.

(** C10: [=] compares only the [value] payloads of its first two arguments
    with strict equality, so on two arguments without payload (Symbols,
    Lists whatever their elements, Nils, in any mixture) it returns
    Bool(true); [(= (quote (1 2)) (quote (3 4 5)))] evaluates to [t]. *)
Theorem C10_eq_on_payload_free_values :
  (forall a b rest va vb (s : LispEnv * Host),
     valueOf a = Return va -> valueOf b = Return vb ->
     applyPrimitive prim_eq (a :: b :: rest) s
       = (Return (mkBool (Js.strictEquals va vb)), s)) /\
  (forall a b rest (s : LispEnv * Host),
     payloadFree a = true -> payloadFree b = true ->
     applyPrimitive prim_eq (a :: b :: rest) s = (Return (mkBool true), s)) /\
  (forall x y xs ys (s : LispEnv * Host),
     applyPrimitive prim_eq [mkSym x; mkSym y] s = (Return (mkBool true), s) /\
     applyPrimitive prim_eq [mkList xs; mkList ys] s = (Return (mkBool true), s) /\
     applyPrimitive prim_eq [mkNull; mkNull] s = (Return (mkBool true), s) /\
     applyPrimitive prim_eq [mkSym x; mkList ys] s = (Return (mkBool true), s) /\
     applyPrimitive prim_eq [mkList xs; mkNull] s = (Return (mkBool true), s) /\
     applyPrimitive prim_eq [mkNull; mkSym y] s = (Return (mkBool true), s)) /\
  parse "(= (quote (1 2)) (quote (3 4 5)))"
    = Return (mkList [mkSym "=";
                      mkList [mkSym "quote"; mkList [mkNum 1; mkNum 2]];
                      mkList [mkSym "quote"; mkList [mkNum 3; mkNum 4; mkNum 5]]]) /\
  (forall fuel (h : Host),
     evalLisp (S (S fuel))
       (mkList [mkSym "=";
                mkList [mkSym "quote"; mkList [mkNum 1; mkNum 2]];
                mkList [mkSym "quote"; mkList [mkNum 3; mkNum 4; mkNum 5]]])
       (createGlobalEnv, h)
     = (Return (mkBool true), (createGlobalEnv, h))) /\
  printLisp (mkBool true) = Return "t".
Proof.
  split; [exact prim_eq_payloads|].
  split.
  { intros a b rest s Ha Hb.
    rewrite (prim_eq_payloads a b rest _ _ s (valueOf_payloadFree a Ha) (valueOf_payloadFree b Hb)).
    reflexivity. }
  split; [intros; repeat split; reflexivity|].
  split; [vm_compute; reflexivity|].
  split; [|reflexivity].
  intros fuel h. vm_compute. reflexivity.
Qed.

(** [car] and [cdr] on an argument that is not a List, and on a List with
    a first element. *)
Lemma car_cdr_defined (a : LispVal) (rest : list LispVal) (s : LispEnv * Host) :
  (a <> undefined -> elementsOf a = None ->
   applyPrimitive prim_car (a :: rest) s = (Return mkNull, s) /\
   applyPrimitive prim_cdr (a :: rest) s = (Return mkNull, s)) /\
  (forall x xs,
   applyPrimitive prim_car (mkList (x :: xs) :: rest) s = (Return x, s) /\
   applyPrimitive prim_cdr (mkList (x :: xs) :: rest) s = (Return (mkList xs), s)).
Proof.
  split.
  - intros Hu He. destruct a; try discriminate He; try congruence; split; reflexivity.
  - intros x xs. split; reflexivity.
Qed.

(** C1: on the empty List, [car] returns [undefined], the element the array
    does not have, and [cdr] returns the empty List; neither returns Nil.
    The empty array is truthy, so the test [args[0].elements ? ... : mkNull()]
    sends the empty List down the branch of the non-empty ones. Printing the
    result of [(car (list))] then throws. *)
Theorem C1_car_cdr_of_empty_list :
  (forall rest (s : LispEnv * Host),
     applyPrimitive prim_car (mkList [] :: rest) s = (Return undefined, s) /\
     applyPrimitive prim_cdr (mkList [] :: rest) s = (Return (mkList []), s)) /\
  parse "(car (list))" = Return (mkList [mkSym "car"; mkList [mkSym "list"]]) /\
  parse "(cdr (list))" = Return (mkList [mkSym "cdr"; mkList [mkSym "list"]]) /\
  (forall fuel (h : Host),
     evalLisp (S (S (S fuel))) (mkList [mkSym "car"; mkList [mkSym "list"]]) (createGlobalEnv, h)
       = (Return undefined, (createGlobalEnv, h)) /\
     evalLisp (S (S (S fuel))) (mkList [mkSym "cdr"; mkList [mkSym "list"]]) (createGlobalEnv, h)
       = (Return (mkList []), (createGlobalEnv, h))) /\
  printLisp undefined = Throw TypeError /\
  printLisp (mkList []) = Return "()".
Proof.
  split; [intros rest s; split; reflexivity|].
  split; [vm_compute; reflexivity|]. split; [vm_compute; reflexivity|].
  split; [|split; reflexivity].
  intros fuel h. split; vm_compute; reflexivity.
Qed.

End ListPrimitives.


(** ** Insertion at the cursor, chained by [progn] *)

Section Insertion.

Import Types.

Lemma findIndex_found (p : Buffer -> bool) (bs : list Buffer) (k j : nat) (b : Buffer) :
  App.findIndex p bs k = Some (j, b) ->
  exists i, j = k + i /\ bs !! i = Some b /\ p b = true.
Proof.
  revert k. induction bs as [|a bs IH]; intros k E; simpl in E; [discriminate|].
  destruct (p a) eqn:Pa.
  - injection E as <- <-. exists 0. rewrite Nat.add_0_r. auto.
  - destruct (IH _ E) as (i & -> & Hi & Hp). exists (S i). split; [lia|auto].
Qed.

(** Replacing the buffer found by one that also satisfies [p] leaves the
    search at the same index. *)
Lemma findIndex_replace (p : Buffer -> bool) (bs : list Buffer) (k i : nat) (b b' : Buffer) :
  App.findIndex p bs k = Some (k + i, b) -> p b' = true ->
  App.findIndex p (<[i := b']> bs) k = Some (k + i, b').
Proof.
  revert k i. induction bs as [|a bs IH]; intros k i E Pb; simpl in E; [discriminate|].
  destruct (p a) eqn:Pa.
  - injection E as Ek <-. assert (i = 0) by lia. subst i. simpl. rewrite Pb.
    rewrite Nat.add_0_r. reflexivity.
  - destruct i as [|i].
    + destruct (findIndex_found _ _ _ _ _ E) as (i' & Hi' & _). lia.
    + simpl. rewrite Pa. replace (k + S i) with (S k + i) in * by lia.
      apply IH; assumption.
Qed.

(** What [api.insert] does to the active buffer: the text goes in at the
    cursor, the cursor moves on by the length of the text, the buffer is
    marked modified and stays the active one. *)
Lemma insert_at_cursor (text : string) (s : EmacsState) (i : nat) (buf : Buffer) :
  App.activeBuffer s = Some (i, buf) ->
  exists buf',
    App.activeBuffer (App.insert text s) = Some (i, buf') /\
    content buf' = Js.slice (content buf) 0 (cursorPosition buf) +:+ text
                   +:+ Js.sliceFrom (content buf) (cursorPosition buf) /\
    cursorPosition buf'
      = (cursorPosition buf + Js.floatOfZ (Z.of_nat (String.length text)))%float /\
    isModified buf' = true.
Proof.
  intros Ha. unfold App.insert. rewrite Ha. eexists. split; [|split; [|split]].
  - unfold App.activeBuffer in *. simpl.
    destruct (findIndex_found _ _ _ _ _ Ha) as (j & -> & Hj & Hp).
    apply (findIndex_replace _ _ 0 j buf); [exact Ha|]. simpl. exact Hp.
  - reflexivity.
  - reflexivity.
  - reflexivity.
Qed.

(** A call [(insert "text")] is one call of [api.insert]. *)
Lemma eval_insert_string (fuel : nat) (env : LispEnv) (h : EmacsState) (text : string) :
  Env.get env "insert" = Return (PRIMITIVE prim_insert) ->
  evalLisp (S (S fuel)) (mkList [mkSym "insert"; mkStr text]) (env, h)
    = (Return mkNull, (env, App.insert text h)).
Proof.
  intros Hg. simpl. unfold applyFunction, bind, envGet. simpl. rewrite Hg. simpl.
  unfold bind, lift, hostDo, ret. simpl. destruct text; reflexivity.
Qed.

(** C3: evaluating [(progn (insert "A") (insert "B") (insert "C"))] against
    a host whose active buffer is empty with the cursor at 0 leaves the
    content "ABC" and the cursor at 3: each insert writes at the cursor the
    previous one left and moves it on by the length of its text. *)
Theorem C3_progn_chains_inserts :
  parse (Js.lit "(progn (insert `A`) (insert `B`) (insert `C`))")
    = Return (mkList [mkSym "progn"; mkList [mkSym "insert"; mkStr "A"];
                      mkList [mkSym "insert"; mkStr "B"];
                      mkList [mkSym "insert"; mkStr "C"]]) /\
  (forall text (s : EmacsState) i buf,
     App.activeBuffer s = Some (i, buf) ->
     exists buf',
       App.activeBuffer (EmacsAPI.insert text s) = Some (i, buf') /\
       content buf' = Js.slice (content buf) 0 (cursorPosition buf) +:+ text
                      +:+ Js.sliceFrom (content buf) (cursorPosition buf) /\
       cursorPosition buf'
         = (cursorPosition buf + Js.floatOfZ (Z.of_nat (String.length text)))%float) /\
  (forall fuel env (h : EmacsState) i buf,
     Env.get env "insert" = Return (PRIMITIVE prim_insert) ->
     App.activeBuffer h = Some (i, buf) ->
     content buf = EmptyString ->
     cursorPosition buf = 0%float ->
     exists h' a b c,
       evalLisp (S (S (S fuel)))
         (mkList [mkSym "progn"; mkList [mkSym "insert"; mkStr "A"];
                  mkList [mkSym "insert"; mkStr "B"];
                  mkList [mkSym "insert"; mkStr "C"]]) (env, h)
       = (Return mkNull, (env, h')) /\
       h' = EmacsAPI.insert "C" (EmacsAPI.insert "B" (EmacsAPI.insert "A" h)) /\
       App.activeBuffer (EmacsAPI.insert "A" h) = Some (i, a) /\
       content a = "A" /\ cursorPosition a = 1%float /\
       App.activeBuffer (EmacsAPI.insert "B" (EmacsAPI.insert "A" h)) = Some (i, b) /\
       content b = "AB" /\ cursorPosition b = 2%float /\
       App.activeBuffer h' = Some (i, c) /\
       content c = "ABC" /\ cursorPosition c = 3%float).
Proof.
  split; [vm_compute; reflexivity|].
  split.
  { intros text s i buf Ha. destruct (insert_at_cursor text s i buf Ha) as (b' & H1 & H2 & H3 & _).
    exists b'. auto. }
  intros fuel env h i buf Hg Ha Hc Hp.
  destruct (insert_at_cursor "A" h i buf Ha) as (a & Aa & Ca & Pa & _).
  destruct (insert_at_cursor "B" _ i a Aa) as (b & Ab & Cb & Pb & _).
  destruct (insert_at_cursor "C" _ i b Ab) as (c & Ac & Cc & Pc & _).
  assert (Ca' : content a = "A") by (rewrite Ca, Hc, Hp; vm_compute; reflexivity).
  assert (Pa' : cursorPosition a = 1%float) by (rewrite Pa, Hp; vm_compute; reflexivity).
  assert (Cb' : content b = "AB") by (rewrite Cb, Ca', Pa'; vm_compute; reflexivity).
  assert (Pb' : cursorPosition b = 2%float) by (rewrite Pb, Pa'; vm_compute; reflexivity).
  assert (Cc' : content c = "ABC") by (rewrite Cc, Cb', Pb'; vm_compute; reflexivity).
  assert (Pc' : cursorPosition c = 3%float) by (rewrite Pc, Pb'; vm_compute; reflexivity).
  exists (App.insert "C" (App.insert "B" (App.insert "A" h))), a, b, c.
  split.
  { change (evalLisp (S (S (S fuel))) ?e ?s)
      with (evalSequence (evalLisp (S (S fuel)))
              [mkList [mkSym "insert"; mkStr "A"]; mkList [mkSym "insert"; mkStr "B"];
               mkList [mkSym "insert"; mkStr "C"]] mkNull s).
    unfold evalSequence, bind.
    rewrite (eval_insert_string fuel env h "A" Hg).
    rewrite (eval_insert_string fuel env _ "B" Hg).
    rewrite (eval_insert_string fuel env _ "C" Hg). reflexivity. }
  repeat split; assumption.
Qed.

End Insertion.


(** ** The enclosing environments are never written *)

Section Frame.

Context {Host : Type} {api : EmacsAPI.t Host}.

Lemma keeps_ret {A} (a : A) : KeepsOuter (Host := Host) (ret a).
Proof. intros s. reflexivity. Qed.

Lemma keeps_throw {A} (e : Exn) : KeepsOuter (Host := Host) (throw (A := A) e).
Proof. intros s. reflexivity. Qed.

Lemma keeps_unmodelled {A} : KeepsOuter (Host := Host) (unmodelled (A := A)).
Proof. intros s. reflexivity. Qed.

Lemma keeps_lift {A} (o : Outcome A) : KeepsOuter (Host := Host) (lift o).
Proof. intros s. reflexivity. Qed.

Lemma keeps_hostDo (f : Host -> Host) : KeepsOuter (hostDo f).
Proof. intros s. reflexivity. Qed.

Lemma keeps_hostRead {A} (f : Host -> A) : KeepsOuter (hostRead f).
Proof. intros s. reflexivity. Qed.

Lemma keeps_envGet (name : string) : KeepsOuter (Host := Host) (envGet name).
Proof. intros s. reflexivity. Qed.

Lemma keeps_envSet (name : string) (val : LispVal) : KeepsOuter (Host := Host) (envSet name val).
Proof. intros s. reflexivity. Qed.

Lemma keeps_envDefine (name : string) (val : LispVal) : KeepsOuter (Host := Host) (envDefine name val).
Proof. intros s. reflexivity. Qed.

Lemma keeps_bind {A B} (m : M Host A) (k : A -> M Host B) :
  KeepsOuter m -> (forall a, KeepsOuter (k a)) -> KeepsOuter (bind m k).
Proof.
  intros Hm Hk s. unfold bind. specialize (Hm s).
  destruct (m s) as [[a | e | | ] s']; simpl in *; try exact Hm.
  rewrite (Hk a s'). exact Hm.
Qed.

(** A child environment is left through its [outer]: the enclosing
    environment comes back as it was. *)
Lemma inChild_restores {A} (newVars : gmap string LispVal) (m : M Host A) (s : LispEnv * Host) :
  KeepsOuter m ->
  inChild newVars m s =
    (fst (m (newLispEnv newVars (Some (fst s)), snd s)),
     (fst s, snd (snd (m (newLispEnv newVars (Some (fst s)), snd s))))).
Proof.
  intros Hm. unfold inChild. specialize (Hm (newLispEnv newVars (Some (fst s)), snd s)).
  destruct (m _) as [r [child h]]. simpl in *. rewrite Hm. reflexivity.
Qed.

Lemma keeps_inChild {A} (newVars : gmap string LispVal) (m : M Host A) :
  KeepsOuter m -> KeepsOuter (inChild newVars m).
Proof. intros Hm s. rewrite (inChild_restores _ _ _ Hm). reflexivity. Qed.

Create HintDb keeps.

Local Hint Resolve keeps_ret keeps_throw keeps_unmodelled keeps_lift keeps_hostDo
  keeps_hostRead keeps_envGet keeps_envSet keeps_envDefine keeps_inChild : keeps.

Ltac keeps :=
  repeat first
    [ progress auto with keeps
    | apply keeps_bind; [|intros ?]
    | match goal with
      | |- KeepsOuter (match ?x with _ => _ end) => destruct x
      | |- KeepsOuter (if ?x then _ else _) => destruct x
      end ].

Lemma keeps_applyPrimitive (fn : Primitive) (args : list LispVal) :
  KeepsOuter (applyPrimitive fn args).
Proof.
  destruct fn; unfold applyPrimitive; keeps.
  intros st. simpl. destruct (EmacsAPI.killBuffer _ _). reflexivity.
Qed.

Section Forms.

Variable ev : LispVal -> M Host LispVal.
Hypothesis keeps_ev : forall e, KeepsOuter (ev e).

Lemma keeps_evalSetq (rest : list LispVal) (result : LispVal) :
  KeepsOuter (evalSetq ev rest result).
Proof.
  revert result. induction rest as [rest IH] using (induction_ltof1 _ (@List.length _)).
  unfold ltof in IH. intros result.
  destruct rest as [|sym [|e rest]]; simpl; [keeps| |].
  - destruct sym; keeps.
  - destruct sym; keeps. apply IH. simpl. lia.
Qed.

Lemma keeps_evalSequence (es : list LispVal) (result : LispVal) :
  KeepsOuter (evalSequence ev es result).
Proof. revert result. induction es as [|e es IH]; intros result; simpl; keeps. Qed.

Lemma keeps_evalArgs (es : list LispVal) : KeepsOuter (evalArgs ev es).
Proof. induction es as [|e es IH]; simpl; keeps. Qed.

Lemma keeps_evalBindings (bindings : list LispVal) (newVars : gmap string LispVal) :
  KeepsOuter (evalBindings ev bindings newVars).
Proof.
  revert newVars. induction bindings as [|b bs IH]; intros newVars; simpl; [keeps|].
  destruct b; keeps.
Qed.

Local Hint Resolve keeps_evalSetq keeps_evalSequence keeps_evalArgs keeps_evalBindings
  keeps_applyPrimitive : keeps.

Lemma keeps_evalLispBody (expr : LispVal) : KeepsOuter (evalLispBody ev expr).
Proof.
  destruct expr as [name | | | elements | | | | |]; simpl; try (keeps; fail).
  destruct elements as [|head rest]; [keeps|].
  assert (Happ : KeepsOuter (applyFunction ev head (head :: rest))).
  { unfold applyFunction. keeps. }
  destruct head as [name | | | | | | | |]; try exact Happ; [|keeps].
  unfold specialForm.
  repeat match goal with
         | |- KeepsOuter (match (if ?c then _ else _) with _ => _ end) => destruct c
         end; try exact Happ; unfold evalIf, evalDefun, evalLet; keeps.
Qed.

End Forms.

(** Whatever is evaluated, and however it ends, the environment it ran in
    keeps its [outer]; only its own bindings can have changed. *)
Lemma evalLisp_keeps_outer (fuel : nat) (expr : LispVal) : KeepsOuter (evalLisp fuel expr).
Proof.
  revert expr. induction fuel as [|n IH]; intros expr.
  - intros s. reflexivity.
  - simpl. apply keeps_evalLispBody. exact IH.
Qed.

End Frame.

(** ** Enough fuel is enough *)

Section Fuel.

Context {Host : Type} {api : EmacsAPI.t Host}.

Lemma more_refl {A} (m : M Host A) : MoreFuel m m.
Proof. intros s _. reflexivity. Qed.

Lemma more_bind {A B} (m m' : M Host A) (k k' : A -> M Host B) :
  MoreFuel m m' -> (forall a, MoreFuel (k a) (k' a)) -> MoreFuel (bind m k) (bind m' k').
Proof.
  intros Hm Hk s Hs. unfold bind in *. specialize (Hm s).
  destruct (m s) as [[a | e | | ] s1] eqn:Ms; simpl in *.
  - rewrite Hm by discriminate. apply Hk. exact Hs.
  - rewrite Hm by discriminate. reflexivity.
  - rewrite Hm by discriminate. reflexivity.
  - congruence.
Qed.

Lemma more_inChild {A} (newVars : gmap string LispVal) (m m' : M Host A) :
  MoreFuel m m' -> MoreFuel (inChild newVars m) (inChild newVars m').
Proof.
  intros Hm s Hs. unfold inChild in *.
  specialize (Hm (newLispEnv newVars (Some (fst s)), snd s)).
  destruct (m _) as [r [child h]]. simpl in *. rewrite Hm by exact Hs. reflexivity.
Qed.

Create HintDb more.

Local Hint Resolve more_refl more_inChild : more.

Ltac more :=
  repeat first
    [ progress auto with more
    | apply more_bind; [|intros ?]
    | match goal with
      | |- MoreFuel (match ?x with _ => _ end) (match ?x with _ => _ end) => destruct x
      | |- MoreFuel (if ?x then _ else _) (if ?x then _ else _) => destruct x
      end ].

Section Forms.

Variables ev ev' : LispVal -> M Host LispVal.
Hypothesis more_ev : forall e, MoreFuel (ev e) (ev' e).

Lemma more_evalSetq (rest : list LispVal) (result : LispVal) :
  MoreFuel (evalSetq ev rest result) (evalSetq ev' rest result).
Proof.
  revert result. induction rest as [rest IH] using (induction_ltof1 _ (@List.length _)).
  unfold ltof in IH. intros result.
  destruct rest as [|sym [|e rest]]; simpl; [more| |].
  - destruct sym; more.
  - destruct sym; more. apply IH. simpl. lia.
Qed.

Lemma more_evalSequence (es : list LispVal) (result : LispVal) :
  MoreFuel (evalSequence ev es result) (evalSequence ev' es result).
Proof. revert result. induction es as [|e es IH]; intros result; simpl; more. Qed.

Lemma more_evalArgs (es : list LispVal) : MoreFuel (evalArgs ev es) (evalArgs ev' es).
Proof. induction es as [|e es IH]; simpl; more. Qed.

Lemma more_evalBindings (bindings : list LispVal) (newVars : gmap string LispVal) :
  MoreFuel (evalBindings ev bindings newVars) (evalBindings ev' bindings newVars).
Proof.
  revert newVars. induction bindings as [|b bs IH]; intros newVars; simpl; [more|].
  destruct b; more.
Qed.

Local Hint Resolve more_evalSetq more_evalSequence more_evalArgs more_evalBindings : more.

Lemma more_evalLispBody (expr : LispVal) :
  MoreFuel (evalLispBody ev expr) (evalLispBody ev' expr).
Proof.
  destruct expr as [name | | | elements | | | | |]; simpl; try (more; fail).
  destruct elements as [|head rest]; [more|].
  assert (Happ : MoreFuel (applyFunction ev head (head :: rest))
                          (applyFunction ev' head (head :: rest))).
  { unfold applyFunction. more. }
  destruct head as [name | | | | | | | |]; try exact Happ; [|more].
  unfold specialForm.
  repeat match goal with
         | |- MoreFuel (match (if ?c then _ else _) with _ => _ end) _ => destruct c
         end; try exact Happ; unfold evalIf, evalDefun, evalLet; more.
Qed.

End Forms.

Lemma evalLisp_one_more (n : nat) (expr : LispVal) :
  MoreFuel (evalLisp n expr) (evalLisp (S n) expr).
Proof.
  revert expr. induction n as [|n IH]; intros expr.
  - intros s Hs. simpl in Hs. congruence.
  - change (MoreFuel (evalLispBody (evalLisp n) expr) (evalLispBody (evalLisp (S n)) expr)).
    apply more_evalLispBody. exact IH.
Qed.

(** An evaluation that ends with fuel [n], in a value or in an error, ends
    the same way with any fuel above [n]. *)
Lemma evalLisp_more_fuel (n m : nat) (expr : LispVal) (s : LispEnv * Host) :
  n <= m -> fst (evalLisp n expr s) <> OutOfFuel -> evalLisp m expr s = evalLisp n expr s.
Proof.
  intros Hle. induction Hle as [|m Hle IH]; intros Hs; [reflexivity|].
  rewrite <- (IH Hs). apply evalLisp_one_more. rewrite (IH Hs). exact Hs.
Qed.

End Fuel.

(** ** The loops of the evaluator as rules *)

Section Rules.

Context {Host : Type} {api : EmacsAPI.t Host}.

Variable ev : LispVal -> M Host LispVal.

Lemma evalArgs_Evaluates es s vals s' :
  Evaluates ev es s vals s' -> evalArgs ev es s = (Return vals, s').
Proof.
  induction 1 as [s | e es s val s1 vals s' He _ IH]; simpl; [reflexivity|].
  unfold bind. rewrite He. fold (evalArgs ev). rewrite IH. reflexivity.
Qed.

Lemma last_cons {A} (x d : A) (l : list A) : List.last (x :: l) d = List.last l x.
Proof.
  revert x d. induction l as [|y l IH]; intros x d; [reflexivity|].
  change (List.last (y :: l) d = List.last (y :: l) x). rewrite !IH. reflexivity.
Qed.

Lemma evalSequence_Evaluates es s vals s' result :
  Evaluates ev es s vals s' -> evalSequence ev es result s = (Return (List.last vals result), s').
Proof.
  intros E. revert result.
  induction E as [s | e es s val s1 vals s' He _ IH]; intros result; simpl; [reflexivity|].
  unfold bind. rewrite He. fold (evalSequence ev). rewrite IH.
  f_equal. f_equal. symmetry. apply (last_cons val result vals).
Qed.

Lemma evalSetq_Assigns pairs r s r' s' :
  Assigns ev pairs r s r' s' -> evalSetq ev (setqElements pairs) r s = (Return r', s').
Proof.
  induction 1 as [r s | name e pairs r s val env1 h1 r' s' He _ IH]; simpl; [reflexivity|].
  unfold bind. rewrite He. simpl. exact IH.
Qed.

Lemma evalBindings_Initialises bs s vals s' newVars :
  Initialises ev bs s vals s' ->
  evalBindings ev (map bindingForm bs) newVars s
    = (Return (bindAll (map bindingName bs) vals newVars), s').
Proof.
  intros I. revert newVars.
  induction I as [s | v e bs s val s1 vals s' He _ IH | v bs s vals s' _ IH];
    intros newVars; simpl.
  - reflexivity.
  - unfold bind, index. simpl. rewrite He. apply IH.
  - apply IH.
Qed.

End Rules.

Lemma bindAll_lookup (names : list string) (vals : list LispVal)
    (newVars : gmap string LispVal) :
  (forall name, name ∉ names -> bindAll names vals newVars !! name = newVars !! name) /\
  (NoDup names -> length vals = length names ->
   forall i name val, names !! i = Some name -> vals !! i = Some val ->
     bindAll names vals newVars !! name = Some val).
Proof.
  revert vals newVars. induction names as [|x names IH]; intros vals newVars.
  - split; [reflexivity|]. intros _ _ i name val Hn. rewrite lookup_nil in Hn. discriminate.
  - destruct vals as [|v vals]; simpl.
    + split; [reflexivity|]. intros _ Hl. discriminate Hl.
    + destruct (IH vals (<[x := v]> newVars)) as [IHout IHin]. split.
      * intros name Hn. apply not_elem_of_cons in Hn as [Hx Hn].
        rewrite (IHout name Hn). apply lookup_insert_ne. congruence.
      * intros Hnd Hl i name val Hi Hv. apply NoDup_cons in Hnd as [Hx Hnd].
        destruct i as [|i]; simpl in Hi, Hv.
        -- injection Hi as <-. injection Hv as <-.
           rewrite (IHout x Hx). apply lookup_insert_eq.
        -- apply (IHin Hnd ltac:(simpl in Hl; lia) i name val Hi Hv).
Qed.

Lemma bindParams_lookup (params : list string) (i0 : nat) (args : list LispVal)
    (newVars : gmap string LispVal) :
  (forall name, name ∉ params -> bindParams params i0 args newVars !! name = newVars !! name) /\
  (NoDup params ->
   forall i name, params !! i = Some name ->
     bindParams params i0 args newVars !! name = Some (argumentAt args (i0 + i))).
Proof.
  revert i0 newVars. induction params as [|p params IH]; intros i0 newVars.
  - split; [reflexivity|]. intros _ i name Hn. rewrite lookup_nil in Hn. discriminate.
  - simpl. destruct (IH (S i0) (<[p := orNull (index args i0)]> newVars)) as [IHout IHin]. split.
    + intros name Hn. apply not_elem_of_cons in Hn as [Hx Hn].
      rewrite (IHout name Hn). apply lookup_insert_ne. congruence.
    + intros Hnd i name Hi. apply NoDup_cons in Hnd as [Hx Hnd].
      destruct i as [|i]; simpl in Hi.
      * injection Hi as <-. rewrite (IHout p Hx), lookup_insert_eq, Nat.add_0_r.
        unfold argumentAt, index. rewrite nth_lookup.
        destruct (args !! i0) as [[]|]; reflexivity.
      * rewrite (IHin Hnd i name Hi). f_equal. f_equal. lia.
Qed.

Lemma orNull_index (args : list LispVal) (i : nat) :
  orNull (index args i) = argumentAt args i.
Proof.
  unfold argumentAt, index. rewrite nth_lookup. destruct (args !! i) as [[]|]; reflexivity.
Qed.

(** The parameters are bound one after the other, each to the argument at
    its position. *)
Lemma bindParams_bindAll (params : list string) (i0 : nat) (args : list LispVal)
    (newVars : gmap string LispVal) :
  bindParams params i0 args newVars
    = bindAll params (map (argumentAt args) (seq i0 (length params))) newVars.
Proof.
  revert i0 newVars. induction params as [|p params IH]; intros i0 newVars; [reflexivity|].
  simpl. rewrite IH, orNull_index. reflexivity.
Qed.

(** ** [setq], function application and [let] *)

Section Scoping.

Context {Host : Type} {api : EmacsAPI.t Host}.

Lemma specialForm_None (ev : LispVal -> M Host LispVal) (name : string)
    (elements : list LispVal) :
  name ∉ specialNames -> specialForm ev name elements = None.
Proof.
  intros Hn. unfold specialForm, specialNames in *.
  repeat match goal with
         | |- context [String.eqb name ?k] =>
             destruct (String.eqb_spec name k) as [->|_];
               [exfalso; apply Hn; set_solver|]
         end.
  reflexivity.
Qed.

Lemma Initialises_length (ev : LispVal -> M Host LispVal) bs s vals s' :
  Initialises ev bs s vals s' -> length vals = length (map bindingName bs).
Proof. induction 1; simpl; congruence. Qed.

Lemma Evaluates_keeps_outer (ev : LispVal -> M Host LispVal) es s vals s' :
  (forall e, KeepsOuter (ev e)) ->
  Evaluates ev es s vals s' -> outer (fst s') = outer (fst s).
Proof.
  intros Hk. induction 1 as [s | e es s val s1 vals s' He _ IH]; [reflexivity|].
  rewrite IH. pose proof (Hk e s) as K. rewrite He in K. exact K.
Qed.

(** The rule of [setq]. *)
Lemma setq_rule (n : nat) (pairs : list (string * LispVal)) (s s' : LispEnv * Host)
    (r : LispVal) :
  Assigns (evalLisp n) pairs mkNull s r s' ->
  evalLisp (S n) (mkList (mkSym "setq" :: setqElements pairs)) s = (Return r, s').
Proof. intros A. simpl. apply evalSetq_Assigns. exact A. Qed.

(** The rule of the function application. *)
Lemma apply_rule (n : nat) (head : LispVal) (argExprs : list LispVal)
    (s s0 : LispEnv * Host) (params : list string) (body : LispVal)
    (args : list LispVal) (env1 : LispEnv) (h1 : Host) :
  appliedHead head ->
  evalLisp n head s = (Return (FUNC params body), s0) ->
  Evaluates (evalLisp n) argExprs s0 args (env1, h1) ->
  evalLisp (S n) (mkList (head :: argExprs)) s =
    (fst (evalLisp n body (newLispEnv (bindParams params 0 args ∅) (Some env1), h1)),
     (env1,
      snd (snd (evalLisp n body (newLispEnv (bindParams params 0 args ∅) (Some env1), h1))))).
Proof.
  intros Hh Hf Ha.
  assert (E : evalLisp (S n) (mkList (head :: argExprs)) s
              = applyFunction (evalLisp n) head (head :: argExprs) s).
  { simpl. destruct head; try reflexivity; simpl in Hh; [|contradiction].
    rewrite (specialForm_None _ _ _ Hh). reflexivity. }
  rewrite E. unfold applyFunction, bind. rewrite Hf. simpl.
  rewrite (evalArgs_Evaluates _ _ _ _ _ Ha).
  rewrite (inChild_restores _ _ _ (evalLisp_keeps_outer n body)). reflexivity.
Qed.

(** The rule of [let]. *)
Lemma let_rule (n : nat) (bs : list Binding) (body : list LispVal)
    (env : LispEnv) (h : Host) (vals : list LispVal) (env1 : LispEnv) (h1 : Host) :
  Initialises (evalLisp n) bs (env, h) vals (env1, h1) ->
  evalLisp (S n) (mkList (mkSym "let" :: mkList (map bindingForm bs) :: body)) (env, h) =
    (fst (evalSequence (evalLisp n) body mkNull
            (newLispEnv (bindAll (map bindingName bs) vals ∅) (Some env1), h1)),
     (env1,
      snd (snd (evalSequence (evalLisp n) body mkNull
                  (newLispEnv (bindAll (map bindingName bs) vals ∅) (Some env1), h1))))).
Proof.
  intros I. simpl. unfold evalLet, bind, index. simpl.
  rewrite (evalBindings_Initialises _ _ _ _ _ ∅ I).
  rewrite (inChild_restores _ _ _ (keeps_evalSequence _ (evalLisp_keeps_outer n) body mkNull)).
  reflexivity.
Qed.

(** C4: in a well-formed [(setq s1 v1 s2 v2 ...)] every value expression is
    evaluated in the current environment and bound to its symbol in the
    bindings of that environment, the innermost one; no enclosing
    environment is written; the result is the last value assigned. So a
    binding made by [setq] in the body of a [let] is gone from the enclosing
    environment when the [let] returns. *)
Theorem C4_setq_binds_in_current_environment :
  (forall n pairs (s s' : LispEnv * Host) r,
     Assigns (evalLisp n) pairs mkNull s r s' ->
     evalLisp (S n) (mkList (mkSym "setq" :: setqElements pairs)) s = (Return r, s')) /\
  (forall env name val,
     vars (Env.set env name val) = <[name := val]> (vars env) /\
     outer (Env.set env name val) = outer env) /\
  (forall fuel expr env (h : Host),
     outer (fst (snd (evalLisp fuel expr (env, h)))) = outer env) /\
  (forall n bs body env (h : Host) vals env1 h1,
     Initialises (evalLisp n) bs (env, h) vals (env1, h1) ->
     fst (snd (evalLisp (S n) (mkList (mkSym "let" :: mkList (map bindingForm bs) :: body))
                 (env, h))) = env1) /\
  (forall n body env (h : Host),
     fst (snd (evalLisp (S n) (mkList (mkSym "let" :: mkList [] :: body)) (env, h))) = env) /\
  parse "(progn (setq x 1) (let () (setq x 5) x))"
    = Return (mkList [mkSym "progn"; mkList [mkSym "setq"; mkSym "x"; mkNum 1];
                      mkList [mkSym "let"; mkList [];
                              mkList [mkSym "setq"; mkSym "x"; mkNum 5]; mkSym "x"]]) /\
  (forall fuel (h : Host),
     fst (evalLisp (S (S (S (S fuel))))
            (mkList [mkSym "progn"; mkList [mkSym "setq"; mkSym "x"; mkNum 1];
                     mkList [mkSym "let"; mkList [];
                             mkList [mkSym "setq"; mkSym "x"; mkNum 5]; mkSym "x"]])
            (createGlobalEnv, h)) = Return (mkNum 5) /\
     fst (evalLisp (S (S (S (S fuel))))
            (mkList [mkSym "progn"; mkList [mkSym "setq"; mkSym "x"; mkNum 1];
                     mkList [mkSym "let"; mkList [];
                             mkList [mkSym "setq"; mkSym "x"; mkNum 5]];
                     mkSym "x"])
            (createGlobalEnv, h)) = Return (mkNum 1) /\
     fst (evalLisp (S (S (S (S fuel))))
            (mkList [mkSym "progn";
                     mkList [mkSym "let"; mkList [];
                             mkList [mkSym "setq"; mkSym "x"; mkNum 5]];
                     mkSym "x"])
            (createGlobalEnv, h)) = Throw (Error "Void variable: x")).
Proof.
  split; [exact setq_rule|].
  split; [intros; split; reflexivity|].
  split; [intros fuel expr env h; apply (evalLisp_keeps_outer fuel expr (env, h))|].
  split.
  { intros n bs body env h vals env1 h1 I. rewrite (let_rule _ _ _ _ _ _ _ _ I). reflexivity. }
  split.
  { intros n body env h.
    pose proof (let_rule n [] body env h [] env h (Initialises_nil _ _)) as R.
    cbn [map] in R. rewrite R. reflexivity. }
  split; [vm_compute; reflexivity|].
  intros fuel h. repeat split; vm_compute; reflexivity.
Qed.

(** C5: applying a user-defined Function creates one child environment
    whose [outer] is the calling environment, the one the call is evaluated
    in and not one kept from the definition; binds in it, in their order,
    every parameter to the evaluated argument at its position, Nil when the
    arguments run out; leaves surplus arguments unbound; and evaluates the
    stored body in that child. The calling environment is the current one again afterwards. (An
    [undefined] argument, which is no Lisp value, is bound as Nil.) So a
    function sees the bindings of the [let] it is called from. *)
Theorem C5_function_application :
  (forall n head argExprs (s s0 : LispEnv * Host) params body args env1 h1,
     appliedHead head ->
     evalLisp n head s = (Return (FUNC params body), s0) ->
     Evaluates (evalLisp n) argExprs s0 args (env1, h1) ->
     exists child,
       outer child = Some env1 /\
       outer env1 = outer (fst s) /\
       vars child = bindAll params (map (argumentAt args) (seq 0 (length params))) ∅ /\
       (forall name, name ∉ params -> vars child !! name = None) /\
       (NoDup params -> forall i name,
          params !! i = Some name -> vars child !! name = Some (argumentAt args i)) /\
       (forall i val, args !! i = Some val -> val <> undefined -> argumentAt args i = val) /\
       (forall i, length args <= i -> argumentAt args i = mkNull) /\
       evalLisp (S n) (mkList (head :: argExprs)) s =
         (fst (evalLisp n body (child, h1)),
          (env1, snd (snd (evalLisp n body (child, h1)))))) /\
  parse "(progn (defun f () x) (let ((x 5)) (f)))"
    = Return (mkList [mkSym "progn";
                      mkList [mkSym "defun"; mkSym "f"; mkList []; mkSym "x"];
                      mkList [mkSym "let"; mkList [mkList [mkSym "x"; mkNum 5]];
                              mkList [mkSym "f"]]]) /\
  (forall fuel (h : Host),
     fst (evalLisp (S (S (S (S (S (S fuel))))))
            (mkList [mkSym "progn";
                     mkList [mkSym "defun"; mkSym "f"; mkList []; mkSym "x"];
                     mkList [mkSym "let"; mkList [mkList [mkSym "x"; mkNum 5]];
                             mkList [mkSym "f"]]])
            (createGlobalEnv, h)) = Return (mkNum 5)).
Proof.
  split.
  { intros n head argExprs s s0 params body args env1 h1 Hh Hf Ha.
    exists (newLispEnv (bindParams params 0 args ∅) (Some env1)).
    destruct (bindParams_lookup params 0 args ∅) as [Hout Hin].
    split; [reflexivity|]. split; [|split; [|split; [|split; [|split; [|split]]]]].
    - pose proof (Evaluates_keeps_outer _ _ _ _ _ (evalLisp_keeps_outer n) Ha) as K1.
      pose proof (evalLisp_keeps_outer n head s) as K. rewrite Hf in K.
      simpl in K1, K. congruence.
    - apply bindParams_bindAll.
    - intros name Hn. simpl. rewrite (Hout name Hn). apply lookup_empty.
    - intros Hnd i name Hi. simpl. apply (Hin Hnd i name Hi).
    - intros i val Hi Hu. unfold argumentAt. rewrite Hi. destruct val; congruence.
    - intros i Hi. unfold argumentAt. rewrite (lookup_ge_None_2 args i Hi). reflexivity.
    - apply (apply_rule n head argExprs s s0 params body args env1 h1 Hh Hf Ha). }
  split; [vm_compute; reflexivity|].
  intros fuel h. vm_compute. reflexivity.
Qed.

(** C6: in [(let ((v1 e1) ...) body...)] every initial value is evaluated in
    the environment of the form itself, none in the child, so no [ei] sees a
    [vi] of the same [let]; one child environment is created, in which every
    [vi] is bound to the value of its [ei] and a bare symbol to Nil; the body
    is evaluated in order in the child; the result is the last value of the
    body, Nil when the body is empty. *)
Theorem C6_let_binds_in_parallel :
  (forall n bs body env (h : Host) vals env1 h1,
     Initialises (evalLisp n) bs (env, h) vals (env1, h1) ->
     exists child,
       outer child = Some env1 /\
       vars child = bindAll (map bindingName bs) vals ∅ /\
       (forall name, name ∉ map bindingName bs -> vars child !! name = None) /\
       (NoDup (map bindingName bs) -> forall i b val,
          bs !! i = Some b -> vals !! i = Some val ->
          vars child !! bindingName b = Some val) /\
       (forall i v, bs !! i = Some (Bare v) -> vals !! i = Some mkNull) /\
       (forall rs s',
          Evaluates (evalLisp n) body (child, h1) rs s' ->
          evalLisp (S n) (mkList (mkSym "let" :: mkList (map bindingForm bs) :: body)) (env, h)
            = (Return (List.last rs mkNull), (env1, snd s'))) /\
       evalLisp (S n) (mkList (mkSym "let" :: mkList (map bindingForm bs) :: body)) (env, h)
         = (fst (evalSequence (evalLisp n) body mkNull (child, h1)),
            (env1, snd (snd (evalSequence (evalLisp n) body mkNull (child, h1)))))) /\
  parse "(let ((x 1) (y 2) z) (list x y z))"
    = Return (mkList [mkSym "let";
                      mkList [mkList [mkSym "x"; mkNum 1]; mkList [mkSym "y"; mkNum 2];
                              mkSym "z"];
                      mkList [mkSym "list"; mkSym "x"; mkSym "y"; mkSym "z"]]) /\
  (forall fuel (h : Host),
     evalLisp (S (S (S fuel)))
       (mkList [mkSym "let";
                mkList [mkList [mkSym "x"; mkNum 1]; mkList [mkSym "y"; mkNum 2]; mkSym "z"];
                mkList [mkSym "list"; mkSym "x"; mkSym "y"; mkSym "z"]])
       (createGlobalEnv, h)
       = (Return (mkList [mkNum 1; mkNum 2; mkNull]), (createGlobalEnv, h)) /\
     evalLisp (S (S (S fuel)))
       (mkList [mkSym "let";
                mkList [mkList [mkSym "x"; mkNum 1]; mkList [mkSym "y"; mkSym "x"]];
                mkSym "y"])
       (createGlobalEnv, h)
       = (Throw (Error "Void variable: x"), (createGlobalEnv, h)) /\
     evalLisp (S (S (S fuel)))
       (mkList [mkSym "let"; mkList [mkList [mkSym "x"; mkNum 1]]])
       (createGlobalEnv, h)
       = (Return mkNull, (createGlobalEnv, h))).
Proof.
  split.
  { intros n bs body env h vals env1 h1 I.
    exists (newLispEnv (bindAll (map bindingName bs) vals ∅) (Some env1)).
    destruct (bindAll_lookup (map bindingName bs) vals ∅) as [Hout Hin].
    split; [reflexivity|]. split; [reflexivity|]. split; [|split; [|split; [|split]]].
    - intros name Hn. simpl. rewrite (Hout name Hn). apply lookup_empty.
    - intros Hnd i b val Hb Hv. simpl.
      apply (Hin Hnd (Initialises_length _ _ _ _ _ I) i); [|exact Hv].
      rewrite list_lookup_fmap, Hb. reflexivity.
    - clear Hout Hin. intros i v. revert i.
      induction I as [s | v' e bs s val s1 vals s' He _ IH | v' bs s vals s' _ IH];
        intros i Hb.
      + rewrite lookup_nil in Hb. discriminate.
      + destruct i as [|i]; simpl in Hb; [discriminate|]. apply (IH i Hb).
      + destruct i as [|i]; simpl in Hb; [reflexivity|]. apply (IH i Hb).
    - intros rs s' E. rewrite (let_rule _ _ _ _ _ _ _ _ I).
      rewrite (evalSequence_Evaluates _ _ _ _ _ mkNull E). reflexivity.
    - apply (let_rule _ _ _ _ _ _ _ _ I). }
  split; [vm_compute; reflexivity|].
  intros fuel h. repeat split; vm_compute; reflexivity.
Qed.

End Scoping.

(** ** The expression before the cursor *)

Section FinderProperties.

Local Open Scope Z_scope.

Variable text : string.

Lemma charIs_lookup (pos : Z) (c : ascii) :
  0 <= pos ->
  charIs text pos c = true <-> list_ascii_of_string text !! Z.to_nat pos = Some c.
Proof.
  intros Hp. unfold charIs, Js.charAtZ.
  destruct (Z.ltb_spec pos 0) as [?|_]; [lia|].
  rewrite string_get_lookup. destruct (_ !! _) as [d|]; [|split; discriminate].
  destruct (Ascii.eqb_spec d c) as [->|Hn]; split; intros E; try reflexivity; try discriminate E.
  congruence.
Qed.

Lemma charIs_at (m : nat) (x c : ascii) :
  list_ascii_of_string text !! m = Some x ->
  charIs text (Z.of_nat m) c = Ascii.eqb x c.
Proof.
  intros Hx. unfold charIs, Js.charAtZ.
  destruct (Z.ltb_spec (Z.of_nat m) 0) as [?|_]; [lia|].
  rewrite string_get_lookup, Nat2Z.id, Hx. reflexivity.
Qed.

(** The loop over white space stops at the last position that holds none. *)
Lemma scanBack_stops (P : Z -> bool) (k : nat) (pos p0 : Z) :
  0 <= p0 <= pos -> P p0 = false -> (forall q, p0 < q <= pos -> P q = true) ->
  (Z.to_nat (pos - p0) <= k)%nat ->
  scanBack P k pos = p0.
Proof.
  revert pos. induction k as [|k IH]; intros pos Hp Hf Ht Hk.
  - simpl. lia.
  - simpl. destruct (Z.eq_dec pos p0) as [->|Hne].
    + rewrite Hf, andb_false_r. reflexivity.
    + rewrite (Ht pos) by lia. destruct (Z.leb_spec 0 pos) as [_|?]; [|lia]. simpl.
      apply IH; [lia|exact Hf| |lia]. intros q Hq. apply Ht. lia.
Qed.

(** The loop of [findLastSexp] over the [m] characters before the closing
    parenthesis against the scan of the specification. *)
Lemma matchBack_matchingOpen (m k : nat) (depth : nat) :
  (m <= k)%nat -> (1 <= depth)%nat -> (m <= length (list_ascii_of_string text))%nat ->
  match matchingOpen (before text m) depth with
  | Some d =>
      matchBack text k (Z.of_nat m - 1) (Z.of_nat depth) = (Z.of_nat m - Z.of_nat d, 0) /\
      (1 <= d <= m)%nat /\
      list_ascii_of_string text !! (m - d)%nat = Some "("%char
  | None => 0 < snd (matchBack text k (Z.of_nat m - 1) (Z.of_nat depth))
  end.
Proof.
  revert k depth. induction m as [|m IH]; intros k depth Hk Hd Hl.
  - simpl. destruct k; simpl; lia.
  - destruct k as [|k]; [lia|].
    destruct (lookup_lt_is_Some_2 (list_ascii_of_string text) m ltac:(lia)) as [x Hx].
    unfold before. rewrite (take_S_r _ _ _ Hx), rev_unit. fold (before text m).
    cbn [matchingOpen matchBack].
    replace (Z.of_nat (S m) - 1) with (Z.of_nat m) by lia.
    destruct (Z.leb_spec 0 (Z.of_nat m)) as [_|?]; [|lia].
    destruct (Z.ltb_spec 0 (Z.of_nat depth)) as [_|?]; [|lia].
    cbn [andb]. rewrite !(charIs_at m x _ Hx).
    destruct (Ascii.eqb_spec x ")") as [->|Hc].
    + change (Ascii.eqb ")" "(") with false. cbn [Nat.eqb].
      destruct (Z.ltb_spec 0 (Z.of_nat depth + 1)) as [_|?]; [|lia].
      specialize (IH k (S depth) ltac:(lia) ltac:(lia) ltac:(lia)).
      replace (Z.of_nat (S depth)) with (Z.of_nat depth + 1) in IH by lia.
      destruct (matchingOpen (before text m) (S depth)) as [d|]; simpl; [|exact IH].
      destruct IH as (E & Hdm & Hopen). rewrite E. split; [f_equal; lia|].
      split; [lia|]. replace (S m - S d)%nat with (m - d)%nat by lia. exact Hopen.
    + destruct (Ascii.eqb_spec x "(") as [->|Ho].
      * destruct depth as [|[|depth]]; [lia| |].
        -- simpl. split; [f_equal; lia|]. split; [lia|].
           rewrite <- Hx. f_equal. lia.
        -- cbn [Nat.pred Nat.eqb].
           destruct (Z.ltb_spec 0 (Z.of_nat (S (S depth)) - 1)) as [_|?]; [|lia].
           specialize (IH k (S depth) ltac:(lia) ltac:(lia) ltac:(lia)).
           replace (Z.of_nat (S (S depth)) - 1) with (Z.of_nat (S depth)) by lia.
           destruct (matchingOpen (before text m) (S depth)) as [d|]; simpl; [|exact IH].
           destruct IH as (E & Hdm & Hopen). rewrite E. split; [f_equal; lia|].
           split; [lia|]. replace (S m - S d)%nat with (m - d)%nat by lia. exact Hopen.
      * destruct depth as [|depth]; [lia|]. cbn [Nat.eqb].
        destruct (Z.ltb_spec 0 (Z.of_nat (S depth))) as [_|?]; [|lia].
        specialize (IH k (S depth) ltac:(lia) ltac:(lia) ltac:(lia)).
        destruct (matchingOpen (before text m) (S depth)) as [d|]; simpl; [|exact IH].
        destruct IH as (E & Hdm & Hopen). rewrite E. split; [f_equal; lia|].
        split; [lia|]. replace (S m - S d)%nat with (m - d)%nat by lia. exact Hopen.
Qed.

Lemma findLastSexp_closing (cursor p : Z) :
  0 <= p < cursor ->
  (forall q, p < q < cursor -> spaceAt text q = true) ->
  charIs text p ")" = true ->
  match matchingOpen (before text (Z.to_nat p)) 1 with
  | Some d =>
      findLastSexp text cursor = Some (substring (Z.to_nat p - d) (S d) text) /\
      charIs text (p - Z.of_nat d) "(" = true
  | None => findLastSexp text cursor = None
  end.
Proof.
  intros Hp Hs Hc.
  pose proof (proj1 (charIs_lookup p ")" ltac:(lia)) Hc) as Hl.
  pose proof (lookup_lt_Some _ _ _ Hl) as Hlen. rewrite <- string_length_chars in Hlen.
  assert (Hns : spaceAt text p = false).
  { unfold spaceAt, Js.charAtZ. destruct (Z.ltb_spec p 0) as [?|_]; [lia|].
    rewrite string_get_lookup, Hl. reflexivity. }
  unfold findLastSexp.
  rewrite (scanBack_stops (spaceAt text) (Z.to_nat (cursor - 1 + 1)) (cursor - 1) p
             ltac:(lia) Hns
             ltac:(intros q Hq; apply Hs; lia) ltac:(lia)).
  destruct (Z.ltb_spec p 0) as [?|_]; [lia|]. rewrite Hc.
  pose proof (matchBack_matchingOpen (Z.to_nat p) (Z.to_nat (p - 1 + 1)) 1
                ltac:(lia) ltac:(lia) ltac:(rewrite <- string_length_chars; lia)) as M.
  replace (Z.of_nat (Z.to_nat p) - 1) with (p - 1) in M by lia.
  change (Z.of_nat 1) with 1 in M.
  destruct (matchingOpen (before text (Z.to_nat p)) 1) as [d|].
  - destruct M as (E & Hd & Hopen). rewrite E. simpl. split.
    + f_equal. unfold Js.sliceZ, Js.sliceOffset.
      destruct (Z.ltb_spec (Z.of_nat (Z.to_nat p) - Z.of_nat d) 0) as [?|_]; [lia|].
      destruct (Z.ltb_spec (p + 1) 0) as [?|_]; [lia|].
      f_equal; lia.
    + apply charIs_lookup; [lia|]. rewrite <- Hopen. f_equal. lia.
  - destruct (matchBack text _ _ _) as [pos depth]. simpl in M.
    destruct (Z.eqb_spec depth 0) as [?|_]; [lia|]. reflexivity.
Qed.

End FinderProperties.

(** C9: when the character reached from [cursor - 1] over white space is a
    [)] and the backward scan that counts the depth (1 at that [)], a [)]
    raising it, a [(] lowering it) reaches 0, [findLastSexp] returns the text
    from the matching [(] through that [)]; when the depth never reaches 0
    it returns null. On [(foo (bar 1))] with the cursor at the end it returns
    the whole text, and on [foo bar] with the cursor after [bar] it returns
    [bar]. *)
Theorem C9_findLastSexp_matching_parenthesis :
  (forall text cursor p,
     (0 <= p < cursor)%Z ->
     (forall q, (p < q < cursor)%Z -> spaceAt text q = true) ->
     charIs text p ")" = true ->
     match matchingOpen (before text (Z.to_nat p)) 1 with
     | Some d =>
         findLastSexp text cursor = Some (substring (Z.to_nat p - d) (S d) text) /\
         charIs text (p - Z.of_nat d) "(" = true
     | None => findLastSexp text cursor = None
     end) /\
  findLastSexp "(foo (bar 1))" 13 = Some "(foo (bar 1))" /\
  findLastSexp "foo bar" 7 = Some "bar" /\
  findLastSexp "foo bar)" 8 = None.
Proof.
  split; [exact findLastSexp_closing|].
  repeat split; vm_compute; reflexivity.
Qed.

(** ** The reader and the lists it leaves open *)

Section ReaderProperties.

Variable input : string.

Let chars : list ascii := list_ascii_of_string input.

Lemma charAt_chars (pos : nat) : Js.charAt input pos = chars !! pos.
Proof. apply string_get_lookup. Qed.

Lemma length_input : Js.length input = length chars.
Proof. apply string_length_chars. Qed.

Lemma drop_at (pos : nat) (c : ascii) :
  chars !! pos = Some c -> drop pos chars = c :: drop (S pos) chars.
Proof. intros Hc. apply drop_S. exact Hc. Qed.

Lemma drop_end (pos : nat) : chars !! pos = None -> drop pos chars = [].
Proof. intros Hc. apply drop_ge. apply lookup_ge_None. exact Hc. Qed.

(** What [scanWhile] returns: the end of the run of characters that
    satisfy [p]. *)
Lemma scanWhile_run (p : ascii -> bool) (k pos : nat) :
  length chars - pos <= k ->
  pos <= scanWhile input p k pos /\
  (forall i, pos <= i < scanWhile input p k pos ->
             exists c, chars !! i = Some c /\ p c = true) /\
  match chars !! scanWhile input p k pos with
  | Some c => p c = false
  | None => True
  end.
Proof.
  revert pos. induction k as [|k IH]; intros pos Hk; simpl.
  - split; [lia|]. split; [intros i Hi; lia|].
    rewrite (proj2 (lookup_ge_None chars pos)) by lia. exact I.
  - rewrite charAt_chars. destruct (chars !! pos) as [c|] eqn:Hc.
    + destruct (p c) eqn:Hp.
      * destruct (IH (S pos) ltac:(lia)) as (H1 & H2 & H3). split; [lia|]. split; [|exact H3].
        intros i Hi. destruct (Nat.eq_dec i pos) as [->|Hne]; [eauto|]. apply H2. lia.
      * split; [lia|]. split; [intros i Hi; lia|]. rewrite Hc. exact Hp.
    + split; [lia|]. split; [intros i Hi; lia|]. rewrite Hc. exact I.
Qed.

(** A run of white space between expressions changes nothing. *)
Lemma openAtEnd_spaces (d pos r : nat) :
  pos <= r ->
  (forall i, pos <= i < r -> exists c, chars !! i = Some c /\ Js.isSpace c = true) ->
  openAtEnd Between d (drop pos chars) = openAtEnd Between d (drop r chars).
Proof.
  intros Hr. induction Hr as [|r Hr IH]; intros Hs; [reflexivity|].
  rewrite IH by (intros i Hi; apply Hs; lia).
  destruct (Hs r ltac:(lia)) as (c & Hc & Hp).
  rewrite (drop_at r c Hc). simpl. rewrite Hp. reflexivity.
Qed.

Lemma skipWhitespace_run (d pos : nat) :
  pos <= skipWhitespace input pos /\
  openAtEnd Between d (drop pos chars)
    = openAtEnd Between d (drop (skipWhitespace input pos) chars) /\
  match chars !! skipWhitespace input pos with
  | Some c => Js.isSpace c = false
  | None => True
  end.
Proof.
  unfold skipWhitespace.
  destruct (scanWhile_run Js.isSpace (Js.length input - pos) pos
              ltac:(rewrite length_input; lia)) as (H1 & H2 & H3).
  split; [exact H1|]. split; [|exact H3]. apply openAtEnd_spaces; assumption.
Qed.

(** The end of an atom: the end of the input or a delimiter. *)
Lemma openAtEnd_atom_end (d : nat) (cs : list ascii) :
  match cs with
  | [] => True
  | c :: _ => isAtomChar c = false
  end ->
  openAtEnd InAtom d cs = afterExpr d cs.
Proof.
  destruct cs as [|c cs]; intros Hc; [destruct d; reflexivity|].
  unfold isAtomChar in Hc. apply negb_false_iff in Hc.
  destruct d as [|d]; simpl;
    (destruct (Js.isSpace c); [reflexivity|]);
    (destruct (Ascii.eqb c "("); [reflexivity|]);
    (destruct (Ascii.eqb c ")"); [reflexivity|]);
    discriminate Hc.
Qed.

Lemma openAtEnd_atom_chars (d pos r : nat) :
  pos <= r ->
  (forall i, pos <= i < r -> exists c, chars !! i = Some c /\ isAtomChar c = true) ->
  openAtEnd InAtom d (drop pos chars) = openAtEnd InAtom d (drop r chars).
Proof.
  intros Hr. induction Hr as [|r Hr IH]; intros Hs; [reflexivity|].
  rewrite IH by (intros i Hi; apply Hs; lia).
  destruct (Hs r ltac:(lia)) as (c & Hc & Hp).
  rewrite (drop_at r c Hc). simpl.
  unfold isAtomChar in Hp. apply negb_true_iff in Hp.
  destruct (Js.isSpace c); [discriminate Hp|].
  destruct (Ascii.eqb c "("); [rewrite orb_true_r in Hp; discriminate Hp|].
  destruct (Ascii.eqb c ")"); [discriminate Hp|]. reflexivity.
Qed.

Lemma afterExpr_end (d : nat) : afterExpr d [] = negb (Nat.eqb d 0).
Proof. destruct d; reflexivity. Qed.

(** The loop of [parseString] ends behind the string. *)
Lemma stringEnd_run (k p d : nat) :
  length chars - p <= k ->
  p <= stringEnd input k p /\
  openAtEnd InString d (drop p chars) = afterExpr d (drop (S (stringEnd input k p)) chars).
Proof.
  revert p. induction k as [|k IH]; intros p Hk.
  - simpl. split; [lia|]. rewrite !drop_ge by lia. rewrite afterExpr_end. reflexivity.
  - simpl. rewrite charAt_chars. destruct (chars !! p) as [c|] eqn:Hc.
    + rewrite (drop_at p c Hc). simpl. destruct (Ascii.eqb c Js.dquote) eqn:Hq.
      * split; [lia|]. destruct d; reflexivity.
      * destruct (Ascii.eqb c "\") eqn:Hb.
        -- destruct (IH (S (S p)) ltac:(lia)) as [H1 H2]. split; [lia|]. rewrite <- H2.
           destruct (chars !! S p) as [c'|] eqn:Hc'.
           ++ rewrite (drop_at (S p) c' Hc'). reflexivity.
           ++ rewrite (drop_end (S p) Hc'), drop_ge; [reflexivity|].
              apply lookup_ge_None in Hc'. lia.
        -- destruct (IH (S p) ltac:(lia)) as [H1 H2]. split; [lia|]. exact H2.
    + split; [lia|]. rewrite (drop_end p Hc), drop_ge, afterExpr_end; [reflexivity|].
      apply lookup_ge_None in Hc. lia.
Qed.

Lemma parseString_reads (d pos : nat) :
  chars !! pos = Some Js.dquote ->
  ReadsFrom chars d pos (Return (parseString input pos)).
Proof.
  intros Hc. unfold parseString, ReadsFrom.
  destruct (stringEnd_run (Js.length input - S pos) (S pos) d
              ltac:(rewrite length_input; lia)) as [H1 H2].
  split; [lia|]. split; [|lia].
  rewrite (drop_at pos _ Hc). exact H2.
Qed.

Lemma parseAtom_reads (d pos : nat) (c : ascii) :
  chars !! pos = Some c ->
  Js.isSpace c = false -> Ascii.eqb c "(" = false ->
  Ascii.eqb c Js.dquote = false -> Ascii.eqb c "'" = false ->
  ReadsFrom chars d pos (Return (parseAtom input pos)).
Proof.
  intros Hc Hs Ho Hq Ht. unfold parseAtom, ReadsFrom.
  destruct (scanWhile_run isAtomChar (Js.length input - pos) pos
              ltac:(rewrite length_input; lia)) as (H1 & H2 & H3).
  set (r := scanWhile input isAtomChar (Js.length input - pos) pos) in *.
  split; [exact H1|].
  destruct (Ascii.eqb c ")") eqn:Hp.
  - assert (r = pos) as ->.
    { destruct (Nat.eq_dec r pos) as [E|Hne]; [exact E|].
      destruct (H2 pos ltac:(lia)) as (c' & Hc' & Ha). rewrite Hc in Hc'. injection Hc' as <-.
      unfold isAtomChar in Ha. rewrite Hp, orb_true_r in Ha. discriminate Ha. }
    split; [|intros _; rewrite Hc; apply Ascii.eqb_eq; exact Hp].
    rewrite (drop_at pos c Hc). unfold afterExpr. simpl. rewrite Hs, Ho, Hp.
    destruct d as [|[|d]]; reflexivity.
  - assert (Ha : isAtomChar c = true).
    { unfold isAtomChar. rewrite Hs, Hp, Ho. reflexivity. }
    assert (Hr : pos < r).
    { destruct (Nat.eq_dec r pos) as [E|Hne]; [|lia].
      rewrite E, Hc, Ha in H3. discriminate H3. }
    split; [|lia].
    rewrite (drop_at pos c Hc). simpl. rewrite Hs, Ho, Hp, Hq, Ht.
    rewrite (openAtEnd_atom_chars d (S pos) r ltac:(lia)
               ltac:(intros i Hi; apply H2; lia)).
    apply openAtEnd_atom_end.
    destruct (chars !! r) as [c'|] eqn:Hc'.
    + rewrite (drop_at r c' Hc'). exact H3.
    + rewrite (drop_end r Hc'). exact I.
Qed.

Lemma parseList_past_end (pe : nat -> Outcome (LispVal * nat)) (k pos : nat)
    (elements : list LispVal) :
  length chars <= pos ->
  parseList input pe k pos elements = Throw (Error "Unclosed list").
Proof.
  intros Hl. destruct k; simpl; rewrite length_input;
    (destruct (Nat.leb_spec (length chars) pos) as [_|?]; [reflexivity|lia]).
Qed.

(** The loop of [parseList], given what the calls of [parseExpr] do. *)
Lemma parseList_reads (f : nat) :
  (forall pos d, pos <= length chars -> length chars + 1 - pos <= f ->
                 ReadsFrom chars d pos (parseExpr input f pos)) ->
  forall k pos elements d,
    length chars - pos <= k -> length chars + 1 - pos <= f ->
    ReadsList chars d pos (parseList input (parseExpr input f) k pos elements).
Proof.
  intros IHf. induction k as [|k IH]; intros pos elements d Hk Hf.
  - simpl. rewrite length_input. destruct (Nat.leb_spec (length chars) pos) as [Hl|Hl]; [|lia].
    simpl. split; [reflexivity|]. rewrite drop_ge by lia. reflexivity.
  - simpl. rewrite length_input. destruct (Nat.leb_spec (length chars) pos) as [Hl|Hl].
    { simpl. split; [reflexivity|]. rewrite drop_ge by lia. reflexivity. }
    destruct (skipWhitespace_run (S d) pos) as (H1 & H2 & H3).
    set (pos1 := skipWhitespace input pos) in *.
    rewrite charAt_chars.
    assert (Hp1 : pos1 <= length chars).
    { destruct (Nat.le_gt_cases pos1 (length chars)) as [?|Hgt]; [assumption|].
      exfalso. unfold pos1, skipWhitespace in Hgt.
      destruct (scanWhile_run Js.isSpace (Js.length input - pos) pos
                  ltac:(rewrite length_input; lia)) as (_ & R & _).
      destruct (R (length chars) ltac:(lia)) as (c & Hc & _).
      rewrite (proj2 (lookup_ge_None chars (length chars))) in Hc by lia. discriminate Hc. }
    destruct (chars !! pos1) as [c|] eqn:Hc.
    + destruct (Ascii.eqb c ")") eqn:Hp.
      * simpl. split; [lia|]. rewrite H2, (drop_at pos1 c Hc). simpl. rewrite H3, Hp.
        assert (Ascii.eqb c "(" = false) as ->.
        { apply Ascii.eqb_eq in Hp. subst c. reflexivity. }
        destruct d; reflexivity.
      * pose proof (IHf pos1 (S d) Hp1 ltac:(lia)) as R.
        destruct (parseExpr input f pos1) as [[e pos']| e | |]; simpl in R; try contradiction.
        -- destruct R as (Hle & Hscan & Hsame).
           assert (Hlt : pos1 < pos').
           { destruct (Nat.eq_dec pos' pos1) as [E|Hne]; [|lia].
             specialize (Hsame E). rewrite Hc in Hsame. subst c. discriminate Hp. }
           specialize (IH pos' (elements ++ [e])%list d ltac:(lia) ltac:(lia)).
           destruct (parseList input (parseExpr input f) k pos' (elements ++ [e])%list)
             as [[v pos'']| e' | |]; simpl in IH |- *; try contradiction.
           ++ destruct IH as [Hlt' Hscan']. split; [lia|].
              rewrite H2, Hscan. exact Hscan'.
           ++ destruct IH as [-> Hscan']. split; [reflexivity|].
              rewrite H2, Hscan. exact Hscan'.
        -- destruct R as [-> Hscan]. simpl. split; [reflexivity|]. rewrite H2. exact Hscan.
    + pose proof (IHf pos1 (S d) Hp1 ltac:(lia)) as R.
      destruct (parseExpr input f pos1) as [[e pos']| e | |]; simpl in R; try contradiction.
      * destruct R as (Hle & Hscan & _). apply lookup_ge_None in Hc.
        rewrite (parseList_past_end _ k pos' _ ltac:(lia)). simpl.
        split; [reflexivity|]. rewrite H2, Hscan, drop_ge by lia. reflexivity.
      * destruct R as [-> Hscan]. simpl. split; [reflexivity|]. rewrite H2. exact Hscan.
Qed.

Lemma skipWhitespace_le (pos : nat) :
  pos <= length chars -> skipWhitespace input pos <= length chars.
Proof.
  intros Hp. destruct (Nat.le_gt_cases (skipWhitespace input pos) (length chars)) as [?|Hgt];
    [assumption|].
  exfalso. unfold skipWhitespace in Hgt.
  destruct (scanWhile_run Js.isSpace (Js.length input - pos) pos
              ltac:(rewrite length_input; lia)) as (_ & R & _).
  destruct (R (length chars) ltac:(lia)) as (c & Hc & _).
  rewrite (proj2 (lookup_ge_None chars (length chars))) in Hc by lia. discriminate Hc.
Qed.

(** A call that starts by skipping white space. *)
Lemma ReadsFrom_skip (d pos pos1 : nat) (o : Outcome (LispVal * nat)) :
  pos <= pos1 ->
  openAtEnd Between d (drop pos chars) = openAtEnd Between d (drop pos1 chars) ->
  ReadsFrom chars d pos1 o -> ReadsFrom chars d pos o.
Proof.
  intros Hle Heq. destruct o as [[v pos']| e | |]; simpl; try tauto.
  - intros (H1 & H2 & H3). split; [lia|]. split; [congruence|].
    intros E. assert (pos1 = pos) as -> by lia. apply H3. exact E.
  - intros [-> H]. split; [reflexivity|congruence].
Qed.

(** With fuel for the characters left, [parseExpr] follows the scan. *)
Lemma parseExpr_reads (fuel pos d : nat) :
  pos <= length chars -> length chars + 1 - pos <= fuel ->
  ReadsFrom chars d pos (parseExpr input fuel pos).
Proof.
  revert pos d. induction fuel as [|f IH]; intros pos d Hp Hf; [lia|].
  simpl. unfold parseExprBody.
  destruct (skipWhitespace_run d pos) as (H1 & H2 & H3).
  pose proof (skipWhitespace_le pos Hp) as Hp1.
  set (pos1 := skipWhitespace input pos) in *.
  apply (ReadsFrom_skip d pos pos1 _ H1 H2).
  rewrite charAt_chars. destruct (chars !! pos1) as [c|] eqn:Hc.
  - pose proof (lookup_lt_Some _ _ _ Hc) as Hlt.
    destruct (Ascii.eqb c Js.dquote) eqn:Hq.
    { apply Ascii.eqb_eq in Hq. subst c. apply parseString_reads. exact Hc. }
    destruct (Ascii.eqb c "(") eqn:Ho.
    { apply Ascii.eqb_eq in Ho. subst c.
      pose proof (parseList_reads f IH (Js.length input - S pos1) (S pos1) [] d
                    ltac:(rewrite length_input; lia) ltac:(lia)) as R.
      destruct (parseList input (parseExpr input f) _ (S pos1) [])
        as [[v pos']| e | |]; simpl in R |- *; try contradiction.
      - destruct R as [Hl Hs]. split; [lia|]. split; [|lia].
        rewrite (drop_at pos1 _ Hc). exact Hs.
      - destruct R as [-> Hs]. split; [reflexivity|]. rewrite (drop_at pos1 _ Hc). exact Hs. }
    destruct (Ascii.eqb c "'") eqn:Ht.
    { apply Ascii.eqb_eq in Ht. subst c. unfold parseQuote.
      pose proof (IH (S pos1) d ltac:(lia) ltac:(lia)) as R.
      destruct (parseExpr input f (S pos1)) as [[v pos']| e | |]; simpl in R |- *;
        try contradiction.
      - destruct R as (Hl & Hs & _). split; [lia|]. split; [|lia].
        rewrite (drop_at pos1 _ Hc). exact Hs.
      - destruct R as [-> Hs]. split; [reflexivity|]. rewrite (drop_at pos1 _ Hc). exact Hs. }
    apply (parseAtom_reads d pos1 c Hc H3 Ho Hq Ht).
  - simpl. split; [lia|]. split; [|intros _; rewrite Hc; exact I].
    rewrite (drop_end pos1 Hc), afterExpr_end. reflexivity.
Qed.

End ReaderProperties.

(** [parse] throws the error of the unclosed list exactly on the inputs in
    which the end is reached inside an open list, and returns a value on
    all others. *)
Lemma parse_unclosed (input : string) :
  if unclosedList input then parse input = Throw (Error "Unclosed list")
  else exists v, parse input = Return v.
Proof.
  pose proof (parseExpr_reads input (S (Js.length input)) 0 0 ltac:(lia)
                ltac:(rewrite length_input; lia)) as R.
  unfold parse, unclosedList.
  destruct (parseExpr input (S (Js.length input)) 0) as [[v pos']| e | |];
    simpl in R |- *; try contradiction.
  - destruct R as (_ & R & _).
    change (drop 0 (list_ascii_of_string input)) with (list_ascii_of_string input) in R.
    rewrite R. simpl. exists v. reflexivity.
  - destruct R as [-> R].
    change (drop 0 (list_ascii_of_string input)) with (list_ascii_of_string input) in R.
    rewrite R. reflexivity.
Qed.

(** C8: when a list opened by [(] is not closed by a matching [)] before the
    end of the input, [parse] throws the error [Unclosed list] and returns
    no value; so it does on [(+ 1 2]. [unclosedList] says that the end of
    the input is reached with a list open, the first expression not being
    complete. On every other input [parse] returns a value. *)
Theorem C8_unclosed_list_is_a_parse_error :
  (forall input, unclosedList input = true ->
                 parse input = Throw (Error "Unclosed list") /\
                 forall v, parse input <> Return v) /\
  (forall input, unclosedList input = false -> exists v, parse input = Return v) /\
  unclosedList "(+ 1 2" = true /\
  parse "(+ 1 2" = Throw (Error "Unclosed list").
Proof.
  split.
  { intros input Hu. pose proof (parse_unclosed input) as P. rewrite Hu in P.
    split; [exact P|]. intros v. rewrite P. discriminate. }
  split.
  { intros input Hu. pose proof (parse_unclosed input) as P. rewrite Hu in P. exact P. }
  split; vm_compute; reflexivity.
Qed.

(** ** Reading back what the printer writes *)

Section Tokens.

Variable input : string.

Let chars : list ascii := list_ascii_of_string input.

Lemma token_first (pos : nat) (c : ascii) (rest : list ascii) :
  drop pos chars = c :: rest -> chars !! pos = Some c /\ drop (S pos) chars = rest.
Proof.
  intros E. assert (Hc : chars !! pos = Some c).
  { rewrite <- (Nat.add_0_r pos), <- lookup_drop, E. reflexivity. }
  split; [exact Hc|]. rewrite (drop_S _ _ _ Hc) in E. congruence.
Qed.

Lemma token_none (pos : nat) : drop pos chars = [] -> chars !! pos = None.
Proof.
  intros E. rewrite <- (Nat.add_0_r pos), <- lookup_drop, E. reflexivity.
Qed.

(** [scanWhile] runs over a token whose characters satisfy [p] and stops
    behind it. *)
Lemma scanWhile_token (p : ascii -> bool) (tok post : list ascii) (k pos : nat) :
  drop pos chars = tok ++ post ->
  Forall (fun c => p c = true) tok ->
  match post with [] => True | c :: _ => p c = false end ->
  length chars - pos <= k ->
  scanWhile input p k pos = pos + length tok.
Proof.
  revert k pos. induction tok as [|c tok IH]; intros k pos E Hall Hpost Hk.
  - simpl in E. rewrite Nat.add_0_r. destruct k as [|k]; simpl; [reflexivity|].
    rewrite charAt_chars. fold chars. destruct post as [|c post].
    + rewrite (token_none pos E). reflexivity.
    + destruct (token_first pos c post E) as [Hc _]. rewrite Hc, Hpost. reflexivity.
  - destruct (token_first pos c (tok ++ post) E) as [Hc E'].
    apply Forall_cons in Hall as [Hp Hall].
    pose proof (lookup_lt_Some _ _ _ Hc) as Hlt.
    destruct k as [|k]; [lia|]. simpl. rewrite charAt_chars. fold chars. rewrite Hc, Hp.
    rewrite (IH k (S pos) E' Hall Hpost ltac:(lia)). lia.
Qed.

(** The text between two positions is the token that stands there. *)
Lemma sliceNat_token (t : string) (post : list ascii) (pos : nat) :
  drop pos chars = list_ascii_of_string t ++ post ->
  Js.sliceNat input pos (pos + length (list_ascii_of_string t)) = t.
Proof.
  intros E. apply chars_inj. unfold Js.sliceNat. rewrite chars_substring. fold chars.
  rewrite E. replace (pos + _ - pos) with (length (list_ascii_of_string t)) by lia.
  apply take_app_length.
Qed.

(** The loop of [parseString] runs over a text that holds no double quote
    and no backslash and stops on the double quote behind it. *)
Lemma stringEnd_token (tok post : list ascii) (k pos : nat) :
  drop pos chars = tok ++ Js.dquote :: post ->
  Forall (fun c => Ascii.eqb c Js.dquote = false /\ Ascii.eqb c "\" = false) tok ->
  length chars - pos <= k ->
  stringEnd input k pos = pos + length tok.
Proof.
  revert k pos. induction tok as [|c tok IH]; intros k pos E Hall Hk.
  - simpl in E. destruct (token_first pos _ post E) as [Hc _].
    pose proof (lookup_lt_Some _ _ _ Hc) as Hlt.
    destruct k as [|k]; [lia|]. simpl. rewrite charAt_chars. fold chars. rewrite Hc.
    rewrite Nat.add_0_r. reflexivity.
  - destruct (token_first pos c (tok ++ Js.dquote :: post) E) as [Hc E'].
    apply Forall_cons in Hall as [[Hq Hb] Hall].
    pose proof (lookup_lt_Some _ _ _ Hc) as Hlt.
    destruct k as [|k]; [lia|]. simpl. rewrite charAt_chars. fold chars. rewrite Hc, Hq, Hb.
    rewrite (IH k (S pos) E' Hall ltac:(lia)). lia.
Qed.

End Tokens.

Lemma replaceEscape_plain (c r : ascii) (s : string) :
  Forall (fun a => Ascii.eqb a "\" = false) (list_ascii_of_string s) ->
  replaceEscape c r s = s.
Proof.
  induction s as [|a s IH]; intros Hall; [reflexivity|].
  simpl in Hall. apply Forall_cons in Hall as [Ha Hall].
  simpl. rewrite Ha. simpl. destruct s as [|b s]; [reflexivity|].
  rewrite (IH Hall). reflexivity.
Qed.

Lemma LispVal_nested_ind (P : LispVal -> Prop) :
  (forall name, P (mkSym name)) ->
  (forall value, P (mkNum value)) ->
  (forall value, P (mkStr value)) ->
  (forall elements, Forall P elements -> P (mkList elements)) ->
  (forall params body, P body -> P (FUNC params body)) ->
  (forall fn, P (PRIMITIVE fn)) ->
  (forall value, P (mkBool value)) ->
  P mkNull -> P undefined ->
  forall v, P v.
Proof.
  intros Hsym Hnum Hstr Hlist Hfunc Hprim Hbool Hnull Hundef.
  fix IH 1. intros [name | n | s | elements | params body | fn | b | |].
  - apply Hsym.
  - apply Hnum.
  - apply Hstr.
  - apply Hlist. induction elements as [|e elements IHl]; constructor; [apply IH|exact IHl].
  - apply Hfunc. apply IH.
  - apply Hprim.
  - apply Hbool.
  - apply Hnull.
  - apply Hundef.
Qed.

Lemma numeralChar_atom (c : ascii) :
  numeralChar c = true ->
  isAtomChar c = true /\ Ascii.eqb c Js.dquote = false /\ Ascii.eqb c "'" = false.
Proof.
  destruct c as [[] [] [] [] [] [] [] []]; vm_compute; intros E;
    try discriminate E; repeat split.
Qed.

Lemma allDigits_chars (s : string) :
  Js.allDigits s = true -> Forall (fun c => numeralChar c = true) (list_ascii_of_string s).
Proof.
  induction s as [|c s IH]; simpl; intros E; [constructor|].
  apply andb_true_iff in E as [Hd Hs]. constructor; [|apply IH; exact Hs].
  unfold numeralChar. rewrite Hd. reflexivity.
Qed.

Lemma splitDot_chars (s : string) :
  Js.allDigits (fst (Js.splitDot s)) = true ->
  match snd (Js.splitDot s) with Some f => Js.allDigits f = true | None => True end ->
  Forall (fun c => numeralChar c = true) (list_ascii_of_string s).
Proof.
  induction s as [|c s IH]; simpl; intros Hi Hf; [constructor|].
  destruct (Ascii.eqb c ".") eqn:Hdot.
  - simpl in Hf. constructor; [|apply allDigits_chars; exact Hf].
    unfold numeralChar. rewrite Hdot. apply orb_true_r.
  - destruct (Js.splitDot s) as [a b]. simpl in *.
    apply andb_true_iff in Hi as [Hd Ha]. constructor; [|apply IH; assumption].
    unfold numeralChar. rewrite Hd. reflexivity.
Qed.

Lemma nonEmptyDigits_allDigits (s : string) :
  Js.nonEmptyDigits s = true -> Js.allDigits s = true.
Proof. destruct s; simpl; [discriminate|tauto]. Qed.

(** A text accepted as a numeral is not empty and holds numeral characters
    only. *)
Lemma numericToken_chars (t : string) :
  Js.isNumericToken t = true ->
  t <> EmptyString /\ Forall (fun c => numeralChar c = true) (list_ascii_of_string t).
Proof.
  assert (Body : forall body,
            match Js.splitDot body with
            | (ip, None) => Js.nonEmptyDigits ip
            | (ip, Some fp) => Js.nonEmptyDigits ip && Js.nonEmptyDigits fp
            end = true ->
            Forall (fun c => numeralChar c = true) (list_ascii_of_string body)).
  { intros body E. apply splitDot_chars; destruct (Js.splitDot body) as [ip [fp|]]; simpl.
    - apply andb_true_iff in E as [E _]. apply nonEmptyDigits_allDigits. exact E.
    - apply nonEmptyDigits_allDigits. exact E.
    - apply andb_true_iff in E as [_ E]. apply nonEmptyDigits_allDigits. exact E.
    - exact I. }
  unfold Js.isNumericToken. destruct t as [|c r]; [simpl; discriminate|].
  intros E. split; [discriminate|].
  destruct (Ascii.eqb c "-") eqn:Hm.
  - simpl. constructor; [|apply Body; exact E].
    unfold numeralChar. rewrite Hm. rewrite orb_true_r. reflexivity.
  - apply Body. exact E.
Qed.

Section ReadingTokens.

Variable input : string.

Let chars : list ascii := list_ascii_of_string input.

(** Before an expression that starts at [pos] there is no white space to
    skip. *)
Lemma skipWhitespace_at_expr (pos : nat) (c : ascii) (rest : list ascii) :
  drop pos chars = c :: rest -> Js.isSpace c = false -> skipWhitespace input pos = pos.
Proof.
  intros E Hs. unfold skipWhitespace.
  rewrite (scanWhile_token input Js.isSpace [] (c :: rest) _ pos E ltac:(constructor) Hs).
  - simpl. lia.
  - rewrite length_input. fold chars. lia.
Qed.

(** An atom is read whole and classified by its text. *)
Lemma parseExprBody_atom (self : nat -> Outcome (LispVal * nat)) (pos : nat)
    (t : string) (post : list ascii) :
  drop pos chars = list_ascii_of_string t ++ post ->
  t <> EmptyString ->
  Forall (fun c => isAtomChar c = true /\ Ascii.eqb c Js.dquote = false
                   /\ Ascii.eqb c "'" = false) (list_ascii_of_string t) ->
  delimited post ->
  parseExprBody input self pos = Return (atomValue t, pos + length (list_ascii_of_string t)).
Proof.
  intros E Hne Hall Hpost.
  destruct t as [|c r]; [congruence|]. simpl in E.
  pose proof Hall as Hall'. simpl in Hall'. apply Forall_cons in Hall' as [(Ha & Hq & Ht) _].
  assert (Hs : Js.isSpace c = false /\ Ascii.eqb c "(" = false).
  { unfold isAtomChar in Ha. apply negb_true_iff in Ha.
    destruct (Js.isSpace c); [discriminate Ha|]. destruct (Ascii.eqb c ")"); [discriminate Ha|].
    destruct (Ascii.eqb c "("); [discriminate Ha|]. auto. }
  destruct Hs as [Hs Ho].
  destruct (token_first input pos c _ E) as [Hc _].
  unfold parseExprBody. cbv zeta. rewrite (skipWhitespace_at_expr pos c _ E Hs).
  rewrite charAt_chars. rewrite Hc, Hq, Ho, Ht.
  unfold parseAtom. cbv zeta.
  rewrite (scanWhile_token input isAtomChar (list_ascii_of_string (String c r)) post _ pos E).
  - rewrite (sliceNat_token input (String c r) post pos E). reflexivity.
  - eapply Forall_impl; [exact Hall|]. simpl. tauto.
  - exact Hpost.
  - rewrite length_input. fold chars. lia.
Qed.

(** A string without double quote and backslash is read as it stands. *)
Lemma parseExprBody_string (self : nat -> Outcome (LispVal * nat)) (pos : nat)
    (s : string) (post : list ascii) :
  drop pos chars
    = list_ascii_of_string (Js.quoteChar +:+ s +:+ Js.quoteChar) ++ post ->
  plainString s ->
  parseExprBody input self pos
    = Return (mkStr s, pos + length (list_ascii_of_string (Js.quoteChar +:+ s +:+ Js.quoteChar))).
Proof.
  intros E Hs. rewrite !chars_append in E |- *. simpl in E.
  destruct (token_first input pos _ _ E) as [Hc E'].
  unfold parseExprBody. cbv zeta.
  rewrite (skipWhitespace_at_expr pos _ _ E ltac:(reflexivity)).
  rewrite charAt_chars. rewrite Hc.
  change (Ascii.eqb Js.dquote Js.dquote) with true. cbv iota.
  unfold parseString. cbv zeta. rewrite <- app_assoc in E'. simpl in E'.
  rewrite (stringEnd_token input (list_ascii_of_string s) post _ (S pos) E' Hs)
    by (rewrite length_input; fold chars; lia).
  rewrite (sliceNat_token input s (Js.dquote :: post) (S pos) E').
  rewrite !replaceEscape_plain.
  - f_equal. f_equal. rewrite !length_app. simpl. lia.
  - eapply Forall_impl; [exact Hs|]. simpl. tauto.
  - rewrite replaceEscape_plain; [|eapply Forall_impl; [exact Hs|]; simpl; tauto].
    eapply Forall_impl; [exact Hs|]. simpl. tauto.
Qed.

End ReadingTokens.

Lemma printLisp_list (vs : list LispVal) :
  printLisp (mkList vs)
    = bindO (mapO printLisp vs) (fun parts => Return ("(" +:+ Js.join " " parts +:+ ")")).
Proof.
  simpl. f_equal. induction vs as [|v vs IH]; [reflexivity|].
  simpl. destruct (printLisp v); try reflexivity. simpl. rewrite IH. reflexivity.
Qed.

Lemma mapO_Return {A B} (f : A -> Outcome B) (l : list A) (r : list B) :
  mapO f l = Return r -> Forall2 (fun a b => f a = Return b) l r.
Proof.
  revert r. induction l as [|a l IH]; simpl; intros r E.
  - injection E as <-. constructor.
  - destruct (f a) as [b| | |] eqn:Fa; simpl in E; try discriminate E.
    destruct (mapO f l) as [bs| | |]; simpl in E; try discriminate E.
    injection E as <-. constructor; [exact Fa|apply IH; reflexivity].
Qed.

(** The text of a list behind its first element: nothing, or a space and
    the other elements. *)
Lemma chars_join (t : string) (ts : list string) :
  list_ascii_of_string (Js.join " " (t :: ts))
    = list_ascii_of_string t
      ++ match ts with
         | [] => []
         | _ => " "%char :: list_ascii_of_string (Js.join " " ts)
         end.
Proof.
  destruct ts as [|t' ts]; [simpl; rewrite app_nil_r; reflexivity|].
  change (Js.join " " (t :: t' :: ts)) with (t +:+ " " +:+ Js.join " " (t' :: ts)).
  rewrite !chars_append. reflexivity.
Qed.

(** The loop of [parseList] over the printed elements of a list, every
    element but the first behind one space, up to the closing parenthesis. *)
Lemma parseList_elements (input : string) (f : nat) (vs : list LispVal) (ts : list string) :
  Forall ReadsBack vs ->
  Forall2 (fun v t => printLisp v = Return t) vs ts ->
  forall (sp : list ascii) (acc : list LispVal) (pos : nat) (post : list ascii) (k : nat),
    Forall (fun c => Js.isSpace c = true) sp ->
    drop pos (list_ascii_of_string input)
      = sp ++ list_ascii_of_string (Js.join " " ts) ++ ")"%char :: post ->
    length (list_ascii_of_string input) - pos <= k ->
    length (list_ascii_of_string input) + 1 - pos <= f ->
    parseList input (parseExpr input f) k pos acc
      = Return (mkList (acc ++ vs),
                pos + length sp + length (list_ascii_of_string (Js.join " " ts)) + 1).
Proof.
  intros Hall Hprint. revert Hall.
  induction Hprint as [|v t vs ts Hv Hvs IH]; intros Hall sp acc pos post k Hsp E Hk Hf.
  - simpl in E. rewrite app_nil_r. simpl.
    assert (Hlt : pos < length (list_ascii_of_string input)).
    { destruct (Nat.lt_ge_cases pos (length (list_ascii_of_string input))) as [?|Hge];
        [assumption|].
      rewrite drop_ge in E by lia. destruct sp; discriminate E. }
    destruct k as [|k]; [lia|]. simpl. rewrite length_input.
    destruct (Nat.leb_spec (length (list_ascii_of_string input)) pos) as [?|_]; [lia|].
    unfold skipWhitespace.
    rewrite (scanWhile_token input Js.isSpace sp (")"%char :: post) _ pos E Hsp
               ltac:(reflexivity)) by (rewrite length_input; lia).
    assert (Hc : list_ascii_of_string input !! (pos + length sp) = Some ")"%char).
    { rewrite <- lookup_drop, E, lookup_app_r by lia.
      replace (length sp - length sp) with 0 by lia. reflexivity. }
    rewrite charAt_chars, Hc. simpl. f_equal. f_equal. lia.
  - apply Forall_cons in Hall as [Rv Hall].
    destruct (Rv t Hv) as [(c & rest & Ht & Hs & Hp) Hread].
    rewrite chars_join, Ht in E. rewrite chars_join.
    set (sp' := match ts with [] => [] | _ => [" "%char] end).
    set (tail' := sp' ++ list_ascii_of_string (Js.join " " ts) ++ ")"%char :: post).
    assert (Etail : (match ts with
                     | [] => []
                     | _ => " "%char :: list_ascii_of_string (Js.join " " ts)
                     end) ++ ")"%char :: post = tail').
    { unfold tail', sp'. destruct ts; reflexivity. }
    assert (E1 : drop pos (list_ascii_of_string input) = sp ++ c :: rest ++ tail').
    { rewrite E, <- Etail. simpl. rewrite <- !app_assoc. reflexivity. }
    assert (Hlt : pos < length (list_ascii_of_string input)).
    { destruct (Nat.lt_ge_cases pos (length (list_ascii_of_string input))) as [?|Hge];
        [assumption|].
      rewrite drop_ge in E1 by lia. destruct sp; discriminate E1. }
    destruct k as [|k]; [lia|]. simpl. rewrite length_input.
    destruct (Nat.leb_spec (length (list_ascii_of_string input)) pos) as [?|_]; [lia|].
    unfold skipWhitespace.
    rewrite (scanWhile_token input Js.isSpace sp (c :: rest ++ tail') _ pos E1 Hsp Hs)
      by (rewrite length_input; lia).
    assert (E2 : drop (pos + length sp) (list_ascii_of_string input)
                 = list_ascii_of_string t ++ tail').
    { rewrite <- drop_drop, E1, drop_app_length, Ht. reflexivity. }
    assert (Hc : list_ascii_of_string input !! (pos + length sp) = Some c).
    { rewrite Ht in E2. apply (token_first input _ _ _ E2). }
    rewrite charAt_chars, Hc, Hp.
    assert (Hdel : delimited tail').
    { unfold tail', sp'. destruct ts; reflexivity. }
    rewrite (Hread input (pos + length sp) tail' f E2 Hdel ltac:(lia)).
    assert (Hsp' : Forall (fun c => Js.isSpace c = true) sp').
    { unfold sp'. destruct ts; repeat constructor. }
    rewrite (IH Hall sp' (acc ++ [v]) (pos + length sp + length (list_ascii_of_string t))
               post k Hsp').
    + f_equal. f_equal; [rewrite <- app_assoc; reflexivity|].
      rewrite length_app. unfold sp'. destruct ts; simpl; lia.
    + rewrite <- drop_drop, E2, drop_app_length. reflexivity.
    + pose proof (f_equal length Ht) as Lt. simpl in Lt. lia.
    + lia.
Qed.

Lemma positive_fuel (input : string) (pos fuel : nat) (c : ascii) (rest : list ascii) :
  drop pos (list_ascii_of_string input) = c :: rest ->
  length (list_ascii_of_string input) + 1 - pos <= fuel ->
  exists f, fuel = S f /\ length (list_ascii_of_string input) + 1 - S pos <= f.
Proof.
  intros E Hf. destruct (token_first input pos c rest E) as [Hc _].
  apply lookup_lt_Some in Hc. destruct fuel as [|f]; [lia|]. exists f. split; [reflexivity|lia].
Qed.

(** An atom is read back when its printed text holds atom characters only
    and is classified as the atom. *)
Lemma atom_reads_back (v : LispVal) (t : string) :
  printLisp v = Return t ->
  t <> EmptyString ->
  Forall (fun c => isAtomChar c = true /\ Ascii.eqb c Js.dquote = false
                   /\ Ascii.eqb c "'" = false) (list_ascii_of_string t) ->
  atomValue t = v ->
  ReadsBack v.
Proof.
  intros Hp Hne Hall Hv t' Ht'. rewrite Hp in Ht'. injection Ht' as <-.
  destruct t as [|c r]; [congruence|]. split.
  - exists c, (list_ascii_of_string r). split; [reflexivity|].
    simpl in Hall. apply Forall_cons in Hall as [(Ha & _) _].
    unfold isAtomChar in Ha. apply negb_true_iff in Ha.
    destruct (Js.isSpace c); [discriminate Ha|]. destruct (Ascii.eqb c ")"); [discriminate Ha|].
    auto.
  - intros input pos post fuel E Hpost Hf.
    destruct (positive_fuel input pos fuel c _ E Hf) as (f & -> & _).
    simpl parseExpr. rewrite <- Hv.
    apply (parseExprBody_atom input _ pos (String c r) post E Hne Hall Hpost).
Qed.

(** Every readable value is read back from its printed text. *)
Lemma readable_reads_back (v : LispVal) : Readable v -> ReadsBack v.
Proof.
  induction v as [name | n | s | vs IH | params body _ | fn | b | |]
    using LispVal_nested_ind; intros R; inversion R; subst.
  - (* a plain number *)
    match goal with H : plainNumber n |- _ => destruct H as [Hnum Hback] end.
    destruct (numericToken_chars _ Hnum) as [Hne Hall].
    apply (atom_reads_back (mkNum n) (Js.numberToString n)); [reflexivity|exact Hne| |].
    + eapply Forall_impl; [exact Hall|]. intros c Hc. apply numeralChar_atom. exact Hc.
    + unfold atomValue.
      destruct (String.eqb_spec (Js.numberToString n) "t") as [E|_];
        [rewrite E in Hnum; discriminate Hnum|].
      destruct (String.eqb_spec (Js.numberToString n) "nil") as [E|_];
        [rewrite E in Hnum; discriminate Hnum|].
      rewrite Hnum, Hback. reflexivity.
  - (* a plain string *)
    match goal with H : plainString s |- _ => rename H into Hs end.
    intros t Ht. simpl in Ht. injection Ht as <-. split.
    + exists Js.dquote, (list_ascii_of_string (s +:+ Js.quoteChar)).
      split; [reflexivity|]. split; reflexivity.
    + intros input pos post fuel E _ Hf.
      assert (E' : drop pos (list_ascii_of_string input)
                   = Js.dquote :: list_ascii_of_string (s +:+ Js.quoteChar) ++ post)
        by exact E.
      destruct (positive_fuel input pos fuel _ _ E' Hf) as (f & -> & _).
      simpl parseExpr. apply (parseExprBody_string input _ pos s post E Hs).
  - (* a list of readable values *)
    match goal with H : Forall Readable vs |- _ => rename H into Rs end.
    assert (Hall : Forall ReadsBack vs).
    { clear R. induction IH as [|v vs Hv _ IHvs]; [constructor|].
      apply Forall_cons in Rs as [Rv Rs]. constructor; [apply Hv; exact Rv|apply IHvs; exact Rs]. }
    intros t Ht. rewrite printLisp_list in Ht.
    destruct (mapO printLisp vs) as [ts| | |] eqn:Hts; simpl in Ht; try discriminate Ht.
    injection Ht as <-. apply mapO_Return in Hts. split.
    + exists "("%char, (list_ascii_of_string (Js.join " " ts +:+ ")")).
      split; [reflexivity|]. split; reflexivity.
    + intros input pos post fuel E _ Hf.
      assert (E' : drop pos (list_ascii_of_string input)
                   = "("%char :: list_ascii_of_string (Js.join " " ts) ++ ")"%char :: post).
      { rewrite E, !chars_append. simpl. rewrite <- app_assoc. reflexivity. }
      destruct (positive_fuel input pos fuel _ _ E' Hf) as (f & -> & Hf').
      destruct (token_first input pos _ _ E') as [Hc E''].
      simpl parseExpr. unfold parseExprBody. cbv zeta.
      rewrite (skipWhitespace_at_expr input pos _ _ E' ltac:(reflexivity)).
      rewrite charAt_chars, Hc.
      change (Ascii.eqb "(" Js.dquote) with false. change (Ascii.eqb "(" "(") with true.
      cbv iota.
      rewrite (parseList_elements input f vs ts Hall Hts [] [] (S pos) post
                 (Js.length input - S pos) ltac:(constructor) E''
                 ltac:(rewrite length_input; lia) Hf').
      f_equal. f_equal. rewrite !chars_append, !length_app. simpl. lia.
  - (* Bool(true) *)
    apply (atom_reads_back (mkBool true) "t"); [reflexivity|discriminate| |reflexivity].
    repeat constructor.
  - (* Nil *)
    apply (atom_reads_back mkNull "nil"); [reflexivity|discriminate| |reflexivity].
    repeat constructor.
Qed.

(** The reader gives a readable value back from its printed text. *)
Lemma parse_printLisp (v : LispVal) :
  Readable v -> exists t, printLisp v = Return t /\ parse t = Return v.
Proof.
  intros R.
  assert (Ht : exists t, printLisp v = Return t).
  { induction v as [name | n | s | vs IH | params body _ | fn | b | |]
      using LispVal_nested_ind; inversion R; subst; try (eexists; reflexivity).
    match goal with H : Forall Readable vs |- _ => rename H into Rs end.
    rewrite printLisp_list.
    assert (Hts : exists ts, mapO printLisp vs = Return ts).
    { clear R. induction IH as [|v vs Hv _ IHvs]; [exists []; reflexivity|].
      apply Forall_cons in Rs as [Rv Rs].
      destruct (Hv Rv) as [t Et]. destruct (IHvs Rs) as [ts Ets].
      exists (t :: ts). simpl. rewrite Et. simpl. rewrite Ets. reflexivity. }
    destruct Hts as [ts ->]. eexists. reflexivity. }
  destruct Ht as [t Ht]. exists t. split; [exact Ht|].
  destruct (readable_reads_back v R t Ht) as [_ Hread].
  unfold parse.
  rewrite (Hread t 0 [] (S (Js.length t)) ltac:(simpl; rewrite app_nil_r; reflexivity) I
             ltac:(rewrite length_input; lia)).
  reflexivity.
Qed.

Section RoundTrip.

Context {Host : Type} {api : EmacsAPI.t Host}.

(** C2, as far as it holds: evaluating [parse(printLisp(v))] yields [v], in
    any environment, when [v] is Nil, Bool(true), a Number whose printed
    text is a decimal numeral that denotes it again, or a String without
    double quote and backslash; for a List of such values, nested to any
    depth, [parse(printLisp(v))] is [v] itself, before any evaluation. *)
Theorem C2_readable_values_read_back :
  (forall v, Readable v -> exists t, printLisp v = Return t /\ parse t = Return v) /\
  (forall v, Readable v -> (forall vs, v <> mkList vs) ->
     forall fuel (s : LispEnv * Host), readBack (S fuel) v s = Return v).
Proof.
  split; [exact parse_printLisp|].
  intros v R Hl fuel s. destruct (parse_printLisp v R) as (t & Hp & Hr).
  unfold readBack. rewrite Hp. simpl. rewrite Hr. simpl.
  inversion R; subst; try reflexivity.
  exfalso. eapply Hl. reflexivity.
Qed.

End RoundTrip.

(** ** The reader on whole inputs *)

Lemma skipWhitespace_blanks (input : string) (sp rest : list ascii) :
  list_ascii_of_string input = sp ++ rest ->
  Forall (fun c => Js.isSpace c = true) sp ->
  match rest with [] => True | c :: _ => Js.isSpace c = false end ->
  skipWhitespace input 0 = length sp.
Proof.
  intros E Hsp Hrest. unfold skipWhitespace.
  rewrite (scanWhile_token input Js.isSpace sp rest _ 0 E Hsp Hrest); [reflexivity|].
  rewrite length_input. lia.
Qed.

(** X1: an input that is empty or holds white space only reads as Nil. *)
Theorem X1_blank_input_reads_as_nil (input : string) :
  blank input -> parse input = Return mkNull.
Proof.
  intros Hb. unfold parse. simpl parseExpr. unfold parseExprBody. cbv zeta.
  rewrite (skipWhitespace_blanks input (list_ascii_of_string input) []
             ltac:(rewrite app_nil_r; reflexivity) Hb I).
  rewrite charAt_chars, lookup_ge_None_2 by lia. reflexivity.
Qed.

(** The reader starts where the white space ends. *)
Lemma parseExprBody_skip (input : string) (self : nat -> Outcome (LispVal * nat))
    (pos pos' : nat) :
  skipWhitespace input pos = skipWhitespace input pos' ->
  parseExprBody input self pos = parseExprBody input self pos'.
Proof. intros E. unfold parseExprBody. cbv zeta. rewrite E. reflexivity. Qed.

(** X2: the reader returns the first expression of its input: white space
    before the printed text of a readable value is skipped, and whatever
    follows the text behind a delimiter is not looked at. *)
Theorem X2_parse_reads_first_expression (v : LispVal) (t blanks rest : string) :
  Readable v -> printLisp v = Return t ->
  blank blanks -> delimited (list_ascii_of_string rest) ->
  parse (blanks +:+ t +:+ rest) = Return v.
Proof.
  intros R Ht Hb Hd.
  destruct (readable_reads_back v R t Ht) as [(c & cs & Ec & Hc & _) Hread].
  set (input := blanks +:+ t +:+ rest).
  assert (E : list_ascii_of_string input
              = list_ascii_of_string blanks
                ++ (list_ascii_of_string t ++ list_ascii_of_string rest)).
  { unfold input. rewrite !chars_append. reflexivity. }
  set (n := length (list_ascii_of_string blanks)).
  assert (Es : skipWhitespace input 0 = n).
  { apply (skipWhitespace_blanks input _ _ E Hb). rewrite Ec. exact Hc. }
  assert (Ed : drop n (list_ascii_of_string input)
               = list_ascii_of_string t ++ list_ascii_of_string rest).
  { rewrite E. apply drop_app_length. }
  assert (Es' : skipWhitespace input n = n).
  { apply (skipWhitespace_at_expr input n c (cs ++ list_ascii_of_string rest)); [|exact Hc].
    rewrite Ed, Ec. reflexivity. }
  unfold parse. simpl parseExpr.
  rewrite (parseExprBody_skip input _ 0 n) by (rewrite Es, Es'; reflexivity).
  change (parseExprBody input (parseExpr input (Js.length input)) n)
    with (parseExpr input (S (Js.length input)) n).
  rewrite (Hread input n _ (S (Js.length input)) Ed Hd
             ltac:(rewrite length_input; lia)).
  reflexivity.
Qed.

Lemma parse_quoted (v : LispVal) (t : string) :
  Readable v -> printLisp v = Return t ->
  parse (String "'" t) = Return (mkList [mkSym "quote"; v]).
Proof.
  intros R Ht. destruct (readable_reads_back v R t Ht) as [_ Hread].
  set (input := String "'" t).
  assert (E : drop 1 (list_ascii_of_string input) = list_ascii_of_string t ++ [])
    by (rewrite app_nil_r; reflexivity).
  unfold parse.
  change (parseExpr input (S (Js.length input)) 0)
    with (parseExprBody input (parseExpr input (Js.length input)) 0).
  unfold parseExprBody. cbv zeta.
  rewrite (skipWhitespace_at_expr input 0 "'" (list_ascii_of_string t))
    by reflexivity.
  rewrite charAt_chars. change (list_ascii_of_string input !! 0) with (Some "'"%char).
  change (Ascii.eqb "'" Js.dquote) with false. change (Ascii.eqb "'" "(") with false.
  change (Ascii.eqb "'" "'") with true. cbv iota. unfold parseQuote.
  rewrite (Hread input 1 [] (Js.length input) E I
             ltac:(rewrite length_input; lia)).
  reflexivity.
Qed.

Section QuotedText.

Context {Host : Type} {api : EmacsAPI.t Host}.

(** X3: behind a quote mark the printed text of every readable value, a
    list included, reads as the [quote] form of the value, and evaluating
    that form gives the value back and changes nothing. *)
Theorem X3_quoted_text_evaluates_to_the_value (v : LispVal) :
  Readable v ->
  exists t,
    printLisp v = Return t /\
    parse (String "'" t) = Return (mkList [mkSym "quote"; v]) /\
    forall fuel (s : LispEnv * Host),
      evalLisp (S fuel) (mkList [mkSym "quote"; v]) s = (Return v, s).
Proof.
  intros R. destruct (parse_printLisp v R) as (t & Ht & _). exists t.
  split; [exact Ht|]. split; [exact (parse_quoted v t R Ht)|reflexivity].
Qed.

End QuotedText.

(** What the reader returns is built from symbols, numbers, strings,
    Bool(true), Nil and lists. *)
Lemma parseList_syntax (input : string) (self : nat -> Outcome (LispVal * nat)) :
  (forall pos v pos', self pos = Return (v, pos') -> Syntax v) ->
  forall k pos elements v pos',
    Forall Syntax elements ->
    parseList input self k pos elements = Return (v, pos') -> Syntax v.
Proof.
  intros Hself. induction k as [|k IH]; intros pos elements v pos' Hel H; simpl in H.
  - destruct (Js.length input <=? pos); discriminate H.
  - destruct (Js.length input <=? pos); [discriminate H|].
    destruct (match Js.charAt input (skipWhitespace input pos) with
              | Some c => Ascii.eqb c ")" | None => false end).
    + injection H as <- _. constructor. exact Hel.
    + destruct (self (skipWhitespace input pos)) as [[e p]| | |] eqn:He; try discriminate H.
      apply (IH _ _ _ _ ltac:(apply Forall_app; split;
                                [exact Hel|constructor; [eapply Hself, He|constructor]]) H).
Qed.

Lemma parseExpr_syntax (input : string) (fuel pos : nat) (v : LispVal) (pos' : nat) :
  parseExpr input fuel pos = Return (v, pos') -> Syntax v.
Proof.
  revert pos v pos'. induction fuel as [|f IH]; intros pos v pos' H; [discriminate H|].
  simpl in H. unfold parseExprBody in H. cbv zeta in H.
  destruct (Js.charAt input (skipWhitespace input pos)) as [c|].
  - destruct (Ascii.eqb c Js.dquote).
    { injection H as <- _. constructor. }
    destruct (Ascii.eqb c "(").
    { apply (parseList_syntax input _ IH _ _ _ _ _ ltac:(constructor) H). }
    destruct (Ascii.eqb c "'").
    { unfold parseQuote in H.
      destruct (parseExpr input f (S (skipWhitespace input pos))) as [[e p]| | |] eqn:He;
        try discriminate H.
      injection H as <- _. repeat constructor. eapply IH, He. }
    unfold parseAtom in H. cbv zeta in H. injection H as <- _.
    repeat match goal with |- Syntax (if ?b then _ else _) => destruct b end; constructor.
  - injection H as <- _. constructor.
Qed.

(** X4: whatever the input, a value the reader returns is built from
    symbols, numbers, strings, Bool(true), Nil and lists of such: it holds
    no Bool(false), no function, no builtin and no [undefined]. *)
Theorem X4_parse_returns_syntax (input : string) (v : LispVal) :
  parse input = Return v -> Syntax v.
Proof.
  unfold parse. intros H.
  destruct (parseExpr input (S (Js.length input)) 0) as [[e p]| | |] eqn:He;
    try discriminate H.
  injection H as <-. eapply parseExpr_syntax, He.
Qed.

(** ** The printer *)

Lemma mapO_printLisp (vs : list LispVal) :
  Forall (fun v => if hasUndefined v then printLisp v = Throw TypeError
                   else exists t, printLisp v = Return t) vs ->
  if existsb hasUndefined vs then mapO printLisp vs = Throw TypeError
  else exists ts, mapO printLisp vs = Return ts.
Proof.
  induction 1 as [|v vs Hv _ IH]; simpl; [exists []; reflexivity|].
  destruct (hasUndefined v); simpl.
  - rewrite Hv. reflexivity.
  - destruct Hv as [t ->]. simpl. destruct (existsb hasUndefined vs).
    + rewrite IH. reflexivity.
    + destruct IH as [ts ->]. exists (t :: ts). reflexivity.
Qed.

(** X5: the printer throws a TypeError exactly on [undefined] and on the
    lists that hold an [undefined] element at some depth; every other value
    has a printed text. *)
Theorem X5_printLisp_fails_on_undefined_only (v : LispVal) :
  if hasUndefined v then printLisp v = Throw TypeError
  else exists t, printLisp v = Return t.
Proof.
  induction v as [name | n | s | vs IH | params body _ | fn | b | |]
    using LispVal_nested_ind; try (simpl; eexists; reflexivity).
  rewrite printLisp_list. change (hasUndefined (mkList vs)) with (existsb hasUndefined vs).
  pose proof (mapO_printLisp vs IH) as H. destruct (existsb hasUndefined vs).
  - rewrite H. reflexivity.
  - destruct H as [ts ->]. eexists. reflexivity.
Qed.

(** ** The tokenizer *)

Lemma string_app_assoc (a b c : string) : (a +:+ b) +:+ c = a +:+ (b +:+ c).
Proof. apply chars_inj. rewrite !chars_append. symmetry. apply app_assoc. Qed.

Lemma replaceAll_app (c : ascii) (r a b : string) :
  replaceAll c r (a +:+ b) = replaceAll c r a +:+ replaceAll c r b.
Proof.
  induction a as [|x a IH]; simpl; [reflexivity|].
  rewrite IH. symmetry. apply string_app_assoc.
Qed.

Lemma padded_cons (a : ascii) (rest : string) :
  padded (String a rest)
    = (if Ascii.eqb a "(" then " ( "
       else if Ascii.eqb a ")" then " ) "
       else if Ascii.eqb a "'" then " ' "
       else String a EmptyString) +:+ padded rest.
Proof.
  unfold padded.
  change (replaceAll "(" " ( " (String a rest))
    with ((if Ascii.eqb a "(" then " ( " else String a EmptyString)
          +:+ replaceAll "(" " ( " rest).
  rewrite !replaceAll_app. f_equal.
  destruct (Ascii.eqb a "("); [reflexivity|]. simpl.
  destruct (Ascii.eqb a ")"); [reflexivity|]. simpl.
  destruct (Ascii.eqb a "'"); reflexivity.
Qed.

Lemma chars_replaceAll_unspaced (c : ascii) (s : string) :
  Js.isSpace c = false ->
  List.filter (fun x => negb (Js.isSpace x))
    (list_ascii_of_string
       (replaceAll c (String " " (String c (String " " EmptyString))) s))
  = List.filter (fun x => negb (Js.isSpace x)) (list_ascii_of_string s).
Proof.
  intros Hc. induction s as [|a s IH]; [reflexivity|].
  simpl replaceAll. rewrite chars_append, List.filter_app, IH.
  destruct (Ascii.eqb a c) eqn:E.
  - apply Ascii.eqb_eq in E as ->. simpl. rewrite Hc. reflexivity.
  - simpl. destruct (Js.isSpace a); reflexivity.
Qed.

Lemma splitSpaces_unspaced (s piece : string) (inRun : bool) :
  (inRun = true -> piece = EmptyString) ->
  concat (map list_ascii_of_string
            (List.filter (fun t => 0 <? Js.length t) (splitSpaces s piece inRun)))
  = list_ascii_of_string piece
    ++ List.filter (fun x => negb (Js.isSpace x)) (list_ascii_of_string s).
Proof.
  assert (Hpiece : forall p tl,
    concat (map list_ascii_of_string (List.filter (fun t => 0 <? Js.length t) (p :: tl)))
    = list_ascii_of_string p
      ++ concat (map list_ascii_of_string (List.filter (fun t => 0 <? Js.length t) tl))).
  { intros [|x p] tl; reflexivity. }
  revert piece inRun. induction s as [|c s IH]; intros piece inRun Hrun.
  - simpl splitSpaces. rewrite Hpiece. reflexivity.
  - simpl. destruct (Js.isSpace c); simpl.
    + destruct inRun.
      * rewrite (Hrun eq_refl). apply (IH EmptyString true). reflexivity.
      * rewrite Hpiece, (IH EmptyString true) by reflexivity. reflexivity.
    + rewrite (IH _ false) by discriminate. rewrite chars_append. simpl.
      rewrite <- app_assoc. reflexivity.
Qed.

(** X6: the tokens, joined, are the input without its white space: the
    tokenizer neither drops nor invents a character other than white
    space, and keeps the order. *)
Theorem X6_tokenize_keeps_the_text (input : string) :
  concat (map list_ascii_of_string (tokenize input))
  = List.filter (fun c => negb (Js.isSpace c)) (list_ascii_of_string input).
Proof.
  unfold tokenize. rewrite splitSpaces_unspaced by discriminate. simpl.
  rewrite !chars_replaceAll_unspaced by reflexivity. reflexivity.
Qed.

Lemma Token_punctuation (c : ascii) :
  isPunctuation c = true -> Token (String c EmptyString).
Proof. intros H. left. exists c. split; [exact H|reflexivity]. Qed.

Lemma tokens_of_piece (piece : string) (rest : list string) :
  plainWord piece ->
  Forall Token (List.filter (fun t => 0 <? Js.length t) rest) ->
  Forall Token (List.filter (fun t => 0 <? Js.length t) (piece :: rest)).
Proof.
  intros Hp Hrest. destruct piece as [|x piece]; [exact Hrest|].
  simpl. constructor; [|exact Hrest]. right. split; [discriminate|exact Hp].
Qed.

Lemma splitSpaces_padded (s piece : string) (inRun : bool) :
  plainWord piece ->
  Forall Token (List.filter (fun t => 0 <? Js.length t)
                  (splitSpaces (padded s) piece inRun)).
Proof.
  intros Hp0. assert (Hnil : plainWord EmptyString) by constructor.
  assert (Hmark : forall c rest p run,
    isPunctuation c = true -> Js.isSpace c = false -> plainWord p ->
    Forall Token (List.filter (fun t => 0 <? Js.length t)
                    (splitSpaces rest EmptyString true)) ->
    Forall Token (List.filter (fun t => 0 <? Js.length t)
                    (splitSpaces (String " " (String c (String " " rest))) p run))).
  { intros c rest p run Hc Hs Hp Hrest.
    assert (Hone : Forall Token
              (List.filter (fun t => 0 <? Js.length t)
                 (String c EmptyString :: splitSpaces rest EmptyString true))).
    { simpl. constructor; [apply Token_punctuation; exact Hc|exact Hrest]. }
    change (splitSpaces (String " " (String c (String " " rest))) p run)
      with (if run then splitSpaces (String c (String " " rest)) EmptyString true
            else p :: splitSpaces (String c (String " " rest)) EmptyString true).
    assert (E : splitSpaces (String c (String " " rest)) EmptyString true
                = String c EmptyString :: splitSpaces rest EmptyString true).
    { simpl. rewrite Hs. reflexivity. }
    rewrite E. destruct run; [exact Hone|]. apply tokens_of_piece; assumption. }
  revert piece inRun Hp0. induction s as [|a s IH]; intros piece inRun Hp.
  - apply tokens_of_piece; [exact Hp|constructor].
  - rewrite padded_cons.
    destruct (Ascii.eqb a "(") eqn:E1.
    { apply (Hmark "("%char); [reflexivity|reflexivity|exact Hp|apply IH, Hnil]. }
    destruct (Ascii.eqb a ")") eqn:E2.
    { apply (Hmark ")"%char); [reflexivity|reflexivity|exact Hp|apply IH, Hnil]. }
    destruct (Ascii.eqb a "'") eqn:E3.
    { apply (Hmark "'"%char); [reflexivity|reflexivity|exact Hp|apply IH, Hnil]. }
    simpl. destruct (Js.isSpace a) eqn:Es.
    + destruct inRun; [apply IH, Hnil|].
      apply tokens_of_piece; [exact Hp|apply IH, Hnil].
    + apply IH. unfold plainWord. rewrite chars_append. apply Forall_app. split; [exact Hp|].
      constructor; [|constructor]. split; [exact Es|].
      unfold isPunctuation. rewrite E1, E2, E3. reflexivity.
Qed.

(** X7: every token is a single parenthesis or quote mark, or a non-empty
    text that holds no white space, no parenthesis and no quote mark; no
    token is empty. *)
Theorem X7_tokenize_returns_tokens (input : string) :
  Forall Token (tokenize input).
Proof. apply (splitSpaces_padded input EmptyString false). constructor. Qed.

(** ** The expression before the cursor: atoms, strings, and what the
    reader makes of the result *)

Section FinderBranches.

Local Open Scope Z_scope.

Variable text : string.

Let chars : list ascii := list_ascii_of_string text.








End FinderBranches.




(** ** What the reader makes of the expression before the cursor *)




Section FinderReader.

Local Open Scope Z_scope.

Variable text : string.

Let chars : list ascii := list_ascii_of_string text.





End FinderReader.


(** ** The evaluator: variables, sequences, definitions, calls *)

Lemma paramNames_symbols (params : list string) :
  paramNames (map mkSym params) = Return params.
Proof. induction params as [|p ps IH]; simpl; [reflexivity|]. rewrite IH. reflexivity. Qed.

Lemma builtin_lookup (name : string) :
  name ∉ builtinNames -> vars createGlobalEnv !! name = None.
Proof.
  intros Hn. unfold builtinNames in Hn.
  repeat (apply not_elem_of_cons in Hn as [? Hn]).
  unfold createGlobalEnv, register, Env.define. cbn [fold_left vars outer].
  repeat (rewrite lookup_insert_ne by congruence).
  apply lookup_empty.
Qed.

Lemma builtin_bound (name : string) :
  name ∈ builtinNames -> exists fn, Env.get createGlobalEnv name = Return (PRIMITIVE fn).
Proof.
  intros Hn. unfold builtinNames in Hn.
  repeat (apply elem_of_cons in Hn as [->|Hn]; [eexists; vm_compute; reflexivity|]).
  apply elem_of_nil in Hn. contradiction.
Qed.

Lemma builtin_unbound (name : string) :
  name ∉ builtinNames ->
  Env.get createGlobalEnv name = Throw (Error ("Void variable: " +:+ name)).
Proof.
  intros Hn. pose proof (builtin_lookup name Hn) as E.
  assert (G : forall env, outer env = None ->
                Env.get env name = match vars env !! name with
                                   | Some val => Return val
                                   | None => Throw (Error ("Void variable: " +:+ name))
                                   end).
  { intros [vs [o|]] Ho; [discriminate Ho|reflexivity]. }
  rewrite G by reflexivity. rewrite E. reflexivity.
Qed.

Section Evaluation.

Context {Host : Type} {api : EmacsAPI.t Host}.

(** X12: a variable reads what [setq] wrote: after [(setq name e)] the
    symbol [name] evaluates to the value of [e], and every other symbol
    evaluates as it did in the environment [e] left. *)
Theorem X12_setq_then_read (n : nat) (name : string) (e val : LispVal)
    (s : LispEnv * Host) (env1 : LispEnv) (h1 : Host) :
  evalLisp n e s = (Return val, (env1, h1)) ->
  evalLisp (S n) (mkList [mkSym "setq"; mkSym name; e]) s
    = (Return val, (Env.set env1 name val, h1)) /\
  (forall m, evalLisp (S m) (mkSym name) (Env.set env1 name val, h1)
             = (Return val, (Env.set env1 name val, h1))) /\
  (forall m other, other <> name ->
     evalLisp (S m) (mkSym other) (Env.set env1 name val, h1)
       = (Env.get env1 other, (Env.set env1 name val, h1))).
Proof.
  intros He. split; [|split].
  - simpl. unfold bind. rewrite He. reflexivity.
  - intros m. simpl. unfold envGet, Env.set. simpl. rewrite lookup_insert_eq. reflexivity.
  - intros m other Hne. simpl. unfold envGet, Env.set. simpl.
    rewrite lookup_insert_ne by congruence. destruct env1 as [vs o]. reflexivity.
Qed.

(** X13: in the environment [createGlobalEnv] builds, the names of the
    builtins are bound to builtins, and evaluating any other symbol throws
    the error [Void variable] with the name of the symbol and changes
    nothing. *)
Theorem X13_unbound_symbol_in_global_environment :
  (forall name, name ∈ builtinNames ->
     exists fn, Env.get createGlobalEnv name = Return (PRIMITIVE fn)) /\
  (forall name, name ∉ builtinNames ->
     forall fuel (h : Host),
       evalLisp (S fuel) (mkSym name) (createGlobalEnv, h)
         = (Throw (Error ("Void variable: " +:+ name)), (createGlobalEnv, h))).
Proof.
  split; [exact builtin_bound|].
  intros name Hn fuel h.
  change (evalLisp (S fuel) (mkSym name) (createGlobalEnv, h))
    with (Env.get createGlobalEnv name, (createGlobalEnv, h)).
  rewrite (builtin_unbound name Hn). reflexivity.
Qed.

Lemma evalSequence_stops (ev : LispVal -> M Host LispVal) (done : list LispVal)
    (failing : LispVal) (rest : list LispVal) (result : LispVal)
    (s : LispEnv * Host) (vals : list LispVal) (s1 : LispEnv * Host)
    (o : Outcome LispVal) (s2 : LispEnv * Host) :
  Evaluates ev done s vals s1 ->
  ev failing s1 = (o, s2) ->
  (forall v, o <> Return v) ->
  evalSequence ev (done ++ failing :: rest) result s = (o, s2).
Proof.
  intros E Hf Ho. revert result.
  induction E as [s | e es s val s1' vals s' He _ IH]; intros result.
  - simpl. unfold bind. rewrite Hf. destruct o; [exfalso; eapply Ho; reflexivity|..];
      reflexivity.
  - simpl. unfold bind. rewrite He. apply IH. exact Hf.
Qed.

(** X14: [progn] stops at the first form that does not return: the forms
    before it have been evaluated and what they did to the environment and
    to the editor stays, the forms behind it are not evaluated, and the
    [progn] ends as that form ended, in the state that form left. *)
Theorem X14_progn_stops_at_the_first_failure (n : nat) (done : list LispVal)
    (failing : LispVal) (rest : list LispVal)
    (s : LispEnv * Host) (vals : list LispVal) (s1 : LispEnv * Host)
    (o : Outcome LispVal) (s2 : LispEnv * Host) :
  Evaluates (evalLisp n) done s vals s1 ->
  evalLisp n failing s1 = (o, s2) ->
  (forall v, o <> Return v) ->
  evalLisp (S n) (mkList (mkSym "progn" :: done ++ failing :: rest)) s = (o, s2).
Proof. intros E Hf Ho. simpl. eapply evalSequence_stops; eassumption. Qed.

(** X15: [(defun name (p1 ... pk) body...)] evaluates nothing: it binds
    [name], in the current environment, to the function with these
    parameters whose body is the [progn] of the body forms, and returns the
    symbol [name]. A call of [name] afterwards evaluates the arguments in
    the calling environment, then the body forms in order in a child
    environment that binds the parameters, and returns the value of the
    last body form (Nil when there is none); the calling environment is
    current again afterwards. *)
Theorem X15_defun_then_call (n : nat) (name : string) (params : list string)
    (body argExprs : list LispVal) (env : LispEnv) (h : Host) :
  let fn := FUNC params (mkList (mkSym "progn" :: body)) in
  let env' := Env.define env name fn in
  evalLisp (S n)
    (mkList (mkSym "defun" :: mkSym name :: mkList (map mkSym params) :: body)) (env, h)
    = (Return (mkSym name), (env', h)) /\
  (name ∉ specialNames ->
   forall args env1 h1,
     Evaluates (evalLisp (S n)) argExprs (env', h) args (env1, h1) ->
     let child := newLispEnv (bindParams params 0 args ∅) (Some env1) in
     evalLisp (S (S n)) (mkList (mkSym name :: argExprs)) (env', h)
       = (fst (evalSequence (evalLisp n) body mkNull (child, h1)),
          (env1, snd (snd (evalSequence (evalLisp n) body mkNull (child, h1)))))).
Proof.
  intros fn env'. split.
  - simpl. unfold evalDefun, index, bind, lift. simpl.
    rewrite paramNames_symbols. reflexivity.
  - intros Hn args env1 h1 Ha child.
    rewrite (apply_rule (S n) (mkSym name) argExprs (env', h) (env', h) params
               (mkList (mkSym "progn" :: body)) args env1 h1 Hn); [reflexivity| |exact Ha].
    simpl. unfold envGet, env', Env.define. simpl. rewrite lookup_insert_eq. reflexivity.
Qed.

(** X16: a call whose head evaluates to a value that is neither a function
    nor a builtin throws [Invalid function call:] followed by the JSON text
    of the head expression; the arguments have been evaluated before, and
    what they did stays. *)
Theorem X16_invalid_function_call (n : nat) (head : LispVal) (argExprs : list LispVal)
    (s s0 s1 : LispEnv * Host) (fn : LispVal) (args : list LispVal) :
  appliedHead head ->
  evalLisp n head s = (Return fn, s0) ->
  notCallable fn ->
  Evaluates (evalLisp n) argExprs s0 args s1 ->
  evalLisp (S n) (mkList (head :: argExprs)) s
    = (Throw (Error ("Invalid function call: " +:+ jsonStringify head)), s1).
Proof.
  intros Hh Hf Hc Ha.
  assert (E : evalLisp (S n) (mkList (head :: argExprs)) s
              = applyFunction (evalLisp n) head (head :: argExprs) s).
  { simpl. destruct head; try reflexivity; simpl in Hh; [|contradiction].
    rewrite (specialForm_None _ _ _ Hh). reflexivity. }
  rewrite E. unfold applyFunction, bind. rewrite Hf. simpl.
  rewrite (evalArgs_Evaluates _ _ _ _ _ Ha).
  destruct fn; simpl in Hc; try contradiction; reflexivity.
Qed.

(** X17: [cons] puts its first argument in front of the elements of the
    second when that is a list, and returns the one-element list of its
    first argument when the second is any other value: the second argument
    is then dropped, no pair is built. On a list that [cons] built, [car]
    returns the first argument and [cdr] the list it was put in front
    of. *)
Theorem X17_cons_car_cdr (a : LispVal) (l rest : list LispVal) (s : LispEnv * Host) :
  applyPrimitive prim_cons (a :: mkList l :: rest) s = (Return (mkList (a :: l)), s) /\
  (forall b, b <> undefined -> elementsOf b = None ->
     applyPrimitive prim_cons (a :: b :: rest) s = (Return (mkList [a]), s)) /\
  applyPrimitive prim_car [mkList (a :: l)] s = (Return a, s) /\
  applyPrimitive prim_cdr [mkList (a :: l)] s = (Return (mkList l), s).
Proof.
  split; [reflexivity|]. split; [|split; reflexivity].
  intros b Hb He. destruct b; try reflexivity; [discriminate He|contradiction].
Qed.

(** X18: a builtin that reads a field of its first argument without a
    check throws a TypeError, and touches nothing, whenever that argument
    is missing or [undefined]; so does one that reads a field of its second
    argument. Called without arguments, [+], [*] and [list] return 0, 1 and
    the empty list. *)
Theorem X18_builtins_on_missing_arguments (s : LispEnv * Host) :
  (forall fn args, readsFirst fn = true -> index args 0 = undefined ->
     applyPrimitive fn args s = (Throw TypeError, s)) /\
  (forall fn args, readsSecond fn = true -> index args 1 = undefined ->
     applyPrimitive fn args s = (Throw TypeError, s)) /\
  applyPrimitive prim_add [] s = (Return (mkNum 0), s) /\
  applyPrimitive prim_mul [] s = (Return (mkNum 1), s) /\
  applyPrimitive prim_list [] s = (Return (mkList []), s).
Proof.
  split; [|split; [|repeat split; reflexivity]].
  - intros fn args Hf Hu.
    destruct fn; try discriminate Hf;
      unfold applyPrimitive, bind, lift, numberOf; rewrite Hu; reflexivity.
  - intros fn args Hf Hu.
    destruct fn; try discriminate Hf;
      unfold applyPrimitive, bind, lift; rewrite Hu; try reflexivity;
      destruct (index args 0); reflexivity.
Qed.

End Evaluation.

(** ** The editor state changes through the API only *)

Section HostFrame.

Context {Host : Type} {api : EmacsAPI.t Host}.

Variables I B : Host -> Prop.

Hypothesis respected : Respects api I B.

Lemma maintains_pure {A} (m : M Host A) :
  (forall s, snd (snd (m s)) = snd s) -> Maintains I B m.
Proof. intros Hm s Hs. left. rewrite Hm. exact Hs. Qed.

Lemma maintains_bind {A C} (m : M Host A) (k : A -> M Host C) :
  Maintains I B m -> (forall a, Maintains I B (k a)) -> Maintains I B (bind m k).
Proof.
  intros Hm Hk s Hs. unfold bind. specialize (Hm s Hs).
  destruct (m s) as [[a | e | | ] s']; simpl in *.
  - destruct Hm as [Hi|[[] _]]. apply (Hk a s' Hi).
  - exact Hm.
  - exact Hm.
  - exact Hm.
Qed.

Lemma maintains_inChild {A} (newVars : gmap string LispVal) (m : M Host A) :
  Maintains I B m -> Maintains I B (inChild newVars m).
Proof.
  intros Hm s Hs. unfold inChild.
  specialize (Hm (newLispEnv newVars (Some (fst s)), snd s) Hs).
  destruct (m _) as [r [child h]]. exact Hm.
Qed.

Lemma maintains_hostDo (f : Host -> Host) :
  (forall h, I h -> I (f h)) -> Maintains I B (hostDo f).
Proof. intros Hf s Hs. left. apply Hf. exact Hs. Qed.

Lemma maintains_ret {A} (a : A) : Maintains I B (ret a).
Proof. apply maintains_pure. reflexivity. Qed.

Lemma maintains_throw {A} (e : Exn) : Maintains I B (throw (A := A) e).
Proof. apply maintains_pure. reflexivity. Qed.

Lemma maintains_unmodelled {A} : Maintains I B (unmodelled (A := A)).
Proof. apply maintains_pure. reflexivity. Qed.

Lemma maintains_lift {A} (o : Outcome A) : Maintains I B (lift o).
Proof. apply maintains_pure. reflexivity. Qed.

Lemma maintains_hostRead {A} (f : Host -> A) : Maintains I B (hostRead f).
Proof. apply maintains_pure. reflexivity. Qed.

Lemma maintains_envGet (name : string) : Maintains I B (envGet name).
Proof. apply maintains_pure. reflexivity. Qed.

Lemma maintains_envSet (name : string) (val : LispVal) : Maintains I B (envSet name val).
Proof. apply maintains_pure. reflexivity. Qed.

Lemma maintains_envDefine (name : string) (val : LispVal) :
  Maintains I B (envDefine name val).
Proof. apply maintains_pure. reflexivity. Qed.

Lemma maintains_message (msg : string) : Maintains I B (hostDo (EmacsAPI.message msg)).
Proof. apply maintains_hostDo, respected. Qed.

Lemma maintains_insert (text : string) : Maintains I B (hostDo (EmacsAPI.insert text)).
Proof. apply maintains_hostDo, respected. Qed.

Lemma maintains_setCursor (pos : float) : Maintains I B (hostDo (EmacsAPI.setCursor pos)).
Proof. apply maintains_hostDo, respected. Qed.

Lemma maintains_switchBuffer (name : string) :
  Maintains I B (hostDo (EmacsAPI.switchBuffer name)).
Proof. apply maintains_hostDo, respected. Qed.

Lemma maintains_killBuffer (name : string) :
  Maintains I B
    (fun s : LispEnv * Host =>
       let '(r, h) := EmacsAPI.killBuffer name (snd s) in (r, (fst s, h))
       : Outcome unit * (LispEnv * Host)).
Proof.
  intros s Hs. pose proof (respects_killBuffer api I B respected name (snd s) Hs) as K.
  destruct (EmacsAPI.killBuffer name (snd s)) as [r h]. exact K.
Qed.

Create HintDb maintains.

Local Hint Resolve maintains_ret maintains_throw maintains_unmodelled maintains_lift
  maintains_hostRead maintains_envGet maintains_envSet maintains_envDefine
  maintains_inChild maintains_message maintains_insert maintains_setCursor
  maintains_switchBuffer maintains_killBuffer : maintains.

Ltac maintains :=
  repeat first
    [ progress auto with maintains
    | apply maintains_bind; [|intros ?]
    | match goal with
      | |- Maintains _ _ (match ?x with _ => _ end) => destruct x
      | |- Maintains _ _ (if ?x then _ else _) => destruct x
      end ].

Lemma maintains_applyPrimitive (fn : Primitive) (args : list LispVal) :
  Maintains I B (applyPrimitive fn args).
Proof. destruct fn; unfold applyPrimitive; maintains. Qed.

Section Forms.

Variable ev : LispVal -> M Host LispVal.
Hypothesis maintains_ev : forall e, Maintains I B (ev e).

Lemma maintains_evalSetq (rest : list LispVal) (result : LispVal) :
  Maintains I B (evalSetq ev rest result).
Proof.
  revert result. induction rest as [rest IH] using (induction_ltof1 _ (@List.length _)).
  unfold ltof in IH. intros result.
  destruct rest as [|sym [|e rest]]; simpl; [maintains| |].
  - destruct sym; maintains.
  - destruct sym; maintains. apply IH. simpl. lia.
Qed.

Lemma maintains_evalSequence (es : list LispVal) (result : LispVal) :
  Maintains I B (evalSequence ev es result).
Proof. revert result. induction es as [|e es IH]; intros result; simpl; maintains. Qed.

Lemma maintains_evalArgs (es : list LispVal) : Maintains I B (evalArgs ev es).
Proof. induction es as [|e es IH]; simpl; maintains. Qed.

Lemma maintains_evalBindings (bindings : list LispVal) (newVars : gmap string LispVal) :
  Maintains I B (evalBindings ev bindings newVars).
Proof.
  revert newVars. induction bindings as [|b bs IH]; intros newVars; simpl; [maintains|].
  destruct b; maintains.
Qed.

Local Hint Resolve maintains_evalSetq maintains_evalSequence maintains_evalArgs
  maintains_evalBindings maintains_applyPrimitive : maintains.


End Forms.


End HostFrame.


(** ** The editor state behind the API *)

Section Buffers.

Import Types.

Lemma findIndex_exists (p : Buffer -> bool) (bs : list Buffer) (k : nat) (b : Buffer) :
  b ∈ bs -> p b = true -> exists j b', App.findIndex p bs k = Some (j, b').
Proof.
  revert k. induction bs as [|a bs IH]; intros k Hb Hp; [inversion Hb|].
  simpl. destruct (p a) eqn:Pa; [eauto|].
  apply elem_of_cons in Hb as [->|Hb]; [congruence|]. apply IH; assumption.
Qed.

Lemma findIndex_None (p : Buffer -> bool) (bs : list Buffer) (k : nat) :
  App.findIndex p bs k = None -> forall b, b ∈ bs -> p b = false.
Proof.
  revert k. induction bs as [|a bs IH]; intros k E b Hb; [inversion Hb|].
  simpl in E. destruct (p a) eqn:Pa; [discriminate E|].
  apply elem_of_cons in Hb as [->|Hb]; [exact Pa|]. exact (IH _ E b Hb).
Qed.

Lemma findIndex_app (p : Buffer -> bool) (l r : list Buffer) (k : nat) :
  App.findIndex p (l ++ r) k
  = match App.findIndex p l k with
    | Some x => Some x
    | None => App.findIndex p r (k + length l)
    end.
Proof.
  revert k. induction l as [|a l IH]; intros k; simpl.
  - rewrite Nat.add_0_r. reflexivity.
  - destruct (p a); [reflexivity|]. rewrite IH. replace (S k + length l) with (k + S (length l))
      by lia. reflexivity.
Qed.

Lemma elem_of_filter (p : Buffer -> bool) (bs : list Buffer) (b : Buffer) :
  b ∈ List.filter p bs <-> b ∈ bs /\ p b = true.
Proof. rewrite !list_elem_of_In. apply filter_In. Qed.

Lemma filter_all (p : Buffer -> bool) (bs : list Buffer) :
  (forall b, b ∈ bs -> p b = true) -> List.filter p bs = bs.
Proof.
  induction bs as [|a bs IH]; intros H; [reflexivity|]. simpl.
  rewrite (H a) by left. f_equal. apply IH. intros b Hb. apply H. right. exact Hb.
Qed.

(** With distinct ids, removing the buffers that have the id of one buffer
    removes that buffer and no other. *)
Lemma filter_delete (bs : list Buffer) (i : nat) (f : Buffer) :
  NoDup (id <$> bs) -> bs !! i = Some f ->
  List.filter (fun b => negb (String.eqb (id b) (id f))) bs = delete i bs.
Proof.
  revert i. induction bs as [|a bs IH]; intros i Hn Hi; [discriminate Hi|].
  rewrite fmap_cons in Hn. apply NoDup_cons in Hn as [Ha Hn].
  destruct i as [|i]; simpl in Hi.
  - injection Hi as ->. simpl. rewrite String.eqb_refl. simpl.
    apply filter_all. intros b Hb. apply negb_true_iff, String.eqb_neq. intros E.
    apply Ha. rewrite <- E. apply list_elem_of_fmap. exists b. auto.
  - simpl. destruct (String.eqb_spec (id a) (id f)) as [E|_].
    + exfalso. apply Ha. rewrite E. apply list_elem_of_fmap. exists f. split; [reflexivity|].
      apply list_elem_of_lookup. exists i. exact Hi.
    + simpl. f_equal. apply IH; assumption.
Qed.

Lemma filter_names (p : Buffer -> bool) (bs : list Buffer) :
  NoDup (name <$> bs) -> NoDup (name <$> List.filter p bs).
Proof.
  induction bs as [|a bs IH]; intros Hn; [constructor|].
  rewrite fmap_cons in Hn. apply NoDup_cons in Hn as [Ha Hn]. simpl.
  destruct (p a); [|apply IH, Hn]. rewrite fmap_cons. apply NoDup_cons. split; [|apply IH, Hn].
  intros Hin. apply Ha. apply list_elem_of_fmap in Hin as (b & E & Hb).
  apply elem_of_filter in Hb as [Hb _]. apply list_elem_of_fmap. exists b. auto.
Qed.

Lemma hasActive_found (s : EmacsState) :
  hasActive s <-> exists i b, App.activeBuffer s = Some (i, b).
Proof.
  unfold hasActive, App.activeBuffer. split.
  - intros (b & Hb & E). apply (findIndex_exists _ _ 0 b Hb). apply String.eqb_eq. exact E.
  - intros (i & b & E). destruct (findIndex_found _ _ _ _ _ E) as (j & _ & Hj & Hp).
    exists b. split; [apply list_elem_of_lookup; eauto|]. apply String.eqb_eq. exact Hp.
Qed.

(** A buffer replaced by one of the same id and name. *)
Lemma replace_active (s : EmacsState) (i : nat) (buf buf' : Buffer) :
  App.activeBuffer s = Some (i, buf) -> id buf' = id buf -> name buf' = name buf ->
  (hasActive s -> hasActive (App.withBuffers s (<[i := buf']> (buffers s)))) /\
  (distinctNames s -> distinctNames (App.withBuffers s (<[i := buf']> (buffers s)))).
Proof.
  intros Ha Ei En. unfold App.activeBuffer in Ha.
  destruct (findIndex_found _ _ _ _ _ Ha) as (j & Ej & Hj & Hp). simpl in Ej. subst j.
  apply String.eqb_eq in Hp. split.
  - intros _. exists buf'. split; [|simpl; congruence]. simpl.
    apply list_elem_of_lookup. exists i. apply list_lookup_insert_eq.
    apply (lookup_lt_Some _ _ _ Hj).
  - unfold distinctNames. simpl. rewrite list_fmap_insert, En.
    rewrite list_insert_id; [auto|]. rewrite list_lookup_fmap, Hj. reflexivity.
Qed.


Lemma respects_distinctNames : Respects App.api distinctNames distinctNames.
Proof.
  split; simpl.
  - intros msg h H. exact H.
  - intros text h H. unfold App.insert. destruct (App.activeBuffer h) as [[i buf]|] eqn:Ha;
      [|exact H]. apply (replace_active h i buf _ Ha); [reflexivity|reflexivity|exact H].
  - intros pos h H. unfold App.setCursor. destruct (App.activeBuffer h) as [[i buf]|] eqn:Ha;
      [|exact H]. apply (replace_active h i buf _ Ha); [reflexivity|reflexivity|exact H].
  - intros name' h H. unfold App.switchBuffer.
    destruct (App.findIndex _ (buffers h) 0) as [[j existing]|] eqn:E; [exact H|].
    unfold distinctNames. simpl. rewrite fmap_app. apply NoDup_app.
    split; [exact H|]. split; [|apply NoDup_singleton].
    intros x Hx Hx'. apply list_elem_of_fmap in Hx as (b & -> & Hb).
    apply list_elem_of_singleton in Hx'. simpl in Hx'.
    pose proof (findIndex_None _ _ _ E b Hb) as Hf. simpl in Hf.
    apply String.eqb_neq in Hf. contradiction.
  - intros name' h H. left. unfold App.killBuffer.
    destruct (Nat.leb (length (buffers h)) 1); [exact H|].
    destruct (App.findIndex _ (buffers h) 0) as [[j found]|]; [|exact H].
    destruct (String.eqb (id found) EmptyString); [exact H|].
    cbn [App.withBuffers activeBufferId buffers].
    assert (F : forall a, distinctNames
                  (App.withActive
                     (App.withBuffers h
                        (List.filter (fun b => negb (String.eqb (id b) (id found)))
                           (buffers h))) a)).
    { intros a. apply filter_names. exact H. }
    destruct (String.eqb (activeBufferId h) (id found)).
    + destruct (List.filter _ (buffers h)) as [|first rest] eqn:Fl.
      * constructor.
      * exact (F (id first)).
    + apply filter_names. exact H.
Qed.



End Buffers.

(** ** Insertion, switching and killing *)

Lemma sliceIndex_range (len : Z) (x : float) :
  (0 <= len)%Z -> (0 <= Js.sliceIndex len x <= len)%Z.
Proof.
  intros Hl. unfold Js.sliceIndex.
  destruct (Prim2SF x) as [sg | sg | | sg m e]; try destruct sg; try lia.
  - assert (Ht : (0 <= if (0 <=? e)%Z then Z.pos m * 2 ^ e else Z.pos m / 2 ^ (- e))%Z).
    { destruct (Z.leb_spec 0 e).
      - apply Z.mul_nonneg_nonneg; [lia|]. apply Z.pow_nonneg. lia.
      - apply Z.div_pos; [lia|]. apply Z.pow_pos_nonneg; lia. }
    destruct (_ =? 0)%Z; lia.
  - assert (Ht : (0 <= if (0 <=? e)%Z then Z.pos m * 2 ^ e else Z.pos m / 2 ^ (- e))%Z).
    { destruct (Z.leb_spec 0 e).
      - apply Z.mul_nonneg_nonneg; [lia|]. apply Z.pow_nonneg. lia.
      - apply Z.div_pos; [lia|]. apply Z.pow_pos_nonneg; lia. }
    lia.
Qed.

(** The two slices [api.insert] takes at the cursor make up the content,
    whatever number the cursor is. *)
Lemma slice_split (s : string) (x : float) :
  Js.slice s 0 x +:+ Js.sliceFrom s x = s.
Proof.
  unfold Js.slice, Js.sliceFrom.
  change (Js.sliceIndex (Z.of_nat (String.length s)) 0) with 0%Z.
  pose proof (sliceIndex_range (Z.of_nat (String.length s)) x ltac:(lia)) as Hi.
  set (i := Js.sliceIndex (Z.of_nat (String.length s)) x) in *.
  apply chars_inj. rewrite chars_append, !chars_substring.
  rewrite string_length_chars in *.
  replace (Z.to_nat (i - 0)) with (Z.to_nat i) by lia.
  replace (Z.to_nat (Z.of_nat (length (list_ascii_of_string s)) - i))
    with (length (list_ascii_of_string s) - Z.to_nat i) by lia.
  change (drop (Z.to_nat 0) (list_ascii_of_string s)) with (list_ascii_of_string s).
  rewrite (take_ge (drop _ _)) by (rewrite length_drop; lia).
  apply take_drop.
Qed.

Lemma string_length_append (a b : string) :
  String.length (a +:+ b) = String.length a + String.length b.
Proof. rewrite !string_length_chars, chars_append. apply length_app. Qed.

Section Buffers2.

Import Types.

(** X22: [api.insert] never loses text: whatever number the cursor of the
    active buffer is (negative, fractional, beyond the end, NaN), the
    content afterwards is the content before, cut in two, with the text in
    between, so it is longer by the length of the text; no other buffer
    changes; with no active buffer nothing changes at all. *)
Theorem X22_insert_keeps_the_content (text : string) (s : EmacsState) :
  (App.activeBuffer s = None -> App.insert text s = s) /\
  (forall i buf, App.activeBuffer s = Some (i, buf) ->
     exists before after,
       content buf = before +:+ after /\
       App.getBufferContent (App.insert text s) = before +:+ text +:+ after /\
       String.length (App.getBufferContent (App.insert text s))
         = String.length (content buf) + String.length text /\
       length (buffers (App.insert text s)) = length (buffers s) /\
       forall j, j <> i -> buffers (App.insert text s) !! j = buffers s !! j).
Proof.
  split.
  - intros Ha. unfold App.insert. rewrite Ha. reflexivity.
  - intros i buf Ha.
    destruct (insert_at_cursor text s i buf Ha) as (buf' & Ha' & Hc & _).
    exists (Js.slice (content buf) 0 (cursorPosition buf)),
           (Js.sliceFrom (content buf) (cursorPosition buf)).
    split; [symmetry; apply slice_split|].
    unfold App.getBufferContent. rewrite Ha'. split; [exact Hc|]. split.
    + rewrite Hc, !string_length_append.
      rewrite <- (slice_split (content buf) (cursorPosition buf)) at 3.
      rewrite string_length_append. lia.
    + unfold App.insert. rewrite Ha. simpl. split; [apply length_insert|].
      intros j Hj. apply list_lookup_insert_ne. congruence.
Qed.

(** X23: after [api.switchBuffer(name)] the current buffer is named
    [name], provided the ids of the buffers are pairwise distinct and no
    buffer of another name has [name] as its id. *)
Theorem X23_switchBuffer_then_currentBufferName (name' : string) (s : EmacsState) :
  distinctIds s ->
  (forall b, b ∈ buffers s -> id b = name' -> name b = name') ->
  App.currentBufferName (App.switchBuffer name' s) = name'.
Proof.
  intros Hd Hid. unfold App.switchBuffer.
  destruct (App.findIndex _ (buffers s) 0) as [[j existing]|] eqn:E.
  - destruct (findIndex_found _ _ _ _ _ E) as (i & _ & Hi & Hn).
    apply String.eqb_eq in Hn.
    assert (Hin : existing ∈ buffers s) by (apply list_elem_of_lookup; eauto).
    destruct (findIndex_exists (fun b => String.eqb (id b) (id existing)) (buffers s) 0
                existing Hin (String.eqb_refl _)) as (j' & b' & E').
    unfold App.currentBufferName, App.activeBuffer. simpl. rewrite E'.
    destruct (findIndex_found _ _ _ _ _ E') as (i' & _ & Hi' & Hp).
    apply String.eqb_eq in Hp.
    assert (i' = i).
    { apply (proj1 (NoDup_alt _) Hd i' i (id existing)).
      - rewrite list_lookup_fmap, Hi'. simpl. congruence.
      - rewrite list_lookup_fmap, Hi. reflexivity. }
    subst i'. congruence.
  - unfold App.currentBufferName, App.activeBuffer. simpl. rewrite findIndex_app.
    destruct (App.findIndex (fun b => String.eqb (id b) name') (buffers s) 0)
      as [[j b]|] eqn:E'.
    + exfalso. destruct (findIndex_found _ _ _ _ _ E') as (i & _ & Hi & Hp).
      apply String.eqb_eq in Hp.
      assert (Hin : b ∈ buffers s) by (apply list_elem_of_lookup; eauto).
      pose proof (findIndex_None _ _ _ E b Hin) as Hf. simpl in Hf.
      apply String.eqb_neq in Hf. apply Hf, Hid; assumption.
    + simpl. rewrite String.eqb_refl. reflexivity.
Qed.


(** X25: the command [kill-buffer] of the editor (C-x k) refuses to kill
    the last buffer. With two buffers or more and pairwise distinct ids it
    removes the active buffer and no other and activates the buffer before
    it in the list (the second buffer when the active one was the first),
    which is one of the buffers left. With no active buffer it throws a
    TypeError and the buffers stay. *)
Theorem X25_kill_buffer_command (s : EmacsState) :
  (length (buffers s) <= 1 ->
   Commands.killBuffer s = (Return tt, Commands.echo "Cannot kill the last buffer" s)) /\
  (2 <= length (buffers s) -> App.activeBuffer s = None ->
   exists s', Commands.killBuffer s = (Throw TypeError, s') /\ buffers s' = buffers s) /\
  (forall i b,
     distinctIds s -> 2 <= length (buffers s) -> App.activeBuffer s = Some (i, b) ->
     exists s' next,
       Commands.killBuffer s = (Return tt, s') /\
       buffers s' = delete i (buffers s) /\
       buffers s !! (match i with O => 1 | S j => j end) = Some next /\
       activeBufferId s' = id next /\
       next ∈ buffers s' /\
       message s' = "Killed buffer").
Proof.
  split; [|split].
  - intros Hl. unfold Commands.killBuffer.
    destruct (Nat.leb_spec (length (buffers s)) 1) as [_|?]; [reflexivity|lia].
  - intros Hl Ha. unfold Commands.killBuffer. rewrite Ha.
    destruct (Nat.leb_spec (length (buffers s)) 1) as [?|_]; [lia|].
    eexists. split; [reflexivity|]. simpl. apply filter_all.
    intros b Hb. apply negb_true_iff. exact (findIndex_None _ _ _ Ha b Hb).
  - intros i b Hd Hl Ha. unfold Commands.killBuffer. rewrite Ha.
    destruct (Nat.leb_spec (length (buffers s)) 1) as [?|_]; [lia|].
    destruct (findIndex_found _ _ _ _ _ Ha) as (i' & Ei & Hi & Hp). simpl in Ei. subst i'.
    apply String.eqb_eq in Hp. pose proof (lookup_lt_Some _ _ _ Hi) as Hlt.
    destruct (lookup_lt_is_Some_2 (buffers s) (match i with O => 1 | S j => j end)
                ltac:(destruct i; lia)) as [next Hnext].
    rewrite Hnext. rewrite <- Hp. rewrite (filter_delete (buffers s) i b Hd Hi).
    eexists. exists next. split; [reflexivity|]. split; [reflexivity|].
    split; [reflexivity|]. split; [reflexivity|]. split; [|reflexivity].
    simpl. apply list_elem_of_lookup. destruct i as [|j].
    + exists 0. rewrite list_lookup_delete_ge by lia. exact Hnext.
    + exists j. rewrite list_lookup_delete_lt by lia. exact Hnext.
Qed.

(** X26: [evalSexp] on a text that leaves a list unclosed evaluates
    nothing: the environment and the buffers are untouched, and the echo
    area shows [Lisp Error: Unclosed list]. *)
Theorem X26_evalSexp_reports_the_unclosed_list (typeErrorMessage : string) (fuel : nat)
    (code : string) (env : LispEnv) (s : EmacsState) :
  unclosedList code = true ->
  Commands.evalSexp typeErrorMessage fuel code (env, s)
    = Some (env, Commands.echo "Lisp Error: Unclosed list" s).
Proof.
  intros H. pose proof (parse_unclosed code) as P. rewrite H in P.
  unfold Commands.evalSexp. rewrite P. reflexivity.
Qed.

(** X27: [evalSexp] on the printed text of a readable value behind a quote
    mark echoes that text and changes nothing else; for a value that is no
    list the quote mark is not needed. *)
Theorem X27_evalSexp_echoes_the_printed_text (typeErrorMessage : string) (fuel : nat)
    (v : LispVal) (t : string) (env : LispEnv) (s : EmacsState) :
  Readable v -> printLisp v = Return t ->
  Commands.evalSexp typeErrorMessage (S fuel) (String "'" t) (env, s)
    = Some (env, Commands.echo t s) /\
  ((forall vs, v <> mkList vs) ->
   Commands.evalSexp typeErrorMessage (S fuel) t (env, s) = Some (env, Commands.echo t s)).
Proof.
  intros R Ht. split.
  - unfold Commands.evalSexp. rewrite (parse_quoted v t R Ht).
    change (evalLisp (S fuel) (mkList [mkSym "quote"; v]) (env, s)) with (Return v, (env, s)).
    cbv iota beta. rewrite Ht. reflexivity.
  - intros Hl. destruct (parse_printLisp v R) as (t' & Ht' & Hp).
    assert (t' = t) by congruence. subst t'.
    unfold Commands.evalSexp. rewrite Hp.
    assert (E : evalLisp (S fuel) v (env, s) = (Return v, (env, s))).
    { inversion R; subst; try reflexivity. exfalso. eapply Hl. reflexivity. }
    rewrite E. cbv iota beta. rewrite Ht. reflexivity.
Qed.

End Buffers2.

(** ** Moving the cursor by a line *)

Section Search.

Local Open Scope Z_scope.

Lemma firstIndex_spec (c : ascii) (cs : list ascii) (i : Z) :
  (firstIndex c cs i = -1 /\ forall k : nat, cs !! k <> Some c) \/
  (exists k : nat, firstIndex c cs i = i + Z.of_nat k /\ cs !! k = Some c /\
                   forall j : nat, (j < k)%nat -> cs !! j <> Some c).
Proof.
  revert i. induction cs as [|x cs IH]; intros i; simpl.
  - left. split; [reflexivity|]. intros k. rewrite lookup_nil. discriminate.
  - destruct (Ascii.eqb_spec x c) as [->|Hx].
    + right. exists 0%nat. split; [lia|]. split; [reflexivity|]. intros j Hj. lia.
    + destruct (IH (i + 1)) as [[E Hn]|(k & E & Hk & Hn)].
      * left. split; [exact E|]. intros [|k]; simpl; [congruence|apply Hn].
      * right. exists (S k). split; [lia|]. split; [exact Hk|].
        intros [|j] Hj; simpl; [congruence|]. apply Hn. lia.
Qed.

Lemma lastIndex_spec (c : ascii) (cs : list ascii) (i found : Z) :
  (lastIndex c cs i found = found /\ forall k : nat, cs !! k <> Some c) \/
  (exists k : nat, lastIndex c cs i found = i + Z.of_nat k /\ cs !! k = Some c /\
                   forall j : nat, (k < j)%nat -> cs !! j <> Some c).
Proof.
  revert i found. induction cs as [|x cs IH]; intros i found; simpl.
  - left. split; [reflexivity|]. intros k. rewrite lookup_nil. discriminate.
  - destruct (IH (i + 1) (if Ascii.eqb x c then i else found))
      as [[E Hn]|(k & E & Hk & Hn)].
    + destruct (Ascii.eqb_spec x c) as [->|Hx].
      * right. exists 0%nat. split; [lia|]. split; [reflexivity|].
        intros [|j] Hj; [lia|]. simpl. apply Hn.
      * left. split; [exact E|]. intros [|k]; simpl; [congruence|apply Hn].
    + right. exists (S k). split; [lia|]. split; [exact Hk|].
      intros [|j] Hj; [lia|]. simpl. apply Hn. lia.
Qed.

Variable s : string.
Variable c : ascii.

Let chars : list ascii := list_ascii_of_string s.
Let len : Z := Z.of_nat (String.length s).

(** [s.indexOf(c, from)]: -1 when [c] stands nowhere at or behind the
    start of the search, the first index at or behind it otherwise. *)
Lemma indexOf_spec (from : Z) :
  let start := Z.min (Z.max from 0) len in
  (indexOf s c from = -1 /\
   forall k, start <= k -> chars !! Z.to_nat k <> Some c) \/
  (start <= indexOf s c from < len /\
   chars !! Z.to_nat (indexOf s c from) = Some c /\
   forall k, start <= k < indexOf s c from -> chars !! Z.to_nat k <> Some c).
Proof.
  intros start. unfold indexOf. fold len. fold start. fold chars.
  assert (Hs : 0 <= start <= len) by (unfold start, len; lia).
  destruct (firstIndex_spec c (drop (Z.to_nat start) chars) start)
    as [[E Hn]|(k & E & Hk & Hn)].
  - left. split; [exact E|]. intros k Hk.
    specialize (Hn (Z.to_nat k - Z.to_nat start)%nat). rewrite lookup_drop in Hn.
    replace (Z.to_nat start + (Z.to_nat k - Z.to_nat start))%nat with (Z.to_nat k) in Hn
      by lia. exact Hn.
  - right. rewrite E. rewrite lookup_drop in Hk.
    pose proof (lookup_lt_Some _ _ _ Hk) as Hlt.
    assert (Hl : length chars = String.length s)
      by (unfold chars; symmetry; apply string_length_chars).
    split; [unfold len; lia|]. split.
    + rewrite <- Hk. f_equal. lia.
    + intros j Hj. specialize (Hn (Z.to_nat j - Z.to_nat start)%nat ltac:(lia)).
      rewrite lookup_drop in Hn.
      replace (Z.to_nat start + (Z.to_nat j - Z.to_nat start))%nat with (Z.to_nat j) in Hn
        by lia. exact Hn.
Qed.

(** [s.lastIndexOf(c, from)]: -1 when [c] stands nowhere at or before the
    start of the search, the last index at or before it otherwise. *)
Lemma lastIndexOf_spec (from : Z) :
  let start := Z.min (Z.max from 0) (len - 1) in
  (lastIndexOf s c from = -1 /\
   forall k, 0 <= k <= start -> chars !! Z.to_nat k <> Some c) \/
  (0 <= lastIndexOf s c from <= start /\
   chars !! Z.to_nat (lastIndexOf s c from) = Some c /\
   forall k, lastIndexOf s c from < k <= start -> chars !! Z.to_nat k <> Some c).
Proof.
  intros start. unfold lastIndexOf. fold len. fold start. fold chars.
  assert (Hl : length chars = String.length s)
    by (unfold chars; symmetry; apply string_length_chars).
  assert (Hs : -1 <= start <= len - 1) by (unfold start, len; lia).
  destruct (lastIndex_spec c (take (Z.to_nat (start + 1)) chars) 0 (-1))
    as [[E Hn]|(k & E & Hk & Hn)].
  - left. split; [exact E|]. intros k Hk. specialize (Hn (Z.to_nat k)).
    rewrite lookup_take_lt in Hn by lia. exact Hn.
  - right. rewrite E. apply lookup_take_Some in Hk as [Hk Hlt].
    split; [lia|]. split.
    + rewrite <- Hk. f_equal. lia.
    + intros j Hj. specialize (Hn (Z.to_nat j) ltac:(lia)).
      rewrite lookup_take_lt in Hn by lia. exact Hn.
Qed.

End Search.



Section Motion.

Local Open Scope Z_scope.

Variable content : string.

Let chars : list ascii := list_ascii_of_string content.
Let len : Z := Z.of_nat (String.length content).

(** What [moveCursorLine] computes, upwards: [l1] is the line feed before
    the current line, [l2] the one before the line above. *)
Lemma moveCursorLine_up (currentPos newPos : Z) :
  0 <= currentPos <= len ->
  Commands.moveCursorLine content currentPos (-1) = Some newPos ->
  exists l1 l2,
    0 <= l1 < len /\ chars !! Z.to_nat l1 = Some newline /\
    l1 <= Z.max (currentPos - 1) 0 /\
    (forall k, l1 < k <= currentPos - 1 -> chars !! Z.to_nat k <> Some newline) /\
    -1 <= l2 <= l1 /\ (l2 = l1 <-> l1 = 0) /\
    (forall k, l2 < k < l1 -> chars !! Z.to_nat k <> Some newline) /\
    newPos = l2 + 1 + Z.min (currentPos - (l1 + 1)) (l1 - (l2 + 1)).
Proof.
  intros Hc H. unfold Commands.moveCursorLine in H.
  change (-1 =? -1) with true in H. cbv iota zeta in H.
  pose proof (lastIndexOf_spec content newline (currentPos - 1)) as S1.
  cbv zeta in S1. fold chars in S1. fold len in S1.
  set (l1 := lastIndexOf content newline (currentPos - 1)) in *.
  destruct (Z.eqb_spec (l1 + 1) 0) as [?|Hne]; [discriminate H|].
  injection H as <-.
  destruct S1 as [[E _]|(R1 & C1 & N1)]; [lia|].
  pose proof (lastIndexOf_spec content newline (l1 + 1 - 1 - 1)) as S2.
  cbv zeta in S2. fold chars in S2. fold len in S2.
  set (l2 := lastIndexOf content newline (l1 + 1 - 1 - 1)) in *.
  exists l1, l2. split; [lia|]. split; [exact C1|]. split; [lia|].
  split; [intros k Hk; apply N1; lia|].
  destruct S2 as [[E N2]|(R2 & C2 & N2)].
  - assert (l1 <> 0).
    { intros E0. apply (N2 0); [lia|]. rewrite <- C1, E0. reflexivity. }
    split; [lia|]. split; [lia|]. split; [|lia].
    intros k Hk. apply N2. lia.
  - split; [lia|]. split; [lia|]. split; [|lia].
    intros k Hk. apply N2. lia.
Qed.

(** What [moveCursorLine] computes, downwards: [e] is the line feed that
    ends the current line, [n] the end of the line below. *)
Lemma moveCursorLine_down (currentPos dir newPos : Z) :
  0 <= currentPos <= len -> dir <> -1 ->
  Commands.moveCursorLine content currentPos dir = Some newPos ->
  exists l1 e n,
    -1 <= l1 <= Z.max (currentPos - 1) 0 /\
    (0 <= l1 -> chars !! Z.to_nat l1 = Some newline) /\
    currentPos <= e < len /\ chars !! Z.to_nat e = Some newline /\
    (forall k, currentPos <= k < e -> chars !! Z.to_nat k <> Some newline) /\
    e + 1 <= n <= len /\
    (forall k, e + 1 <= k < n -> chars !! Z.to_nat k <> Some newline) /\
    newPos = e + 1 + Z.min (currentPos - (l1 + 1)) (n - (e + 1)).
Proof.
  intros Hc Hd H. unfold Commands.moveCursorLine in H.
  destruct (Z.eqb_spec dir (-1)) as [?|_]; [contradiction|]. cbv zeta in H.
  pose proof (lastIndexOf_spec content newline (currentPos - 1)) as S1.
  cbv zeta in S1. fold chars in S1. fold len in S1.
  set (l1 := lastIndexOf content newline (currentPos - 1)) in *.
  pose proof (indexOf_spec content newline currentPos) as S2.
  cbv zeta in S2. fold chars in S2. fold len in S2.
  set (e := indexOf content newline currentPos) in *.
  destruct (Z.eqb_spec e (-1)) as [?|He]; [discriminate H|].
  destruct S2 as [[E _]|(R2 & C2 & N2)]; [contradiction|].
  pose proof (indexOf_spec content newline (e + 1)) as S3.
  cbv zeta in S3. fold chars in S3. fold len in S3.
  set (n := indexOf content newline (e + 1)) in *.
  injection H as <-.
  exists l1, e, (if n =? -1 then len else n).
  split; [destruct S1 as [[E _]|(R1 & _)]; lia|].
  split; [intros Hl; destruct S1 as [[E _]|(_ & C1 & _)]; [lia|exact C1]|].
  split; [lia|]. split; [exact C2|]. split; [intros k Hk; apply N2; lia|].
  destruct (Z.eqb_spec n (-1)) as [En|En].
  - destruct S3 as [[_ N3]|(R3 & _)]; [|lia].
    split; [lia|]. split; [intros k Hk; apply N3; lia|]. reflexivity.
  - destruct S3 as [[E3 _]|(R3 & _ & N3)]; [contradiction|].
    split; [lia|]. split; [intros k Hk; apply N3; lia|]. reflexivity.
Qed.

Lemma moveCursorLine_range (currentPos dir newPos : Z) :
  0 <= currentPos <= len ->
  Commands.moveCursorLine content currentPos dir = Some newPos ->
  0 <= newPos <= len.
Proof.
  intros Hc H. destruct (Z.eq_dec dir (-1)) as [->|Hd].
  - destruct (moveCursorLine_up currentPos newPos Hc H)
      as (l1 & l2 & R1 & C1 & B1 & N1 & R2 & E2 & N2 & ->).
    lia.
  - destruct (moveCursorLine_down currentPos dir newPos Hc Hd H)
      as (l1 & e & n & R1 & C1 & Re & Ce & Ne & Rn & Nn & ->).
    lia.
Qed.


End Motion.

(** X28: [moveCursorLine] never moves the cursor out of the buffer: from a
    position between 0 and the length of the content, upwards or
    downwards, the new position lies between 0 and the length of the
    content. *)
Theorem X28_moveCursorLine_stays_in_the_buffer (content : string)
    (currentPos dir newPos : Z) :
  (0 <= currentPos <= Z.of_nat (String.length content))%Z ->
  Commands.moveCursorLine content currentPos dir = Some newPos ->
  (0 <= newPos <= Z.of_nat (String.length content))%Z.
Proof. apply moveCursorLine_range. Qed.


(** ** Creating a buffer from the minibuffer *)

Section Create.

Import Types.

Lemma switchBuffer_hasActive (name' : string) (s : EmacsState) :
  hasActive (App.switchBuffer name' s).
Proof.
  unfold App.switchBuffer.
  destruct (App.findIndex _ (buffers s) 0) as [[j existing]|] eqn:E.
  - destruct (findIndex_found _ _ _ _ _ E) as (i & _ & Hi & _).
    exists existing. split; [|reflexivity]. simpl. apply list_elem_of_lookup. eauto.
  - exists {| id := name'; name := name'; content := EmptyString;
              cursorPosition := 0%float; mode := "Fundamental";
              isModified := false; readOnly := None |}.
    split; [|reflexivity]. simpl. apply elem_of_app. right. left.
Qed.

(** X30: the command [createBuffer] of the minibuffer (C-x C-f, C-x b)
    and the method [switchBuffer] of the Lisp API, whose logic the source
    writes out twice, do the same to the buffers: both leave the same list
    of buffers and the same active buffer. So [createBuffer] too ends with
    an active buffer that is one of the buffers, and keeps the names of
    the buffers pairwise distinct; it also returns to the normal editor
    mode. *)
Theorem X30_createBuffer_agrees_with_switchBuffer (name' : string) (s : EmacsState) :
  buffers (Commands.createBuffer name' s) = buffers (App.switchBuffer name' s) /\
  activeBufferId (Commands.createBuffer name' s)
    = activeBufferId (App.switchBuffer name' s) /\
  editorMode (Commands.createBuffer name' s) = NORMAL /\
  hasActive (Commands.createBuffer name' s) /\
  (distinctNames s -> distinctNames (Commands.createBuffer name' s)).
Proof.
  assert (Eb : buffers (Commands.createBuffer name' s) = buffers (App.switchBuffer name' s)).
  { unfold Commands.createBuffer, App.switchBuffer.
    destruct (App.findIndex _ (buffers s) 0) as [[j existing]|]; reflexivity. }
  assert (Ea : activeBufferId (Commands.createBuffer name' s)
               = activeBufferId (App.switchBuffer name' s)).
  { unfold Commands.createBuffer, App.switchBuffer.
    destruct (App.findIndex _ (buffers s) 0) as [[j existing]|]; reflexivity. }
  split; [exact Eb|]. split; [exact Ea|]. split; [|split].
  - unfold Commands.createBuffer.
    destruct (App.findIndex _ (buffers s) 0) as [[j existing]|]; reflexivity.
  - unfold hasActive. rewrite Eb, Ea. apply switchBuffer_hasActive.
  - intros Hd. unfold distinctNames. rewrite Eb.
    exact (respects_switchBuffer _ _ _ respects_distinctNames name' s Hd).
Qed.

End Create.

(** ** Instances *)

(** C10, at an instance: two lists of different lengths. *)
Lemma C10_eq_on_payload_free_values_witness :
  applyPrimitive prim_eq [mkList [mkNum 1; mkNum 2]; mkList [mkNum 3]]
    (createGlobalEnv, Session.start)
  = (Return (mkBool true), (createGlobalEnv, Session.start)).
Proof.
  apply (proj1 (proj2 C10_eq_on_payload_free_values)); reflexivity.
Defined.

(** C7, at an instance: a condition that evaluates to Bool(false) through
    [=], without else-branch. *)
Lemma C7_truthiness_of_if_witness :
  evalLisp 3 (mkList [mkSym "if"; mkList [mkSym "="; mkNum 1; mkNum 2]; mkNum 7])
    (createGlobalEnv, Session.start)
  = (Return mkNull, (createGlobalEnv, Session.start)).
Proof.
  refine (proj2 (proj2 (proj1 (proj2 (proj2 (proj2 (proj2 C7_truthiness_of_if))))
                  2 (mkList [mkSym "="; mkNum 1; mkNum 2]) (mkNum 7) mkNull []
                  (mkBool false) (createGlobalEnv, Session.start)
                  (createGlobalEnv, Session.start) _) _)).
  - vm_compute. reflexivity.
  - reflexivity.
Defined.

(** C3, at an instance: the global environment and the one-buffer editor. *)
Lemma C3_progn_chains_inserts_witness :
  exists h' a b c,
    evalLisp 3
      (mkList [mkSym "progn"; mkList [mkSym "insert"; mkStr "A"];
               mkList [mkSym "insert"; mkStr "B"];
               mkList [mkSym "insert"; mkStr "C"]]) (createGlobalEnv, Session.start)
    = (Return mkNull, (createGlobalEnv, h')) /\
    h' = EmacsAPI.insert "C" (EmacsAPI.insert "B" (EmacsAPI.insert "A" Session.start)) /\
    App.activeBuffer (EmacsAPI.insert "A" Session.start) = Some (0, a) /\
    Types.content a = "A" /\ Types.cursorPosition a = 1%float /\
    App.activeBuffer (EmacsAPI.insert "B" (EmacsAPI.insert "A" Session.start)) = Some (0, b) /\
    Types.content b = "AB" /\ Types.cursorPosition b = 2%float /\
    App.activeBuffer h' = Some (0, c) /\
    Types.content c = "ABC" /\ Types.cursorPosition c = 3%float.
Proof.
  apply (proj2 (proj2 C3_progn_chains_inserts) 0 createGlobalEnv Session.start 0 Session.scratch);
    reflexivity.
Defined.

(** C4, at an instance: two assignments in the global environment, the
    second reading the first. *)
Lemma C4_setq_binds_in_current_environment_witness :
  evalLisp 2 (mkList (mkSym "setq" :: setqElements [("x", mkNum 1); ("y", mkSym "x")]))
    (createGlobalEnv, Session.start)
  = (Return (mkNum 1),
     (Env.set (Env.set createGlobalEnv "x" (mkNum 1)) "y" (mkNum 1), Session.start)).
Proof.
  apply (proj1 C4_setq_binds_in_current_environment 1).
  apply (Assigns_cons _ "x" (mkNum 1) _ _ _ (mkNum 1) createGlobalEnv Session.start);
    [reflexivity|].
  apply (Assigns_cons _ "y" (mkSym "x") _ _ _ (mkNum 1)
           (Env.set createGlobalEnv "x" (mkNum 1)) Session.start);
    [vm_compute; reflexivity|].
  apply Assigns_nil.
Defined.

(** C5, at an instance: a session in which [f] is the function
    [(defun f (a b) (list a b))], called with three arguments. *)
Lemma C5_function_application_witness :
  let body := mkList [mkSym "progn"; mkList [mkSym "list"; mkSym "a"; mkSym "b"]] in
  let env := Env.define createGlobalEnv "f" (FUNC ["a"; "b"] body) in
  let args := [mkNum 1; mkNum 2; mkNum 3] in
  exists child,
    outer child = Some env /\
    outer env = outer env /\
    vars child = bindAll ["a"; "b"] (map (argumentAt args) (seq 0 2)) ∅ /\
    (forall name, name ∉ ["a"; "b"] -> vars child !! name = None) /\
    (NoDup ["a"; "b"] -> forall i name,
       ["a"; "b"] !! i = Some name -> vars child !! name = Some (argumentAt args i)) /\
    (forall i val, args !! i = Some val -> val <> undefined -> argumentAt args i = val) /\
    (forall i, length args <= i -> argumentAt args i = mkNull) /\
    evalLisp 3 (mkList (mkSym "f" :: args)) (env, Session.start) =
      (fst (evalLisp 2 body (child, Session.start)),
       (env, snd (snd (evalLisp 2 body (child, Session.start))))).
Proof.
  intros body env args.
  apply (proj1 C5_function_application 2 (mkSym "f") args (env, Session.start)
           (env, Session.start) ["a"; "b"] body args env Session.start).
  - simpl. apply (bool_decide_unpack _). vm_compute. exact I.
  - vm_compute. reflexivity.
  - repeat (eapply Evaluates_cons; [reflexivity|]). apply Evaluates_nil.
Defined.

(** C6, at an instance: one binding with a value, one bare symbol. *)
Lemma C6_let_binds_in_parallel_witness :
  let bs := [Bind "x" (mkNum 1); Bare "z"] in
  let body := [mkSym "x"] in
  exists child,
    outer child = Some createGlobalEnv /\
    vars child = bindAll (map bindingName bs) [mkNum 1; mkNull] ∅ /\
    (forall name, name ∉ map bindingName bs -> vars child !! name = None) /\
    (NoDup (map bindingName bs) -> forall i b val,
       bs !! i = Some b -> [mkNum 1; mkNull] !! i = Some val ->
       vars child !! bindingName b = Some val) /\
    (forall i v, bs !! i = Some (Bare v) -> [mkNum 1; mkNull] !! i = Some mkNull) /\
    (forall rs s',
       Evaluates (evalLisp 1) body (child, Session.start) rs s' ->
       evalLisp 2 (mkList (mkSym "let" :: mkList (map bindingForm bs) :: body))
         (createGlobalEnv, Session.start)
       = (Return (List.last rs mkNull), (createGlobalEnv, snd s'))) /\
    evalLisp 2 (mkList (mkSym "let" :: mkList (map bindingForm bs) :: body))
      (createGlobalEnv, Session.start)
    = (fst (evalSequence (evalLisp 1) body mkNull (child, Session.start)),
       (createGlobalEnv,
        snd (snd (evalSequence (evalLisp 1) body mkNull (child, Session.start))))).
Proof.
  intros bs body.
  apply (proj1 C6_let_binds_in_parallel 1 bs body createGlobalEnv Session.start
           [mkNum 1; mkNull] createGlobalEnv Session.start).
  eapply Initialises_bind; [reflexivity|]. apply Initialises_bare. apply Initialises_nil.
Defined.

(** C9, at an instance: white space after the closing parenthesis, and an
    expression that starts inside the text. *)
Lemma C9_findLastSexp_matching_parenthesis_witness :
  findLastSexp "x (a (b) c)  " 13 = Some "(a (b) c)" /\
  charIs "x (a (b) c)  " 2 "(" = true.
Proof.
  apply (proj1 C9_findLastSexp_matching_parenthesis "x (a (b) c)  " 13%Z 10%Z).
  - lia.
  - intros q Hq. assert (q = 11 \/ q = 12)%Z as [-> | ->] by lia; reflexivity.
  - reflexivity.
Defined.

(** C8, at an instance: the inner list is closed, the outer one is not, and
    a parenthesis inside a string closes nothing. *)
Lemma C8_unclosed_list_is_a_parse_error_witness :
  parse (Js.lit "(message `:)` (list 1 2)") = Throw (Error "Unclosed list") /\
  forall v, parse (Js.lit "(message `:)` (list 1 2)") <> Return v.
Proof.
  apply (proj1 C8_unclosed_list_is_a_parse_error). vm_compute. reflexivity.
Defined.

(** C2 as the specification states it fails: Bool(false) is printed [nil]
    and comes back as Nil; a List comes back from the reader but is then
    evaluated, the empty one to Nil, another one as a function application;
    and a Number printed with an exponent comes back as a symbol. *)
Lemma C2_round_trip_counterexample :
  Literal (mkBool false) /\
  readBack 10 (mkBool false) (createGlobalEnv, Session.start) = Return mkNull /\
  mkNull <> mkBool false /\
  Literal (mkList [mkNum 1; mkNum 2]) /\
  printLisp (mkList [mkNum 1; mkNum 2]) = Return "(1 2)" /\
  parse "(1 2)" = Return (mkList [mkNum 1; mkNum 2]) /\
  readBack 10 (mkList [mkNum 1; mkNum 2]) (createGlobalEnv, Session.start)
    = Throw (Error ("Invalid function call: " +:+ Js.lit "{`type`:`NUMBER`,`value`:1}")) /\
  Literal (mkList []) /\
  readBack 10 (mkList []) (createGlobalEnv, Session.start) = Return mkNull /\
  Literal (mkNum 1e21) /\
  printLisp (mkNum 1e21) = Return "1e+21" /\
  readBack 10 (mkNum 1e21) (createGlobalEnv, Session.start)
    = Throw (Error "Void variable: 1e+21").
Proof.
  repeat split; try (vm_compute; reflexivity); try discriminate;
    repeat constructor.
Qed.

(** C2, at instances: a nested list through the reader, and a negative
    fraction through the reader and the evaluator. *)
Lemma C2_readable_values_read_back_witness :
  (exists t, printLisp (mkList [mkNum 42; mkStr "a b"; mkList [mkNull; mkBool true]])
             = Return t /\
             parse t = Return (mkList [mkNum 42; mkStr "a b"; mkList [mkNull; mkBool true]])) /\
  readBack 1 (mkNum (-1.5)) (createGlobalEnv, Session.start) = Return (mkNum (-1.5)).
Proof.
  split.
  - apply (proj1 (C2_readable_values_read_back (Host := Types.EmacsState))).
    apply Readable_list. repeat constructor; vm_compute; reflexivity.
  - apply (proj2 (C2_readable_values_read_back (Host := Types.EmacsState))).
    + apply Readable_num. split; vm_compute; reflexivity.
    + intros vs. discriminate.
Defined.

(** ** Instances of the further properties *)

(** X1, at an instance: a space, a tab and a line feed. *)
Lemma X1_blank_input_reads_as_nil_witness :
  parse (String " " (String (ascii_of_N 9) (String (ascii_of_N 10) EmptyString)))
  = Return mkNull.
Proof. apply X1_blank_input_reads_as_nil. repeat constructor. Defined.

(** X2, at an instance: a list between a blank and a stray parenthesis. *)
Lemma X2_parse_reads_first_expression_witness :
  parse " (1 t)) x" = Return (mkList [mkNum 1; mkBool true]).
Proof.
  apply (X2_parse_reads_first_expression (mkList [mkNum 1; mkBool true]) "(1 t)" " " ") x").
  - apply Readable_list. repeat constructor; vm_compute; reflexivity.
  - vm_compute. reflexivity.
  - repeat constructor.
  - reflexivity.
Defined.

(** X3, at an instance: a nested list. *)
Lemma X3_quoted_text_evaluates_to_the_value_witness :
  exists t,
    printLisp (mkList [mkNum 1; mkList [mkStr "a"]]) = Return t /\
    parse (String "'" t)
      = Return (mkList [mkSym "quote"; mkList [mkNum 1; mkList [mkStr "a"]]]) /\
    forall fuel (s : LispEnv * Types.EmacsState),
      evalLisp (S fuel) (mkList [mkSym "quote"; mkList [mkNum 1; mkList [mkStr "a"]]]) s
        = (Return (mkList [mkNum 1; mkList [mkStr "a"]]), s).
Proof.
  apply (X3_quoted_text_evaluates_to_the_value (Host := Types.EmacsState)).
  apply Readable_list. repeat constructor; vm_compute; reflexivity.
Defined.

(** X4, at an instance. *)
Lemma X4_parse_returns_syntax_witness :
  Syntax (mkList [mkSym "a"; mkList [mkSym "quote"; mkNum 1]]).
Proof. apply (X4_parse_returns_syntax "(a '1)"). vm_compute. reflexivity. Defined.




(** X12, at an instance. *)
Lemma X12_setq_then_read_witness :
  evalLisp 2 (mkList [mkSym "setq"; mkSym "x"; mkNum 5]) (createGlobalEnv, Session.start)
    = (Return (mkNum 5), (Env.set createGlobalEnv "x" (mkNum 5), Session.start)) /\
  (forall m, evalLisp (S m) (mkSym "x") (Env.set createGlobalEnv "x" (mkNum 5), Session.start)
             = (Return (mkNum 5), (Env.set createGlobalEnv "x" (mkNum 5), Session.start))) /\
  (forall m other, other <> "x" ->
     evalLisp (S m) (mkSym other) (Env.set createGlobalEnv "x" (mkNum 5), Session.start)
       = (Env.get createGlobalEnv other,
          (Env.set createGlobalEnv "x" (mkNum 5), Session.start))).
Proof.
  apply (X12_setq_then_read 1 "x" (mkNum 5) (mkNum 5) (createGlobalEnv, Session.start)
           createGlobalEnv Session.start).
  reflexivity.
Defined.

(** X14, at an instance: an insertion, an unbound symbol, an insertion that
    is not reached. *)
Lemma X14_progn_stops_at_the_first_failure_witness :
  evalLisp 3
    (mkList [mkSym "progn"; mkList [mkSym "insert"; mkStr "A"]; mkSym "nope";
             mkList [mkSym "insert"; mkStr "B"]])
    (createGlobalEnv, Session.start)
  = (Throw (Error "Void variable: nope"), (createGlobalEnv, App.insert "A" Session.start)).
Proof.
  apply (X14_progn_stops_at_the_first_failure 2 [mkList [mkSym "insert"; mkStr "A"]]
           (mkSym "nope") [mkList [mkSym "insert"; mkStr "B"]]
           (createGlobalEnv, Session.start) [mkNull]
           (createGlobalEnv, App.insert "A" Session.start)).
  - eapply Evaluates_cons; [vm_compute; reflexivity|]. apply Evaluates_nil.
  - vm_compute. reflexivity.
  - intros v. discriminate.
Defined.

(** X15, at an instance: the identity function, defined and called. *)
Lemma X15_defun_then_call_witness :
  let fn := FUNC ["a"] (mkList [mkSym "progn"; mkSym "a"]) in
  let env' := Env.define createGlobalEnv "f" fn in
  let child := newLispEnv (bindParams ["a"] 0 [mkNum 7] ∅) (Some env') in
  evalLisp 3 (mkList [mkSym "f"; mkNum 7]) (env', Session.start)
    = (fst (evalSequence (evalLisp 1) [mkSym "a"] mkNull (child, Session.start)),
       (env', snd (snd (evalSequence (evalLisp 1) [mkSym "a"] mkNull
                          (child, Session.start))))).
Proof.
  intros fn env' child.
  apply (proj2 (X15_defun_then_call 1 "f" ["a"] [mkSym "a"] [mkNum 7] createGlobalEnv
                  Session.start)).
  - apply (bool_decide_unpack _). vm_compute. exact I.
  - eapply Evaluates_cons; [reflexivity|]. apply Evaluates_nil.
Defined.

(** X16, at an instance: a number in the place of the function. *)
Lemma X16_invalid_function_call_witness :
  evalLisp 2 (mkList [mkNum 1; mkNum 2]) (createGlobalEnv, Session.start)
  = (Throw (Error ("Invalid function call: " +:+ jsonStringify (mkNum 1))),
     (createGlobalEnv, Session.start)).
Proof.
  apply (X16_invalid_function_call 1 (mkNum 1) [mkNum 2] (createGlobalEnv, Session.start)
           (createGlobalEnv, Session.start) (createGlobalEnv, Session.start) (mkNum 1)
           [mkNum 2]).
  - exact I.
  - reflexivity.
  - exact I.
  - eapply Evaluates_cons; [reflexivity|]. apply Evaluates_nil.
Defined.





(** X22, at an instance: the text goes into the empty buffer. *)
Lemma X22_insert_keeps_the_content_witness :
  exists before after,
    Types.content Session.scratch = before +:+ after /\
    App.getBufferContent (App.insert "abc" Session.start) = before +:+ "abc" +:+ after /\
    String.length (App.getBufferContent (App.insert "abc" Session.start))
      = String.length (Types.content Session.scratch) + String.length "abc" /\
    length (Types.buffers (App.insert "abc" Session.start))
      = length (Types.buffers Session.start) /\
    forall j, j <> 0 ->
      Types.buffers (App.insert "abc" Session.start) !! j = Types.buffers Session.start !! j.
Proof.
  apply (proj2 (X22_insert_keeps_the_content "abc" Session.start) 0 Session.scratch).
  reflexivity.
Defined.

(** X23, at an instance: a buffer that does not exist yet. *)
Lemma X23_switchBuffer_then_currentBufferName_witness :
  App.currentBufferName (App.switchBuffer "notes" Session.start) = "notes".
Proof.
  apply X23_switchBuffer_then_currentBufferName.
  - apply NoDup_singleton.
  - intros b Hb Hid. apply list_elem_of_singleton in Hb. subst b. discriminate Hid.
Defined.


(** X25, at an instance: the second of two buffers is active and is
    killed; the first becomes active. *)
Lemma X25_kill_buffer_command_witness :
  let s := App.switchBuffer "notes" Session.start in
  exists s' next,
    Commands.killBuffer s = (Return tt, s') /\
    Types.buffers s' = delete 1 (Types.buffers s) /\
    Types.buffers s !! 0 = Some next /\
    Types.activeBufferId s' = Types.id next /\
    next ∈ Types.buffers s' /\
    Types.message s' = "Killed buffer".
Proof.
  intros s.
  refine (proj2 (proj2 (X25_kill_buffer_command s)) 1
            {| Types.id := "notes"; Types.name := "notes"; Types.content := EmptyString;
               Types.cursorPosition := 0%float; Types.mode := "Fundamental";
               Types.isModified := false; Types.readOnly := None |} _ _ _).
  - apply (bool_decide_unpack _). vm_compute. exact I.
  - simpl. lia.
  - reflexivity.
Defined.

(** X26, at an instance. *)
Lemma X26_evalSexp_reports_the_unclosed_list_witness :
  Commands.evalSexp "TypeError" 5 "(+ 1 (* 2 3)" (createGlobalEnv, Session.start)
  = Some (createGlobalEnv, Commands.echo "Lisp Error: Unclosed list" Session.start).
Proof. apply X26_evalSexp_reports_the_unclosed_list. reflexivity. Defined.

(** X27, at an instance: a list behind a quote mark, a number without. *)
Lemma X27_evalSexp_echoes_the_printed_text_witness :
  Commands.evalSexp "TypeError" 1 "'(1 t)" (createGlobalEnv, Session.start)
    = Some (createGlobalEnv, Commands.echo "(1 t)" Session.start) /\
  Commands.evalSexp "TypeError" 1 "42" (createGlobalEnv, Session.start)
    = Some (createGlobalEnv, Commands.echo "42" Session.start).
Proof.
  split.
  - apply (proj1 (X27_evalSexp_echoes_the_printed_text "TypeError" 0
                    (mkList [mkNum 1; mkBool true]) "(1 t)" createGlobalEnv Session.start
                    ltac:(apply Readable_list; repeat constructor; vm_compute; reflexivity)
                    ltac:(vm_compute; reflexivity))).
  - apply (proj2 (X27_evalSexp_echoes_the_printed_text "TypeError" 0
                    (mkNum 42) "42" createGlobalEnv Session.start
                    ltac:(apply Readable_num; split; vm_compute; reflexivity)
                    ltac:(vm_compute; reflexivity))).
    intros vs. discriminate.
Defined.

(** X28, at an instance: down from the first of two lines. *)
Lemma X28_moveCursorLine_stays_in_the_buffer_witness :
  (0 <= 4 <= Z.of_nat (String.length ("ab" +:+ String newline "cd")))%Z.
Proof.
  apply (X28_moveCursorLine_stays_in_the_buffer ("ab" +:+ String newline "cd") 1%Z 1%Z 4%Z).
  - simpl. lia.
  - vm_compute. reflexivity.
Defined.

